(** * Titanium/Alloy editor support: completion cascade, definition helpers
      and update installation, embedded from the TypeScript sources.

    - [Js]      : the string operations of the host language the code uses.
    - [Re]      : regular expressions as the host language runs them
                  (a backtracking matcher with captures, the [RegExp]
                  object with its flags and [lastIndex], [exec], [test]).
    - [Vs]      : the slice of the editor API the code touches.
    - [Ctl]     : providers/completion/controllerCompletionItemProvider
                  (src/unnamed/part_002).
    - [Def]     : providers/definition/definitionProviderHelper
                  (src/unnamed/part_001).
    - [Ext]     : installUpdates of src/src/extension.ts. *)

From stdpp Require Import base option list gmap strings.
From Stdlib Require Import Ascii String List Arith Lia ZArith Sorting.Sorted Sorting.Permutation.
Import ListNotations.

Local Open Scope nat_scope.
Local Open Scope list_scope.

(** Strings of the host language are sequences of code units; the model
    keeps the 8-bit ones. *)
Abbreviation jsstring := (list ascii).

(** A source-level string literal. *)
Definition str (s : string) : jsstring := list_ascii_of_string s.

(** The two quote characters. *)
Definition dquote : ascii := ascii_of_nat 34.
Definition squote : ascii := ascii_of_nat 39.

(** A literal in which a backquote stands for the double quote. *)
Definition qstr (s : string) : jsstring :=
  map (fun c => if Ascii.eqb c "`" then dquote else c) (str s).

(* ================================================================== *)
(** ** Host string operations *)
(* ================================================================== *)
Module Js.

(** [s.startsWith(p)] *)
Fixpoint startsWith (p s : jsstring) : bool :=
  match p, s with
  | [], _ => true
  | a :: p', b :: s' => Ascii.eqb a b && startsWith p' s'
  | _ :: _, [] => false
  end.

(** [s.indexOf(sub)]; [None] is the host's -1. *)
Fixpoint indexOf (s sub : jsstring) : option nat :=
  if startsWith sub s then Some 0
  else match s with
       | [] => None
       | _ :: s' => match indexOf s' sub with
                    | Some i => Some (S i)
                    | None => None
                    end
       end.

(** [s.indexOf(sub) === 0] *)
Definition startsAt0 (s sub : jsstring) : bool :=
  match indexOf s sub with
  | Some 0 => true
  | _ => false
  end.

(** [s.includes(sub)], written [s.indexOf(sub) !== -1] in the sources. *)
Definition includes (s sub : jsstring) : bool :=
  match indexOf s sub with Some _ => true | None => false end.

(** [s.substring(a, b)] for [a <= b]; the host swaps its arguments
    otherwise. *)
Definition substring (s : jsstring) (a b : nat) : jsstring :=
  let lo := Nat.min a b in
  let hi := Nat.max a b in
  firstn (hi - lo) (skipn lo s).

(** [s.lastIndexOf('.') === s.length - 1] for a non-empty [s]: the last
    code unit is [c]. *)
Definition endsWithChar (c : ascii) (s : jsstring) : bool :=
  match rev s with
  | x :: _ => Ascii.eqb x c
  | [] => false
  end.

(** [s.substr(0, s.length - 1)]. *)
Definition dropLast (s : jsstring) : jsstring := removelast s.

(** [s.split(c)]: the pieces between the occurrences of [c]. *)
Fixpoint split (c : ascii) (s : jsstring) : list jsstring :=
  match s with
  | [] => [[]]
  | x :: s' =>
      if Ascii.eqb x c then [] :: split c s'
      else match split c s' with
           | p :: ps => (x :: p) :: ps
           | [] => [[x]]
           end
  end.

(** [parts[parts.length - 1]], and [parts.pop()] on a fresh array. *)
Definition lastPiece (parts : list jsstring) : jsstring := List.last parts [].

(** [list.includes(x)] on an array of strings. *)
Definition arrayIncludes (l : list jsstring) (x : jsstring) : bool :=
  existsb (fun y => bool_decide (y = x)) l.

End Js.

(* ================================================================== *)
(** ** Regular expressions *)
(* ================================================================== *)
Module Re.

(** Pattern syntax, as far as the patterns of the sources need it. *)
Inductive regex : Type :=
| Empty                                  (* the empty pattern *)
| Char (c : ascii)                       (* a literal character *)
| CharSet (p : ascii -> bool)            (* a class or class escape *)
| Seq (r1 r2 : regex)
| Alt (r1 r2 : regex)                    (* r1|r2 *)
| Star (greedy : bool) (r : regex)       (* r* and r*? *)
| Group (n : nat) (r : regex)            (* the n-th capturing group *)
| AssertEnd.                             (* $ without the m flag *)

(** [r+], [r+?] and [r?]. None of the quantified patterns of the sources
    can match the empty string or holds a group, where these expansions
    would differ from the host's repeat matcher. *)
Definition Plus (greedy : bool) (r : regex) : regex := Seq r (Star greedy r).
Definition Opt (r : regex) : regex := Alt r Empty.

(** A run of literal characters. *)
Fixpoint Lit (s : jsstring) : regex :=
  match s with
  | [] => Empty
  | [c] => Char c
  | c :: s' => Seq (Char c) (Lit s')
  end.

(** Sequence of several patterns. *)
Fixpoint Cat (rs : list regex) : regex :=
  match rs with
  | [] => Empty
  | [r] => r
  | r :: rs' => Seq r (Cat rs')
  end.

(** Alternation of several patterns. *)
Fixpoint Any (rs : list regex) : regex :=
  match rs with
  | [] => Empty
  | [r] => r
  | r :: rs' => Alt r (Any rs')
  end.

(** Character tests. *)
Definition code (c : ascii) : nat := nat_of_ascii c.
Definition between (lo hi : nat) (c : ascii) : bool :=
  (lo <=? code c) && (code c <=? hi).
Definition isUpper (c : ascii) : bool := between 65 90 c.
Definition isLower (c : ascii) : bool := between 97 122 c.
Definition isDigit (c : ascii) : bool := between 48 57 c.
Definition isAlpha (c : ascii) : bool := isUpper c || isLower c.
Definition oneOf (s : string) (c : ascii) : bool :=
  existsb (Ascii.eqb c) (str s).

(** [\w] *)
Definition isWord (c : ascii) : bool :=
  isAlpha c || isDigit c || Ascii.eqb c "_".
(** [\s]: tab, LF, VT, FF, CR, space and the no-break space. *)
Definition isSpace (c : ascii) : bool :=
  between 9 13 c || (code c =? 32) || (code c =? 160).
(** Line terminators, which [.] refuses. *)
Definition isLineTerminator (c : ascii) : bool :=
  (code c =? 10) || (code c =? 13).
Definition isQuote (c : ascii) : bool :=
  Ascii.eqb c dquote || Ascii.eqb c squote.

Definition Dot : regex := CharSet (fun c => negb (isLineTerminator c)).
Definition NotSpace : regex := CharSet (fun c => negb (isSpace c)).

(** The host's Canonicalize under the i flag: upper-casing. *)
Definition toUpper (c : ascii) : ascii :=
  if isLower c then ascii_of_nat (code c - 32) else c.
Definition toLower (c : ascii) : ascii :=
  if isUpper c then ascii_of_nat (code c + 32) else c.

Definition charMatches (ic : bool) (a x : ascii) : bool :=
  if ic then Ascii.eqb (toUpper a) (toUpper x) else Ascii.eqb a x.
Definition classMatches (ic : bool) (p : ascii -> bool) (x : ascii) : bool :=
  if ic then p x || p (toUpper x) || p (toLower x) else p x.

(** Captures: the most recent binding of a group comes first. *)
Definition captures := list (nat * jsstring).

Fixpoint capture (n : nat) (c : captures) : option jsstring :=
  match c with
  | [] => None
  | (k, v) :: c' => if k =? n then Some v else capture n c'
  end.

(** The groups a pattern holds. *)
Fixpoint groupsOf (r : regex) : list nat :=
  match r with
  | Seq r1 r2 | Alt r1 r2 => groupsOf r1 ++ groupsOf r2
  | Star _ r' => groupsOf r'
  | Group n r' => n :: groupsOf r'
  | _ => []
  end.

(** Entering an iteration of a quantifier forgets the groups inside it. *)
Definition clearGroups (gs : list nat) (c : captures) : captures :=
  List.filter (fun kv => negb (existsb (Nat.eqb (fst kv)) gs)) c.

(** A match state is the rest of the input and the captures so far. *)
Definition state := (jsstring * captures)%type.
Definition cont := jsstring -> captures -> option state.

(** The repeat matcher of [r*] and [r*?]: [body] matches [r] once. An
    iteration that consumes nothing is refused, so a star makes at most
    as many iterations as there are characters left; [n] counts them
    down from there. *)
Fixpoint starLoop (body : jsstring -> captures -> cont -> option state)
  (inner : list nat) (greedy : bool) (k : cont)
  (n : nat) (s : jsstring) (c : captures) {struct n} : option state :=
  match n with
  | 0 => k s c
  | S n' =>
      let again s' c' :=
        if length s' <? length s
        then starLoop body inner greedy k n' s' c' else None in
      if greedy then
        match body s (clearGroups inner c) again with
        | Some st => Some st
        | None => k s c
        end
      else
        match k s c with
        | Some st => Some st
        | None => body s (clearGroups inner c) again
        end
  end.

(** The backtracking matcher: [run ic r s c k] matches [r] at the front
    of [s] and hands what is left to the continuation [k]; alternatives
    are tried in the host's order. *)
Fixpoint run (ic : bool) (r : regex) (s : jsstring) (c : captures) (k : cont)
  {struct r} : option state :=
  match r with
  | Empty => k s c
  | Char a =>
      match s with
      | x :: s' => if charMatches ic a x then k s' c else None
      | [] => None
      end
  | CharSet p =>
      match s with
      | x :: s' => if classMatches ic p x then k s' c else None
      | [] => None
      end
  | Seq r1 r2 => run ic r1 s c (fun s' c' => run ic r2 s' c' k)
  | Alt r1 r2 =>
      match run ic r1 s c k with
      | Some st => Some st
      | None => run ic r2 s c k
      end
  | Star greedy r' =>
      starLoop (run ic r') (groupsOf r') greedy k (length s) s c
  | Group n r' =>
      run ic r' s c
        (fun s' c' => k s' ((n, firstn (length s - length s') s) :: c'))
  | AssertEnd =>
      match s with
      | [] => k s c
      | _ :: _ => None
      end
  end.

(** The final continuation: the pattern matched. *)
Definition accept : cont := fun s c => Some (s, c).

(** The [RegExp] object: a pattern, its flags, and the mutable
    [lastIndex]. *)
Record RegExp : Type := mkRegExp {
  source : regex;
  global : bool;
  ignoreCase : bool;
  sticky : bool;
  lastIndex : nat
}.

(** A pattern literal [/r/], [/r/g], [/r/i]: a fresh object. *)
Definition literal (r : regex) : RegExp := mkRegExp r false false false 0.
Definition literal_g (r : regex) : RegExp := mkRegExp r true false false 0.
Definition literal_i (r : regex) : RegExp := mkRegExp r false true false 0.

Definition setLastIndex (R : RegExp) (i : nat) : RegExp :=
  mkRegExp (source R) (global R) (ignoreCase R) (sticky R) i.

(** The array [exec] returns: [index], element 0 and the groups. *)
Record MatchResult : Type := mkMatch {
  index : nat;
  matched : jsstring;
  groups : list (option jsstring)
}.

(** The elements of the array, as [for ... of] walks them. *)
Definition elements (m : MatchResult) : list (option jsstring) :=
  Some (matched m) :: groups m.

(** [m[n]] *)
Definition nth_group (m : MatchResult) (n : nat) : option jsstring :=
  match n with
  | 0 => Some (matched m)
  | S n' => List.nth n' (groups m) None
  end.

(** Number of groups: the largest group number. *)
Definition nGroups (r : regex) : nat := list_max (groupsOf r).

(** Try the start positions from the front of [s] on; [i] is the index
    of that front in the whole input. *)
Fixpoint search (ic : bool) (r : regex) (s : jsstring) (i : nat)
  : option (nat * jsstring * state) :=
  match run ic r s [] accept with
  | Some st => Some (i, s, st)
  | None =>
      match s with
      | [] => None
      | _ :: s' => search ic r s' (S i)
      end
  end.

(** One attempt at the front of [s] only (the y flag). *)
Definition attempt (ic : bool) (r : regex) (s : jsstring) (i : nat)
  : option (nat * jsstring * state) :=
  match run ic r s [] accept with
  | Some st => Some (i, s, st)
  | None => None
  end.

(** [R.exec(input)]: the match, if any, and the object afterwards. *)
Definition exec (R : RegExp) (input : jsstring)
  : option MatchResult * RegExp :=
  let stateful := global R || sticky R in
  let start := if stateful then lastIndex R else 0 in
  let failed := if stateful then setLastIndex R 0 else R in
  if length input <? start then (None, failed)
  else
    match (if sticky R then attempt else search)
            (ignoreCase R) (source R) (skipn start input) start with
    | None => (None, failed)
    | Some (i, from, (rest, caps)) =>
        let e := length input - length rest in
        (Some (mkMatch i (firstn (length from - length rest) from)
                 (map (fun n => capture n caps) (seq 1 (nGroups (source R))))),
         if stateful then setLastIndex R e else R)
    end.

(** [R.test(input)] *)
Definition test (R : RegExp) (input : jsstring) : bool * RegExp :=
  match exec R input with
  | (Some _, R') => (true, R')
  | (None, R') => (false, R')
  end.

(** [input.match(R)] for an [R] without the g flag is [R.exec(input)]. *)
Definition matchOf (R : RegExp) (input : jsstring) : option MatchResult :=
  fst (exec R input).

(** [test] of a fresh literal: only the answer matters. *)
Definition testLit (R : RegExp) (input : jsstring) : bool :=
  fst (test R input).

End Re.

(* ================================================================== *)
(** ** The editor API *)
(* ================================================================== *)
Module Vs.

Inductive CompletionItemKind : Type :=
| Method | Property | Class | Reference | Event.

(** [insertText] is a plain string or a snippet. *)
Inductive InsertText : Type :=
| Plain (s : jsstring)
| Snippet (s : jsstring).

Record Range : Type := mkRange {
  startLine : nat; startCharacter : nat;
  endLine : nat; endCharacter : nat
}.

Record Position : Type := mkPosition { line : nat; character : nat }.

(** [new Range(startLine, startCharacter, endLine, endCharacter)]: the
    editor swaps the two ends when the first comes after the second. *)
Definition newRange (l1 c1 l2 c2 : nat) : Range :=
  if (l2 <? l1) || ((l2 =? l1) && (c2 <? c1))
  then mkRange l2 c2 l1 c1
  else mkRange l1 c1 l2 c2.

Record CompletionItem : Type := mkItem {
  label : jsstring;
  kind : CompletionItemKind;
  detail : option jsstring;
  insertText : option InsertText;
  range : option Range
}.

(** A text document is its text. *)
Definition TextDocument := jsstring.

(** The lines of a document, split at LF. *)
Definition lines (d : TextDocument) : list jsstring :=
  Js.split (ascii_of_nat 10) d.

(** [document.lineAt(position).text] *)
Definition lineAt (d : TextDocument) (p : Position) : jsstring :=
  List.nth (line p) (lines d) [].

(** [document.getText(new Range(l, 0, l, c))]: the first [c] code units
    of line [l]. *)
Definition linePrefixAt (d : TextDocument) (l c : nat) : jsstring :=
  firstn c (List.nth l (lines d) []).

(** [document.positionAt(offset)]: line and column of an offset. *)
Fixpoint positionFrom (s : jsstring) (offset l c : nat) : Position :=
  match offset, s with
  | 0, _ | _, [] => mkPosition l c
  | S o, x :: s' =>
      if Ascii.eqb x (ascii_of_nat 10) then positionFrom s' o (S l) 0
      else positionFrom s' o l (S c)
  end.
Definition positionAt (d : TextDocument) (offset : nat) : Position :=
  positionFrom d offset 0 0.

End Vs.

(** What a call does: it returns a value, throws (or rejects), or never
    comes back. *)
Inductive outcome (A : Type) : Type :=
| Returns (a : A)
| Throws
| Hangs.
Arguments Returns {A} a.
Arguments Throws {A}.
Arguments Hangs {A}.

(** A loop run on fuel that either finishes or ran out of it. *)
Definition finished {A : Type} (r : option A) : outcome A :=
  match r with
  | Some a => Returns a
  | None => Hangs
  end.

(* ================================================================== *)
(** ** The controller completion provider (src/unnamed/part_002) *)
(* ================================================================== *)
Module Ctl.
Import Re Vs.

(** *** The completion catalog *)

(** One type of the catalog. *)
Record TypeInfo : Type := mkType {
  functions : list jsstring;
  properties : list jsstring;
  events : list jsstring
}.

(** One Alloy tag of the catalog. *)
Record TagInfo : Type := mkTag { apiName : jsstring }.

(** A [types] object: its keys in enumeration order, with their values. *)
Definition Types := list (jsstring * TypeInfo).

(** [Object.keys(types)] *)
Definition keys (types : Types) : list jsstring := map fst types.

(** [types[name]] *)
Fixpoint typeOf (types : Types) (name : jsstring) : option TypeInfo :=
  match types with
  | [] => None
  | (k, v) :: rest => if bool_decide (k = name) then Some v else typeOf rest name
  end.

(** The loaded catalog: [completions.alloy.tags], [completions.alloy.types]
    and [completions.titanium.types]. *)
Record Completions : Type := mkCompletions {
  alloyTags : gmap jsstring TagInfo;
  alloyTypes : Types;
  titaniumTypes : Types
}.

(** An entry of alloyAutoCompleteRules. The module is not among the
    embedded sources; a rule is what the provider uses of it. *)
Record Rule : Type := mkRule {
  regExp : RegExp;
  requireRange : bool;
  rangeRegex : RegExp;
  getCompletions : option Range -> outcome (list CompletionItem)
}.

Definition withRegExp (rule : Rule) (R : RegExp) : Rule :=
  mkRule R (requireRange rule) (rangeRegex rule) (getCompletions rule).

(** What the provider reads from its surroundings. The catalog is
    loaded by the first call ([loadCompletions]) and kept; a call finds
    it in [completions]. *)
Record Env : Type := mkEnv {
  (** [this.completions], once loaded *)
  completions : Completions;
  (** [related.getTargetPath('xml')] *)
  relatedXml : option jsstring;
  (** the documents [workspace.openTextDocument] can open *)
  files : gmap jsstring TextDocument;
  (** [utils.matches(text, test)] *)
  utilsMatches : jsstring -> jsstring -> bool;
  (** [document.getWordRangeAtPosition(position, regex)] *)
  wordRangeAt : TextDocument -> Position -> RegExp -> option Range;
  (** [getFileCompletions] and [getWidgetCompletions], which list the
      project directory through utils *)
  getFileCompletions :
    jsstring -> option jsstring -> option Range -> outcome (list CompletionItem);
  getWidgetCompletions : outcome (list CompletionItem)
}.

(** *** The patterns of the cascade

    Where a comment quotes a pattern of the source, a backquote stands
    for the double quote and a space parts a star from a closing
    parenthesis that follows it. *)

(** [[-a-zA-Z0-9-_]], and the same with [/] and with [/.] added. *)
Definition idChar (c : ascii) : bool := isAlpha c || isDigit c || oneOf "-_" c.
Definition idSlashChar (c : ascii) : bool := idChar c || oneOf "/" c.
Definition idSlashDotChar (c : ascii) : bool := idChar c || oneOf "/." c.
Definition quote : regex := CharSet isQuote.
Definition ids : regex := Star true (CharSet idChar).

(** [/\$\.([-a-zA-Z0-9-_]* )$/] *)
Definition reId : RegExp :=
  literal (Cat [Lit (str "$."); Group 1 ids; AssertEnd]).

(** [/\$\.([-a-zA-Z0-9-_]* ).([-a-zA-Z0-9-_]* )$/] *)
Definition reMember : RegExp :=
  literal (Cat [Lit (str "$."); Group 1 ids; Dot; Group 2 ids; AssertEnd]).

(** [/(?:Ti|Titanium)\.?\S+/i] *)
Definition reTitanium : RegExp :=
  literal_i (Cat [Alt (Lit (str "Ti")) (Lit (str "Titanium"));
                  Opt (Char "."); Plus true NotSpace]).

(** [/\$\.([-a-zA-Z0-9-_]* )\.(add|remove)EventListener\([`']([-a-zA-Z0-9-_/]* )$/] *)
Definition reEvent : RegExp :=
  literal (Cat [Lit (str "$."); Group 1 ids; Char ".";
                Group 2 (Alt (Lit (str "add")) (Lit (str "remove")));
                Lit (str "EventListener("); quote;
                Group 3 (Star true (CharSet idSlashChar)); AssertEnd]).

(** [/require\([`']?([^'`);]* )[`']?\)?$/] *)
Definition reRequire : RegExp :=
  literal (Cat [Lit (str "require("); Opt quote;
                Group 1 (Star true (CharSet (fun c =>
                  negb (isQuote c || oneOf ");" c))));
                Opt quote; Opt (Char ")"); AssertEnd]).

(** [/Alloy\.(createController|Controllers\.instance)\([`']([-a-zA-Z0-9-_/]*[`']?\)?)$/] *)
Definition reController : RegExp :=
  literal (Cat [Lit (str "Alloy.");
                Group 1 (Alt (Lit (str "createController"))
                             (Lit (str "Controllers.instance")));
                Char "("; quote;
                Group 2 (Cat [Star true (CharSet idSlashChar); Opt quote;
                              Opt (Char ")")]);
                AssertEnd]).

(** [/Alloy\.(createModel|Models\.instance|createCollection|Collections\.instance)\([`']([-a-zA-Z0-9-_/]* )$/] *)
Definition reModel : RegExp :=
  literal (Cat [Lit (str "Alloy.");
                Group 1 (Any [Lit (str "createModel");
                              Lit (str "Models.instance");
                              Lit (str "createCollection");
                              Lit (str "Collections.instance")]);
                Char "("; quote;
                Group 2 (Star true (CharSet idSlashChar)); AssertEnd]).

(** [/Alloy\.(createWidget|Widgets\.instance)\([`']([-a-zA-Z0-9-_/.]* )$/] *)
Definition reWidget : RegExp :=
  literal (Cat [Lit (str "Alloy.");
                Group 1 (Alt (Lit (str "createWidget"))
                             (Lit (str "Widgets.instance")));
                Char "("; quote;
                Group 2 (Star true (CharSet idSlashDotChar)); AssertEnd]).

(** [/(?:Alloy)\.?\S+/] *)
Definition reAlloy : RegExp :=
  literal (Cat [Lit (str "Alloy"); Opt (Char "."); Plus true NotSpace]).

(** [/([\w/.$]+)/], the word pattern of the require branch *)
Definition reModuleWord : RegExp :=
  literal (Group 1 (Plus true (CharSet (fun c => isWord c || oneOf "/.$" c)))).

(** [/id=`(.+?)`/g] *)
Definition reIdAttr : RegExp :=
  literal_g (Cat [Lit (str "id="); Char dquote;
                  Group 1 (Plus false Dot); Char dquote]).

(** What follows group 1 of that pattern: the closing quote, with the
    group holding what was consumed of [whole]. *)
Definition closing (whole : jsstring) : cont :=
  fun s c =>
    run false (Char dquote) s
      ((1, firstn (length whole - length s) whole) :: c) accept.

(** [/\$\.([-a-zA-Z0-9-_]* )\.?$/] *)
Definition reIdDot : RegExp :=
  literal (Cat [Lit (str "$."); Group 1 ids; Opt (Char "."); AssertEnd]).

(** [new RegExp(`id=["']${id}["']`, 'g')]. The [id] spliced in comes out
    of a group over [[-a-zA-Z0-9-_]], none of whose characters is special
    in a pattern, so it stands for itself. *)
Definition reIdOf (id : jsstring) : RegExp :=
  literal_g (Cat [Lit (str "id="); quote; Lit id; quote]).

(** [/<([a-zA-Z][-a-zA-Z]* )(?:\s|$)/] *)
Definition reTag : RegExp :=
  literal (Cat [Char "<";
                Group 1 (Seq (CharSet isAlpha)
                             (Star true (CharSet (fun c =>
                                isAlpha c || oneOf "-" c))));
                Alt (CharSet isSpace) AssertEnd]).

(** [/(Ti\.(?:(?:[A-Z]\w*|iOS|iPad)\.?)* )([a-z]\w* )*$/] *)
Definition reTiPath : RegExp :=
  literal (Cat [Group 1 (Seq (Lit (str "Ti."))
                  (Star true (Seq
                     (Any [Seq (CharSet isUpper) (Star true (CharSet isWord));
                           Lit (str "iOS"); Lit (str "iPad")])
                     (Opt (Char ".")))));
                Star true (Group 2 (Seq (CharSet isLower)
                                        (Star true (CharSet isWord))));
                AssertEnd]).

(** [/(Alloy\.(?:(?:[A-Z]\w* )\.?)* )([a-z]\w* )*$/] *)
Definition reAlloyPath : RegExp :=
  literal (Cat [Group 1 (Seq (Lit (str "Alloy."))
                  (Star true (Seq
                     (Seq (CharSet isUpper) (Star true (CharSet isWord)))
                     (Opt (Char ".")))));
                Star true (Group 2 (Seq (CharSet isLower)
                                        (Star true (CharSet isWord))));
                AssertEnd]).

(** *** Completion items *)

Definition item (l : jsstring) (k : CompletionItemKind) : CompletionItem :=
  mkItem l k None None None.

(** [{ label: id, kind: Reference, detail: fileName }] *)
Definition idItem (fileName id : jsstring) : CompletionItem :=
  mkItem id Reference (Some fileName) None None.

(** [{ label: key, kind: Class, insertText: last section of key }] *)
Definition classItem (key : jsstring) : CompletionItem :=
  mkItem key Class None
    (Some (Plain (Js.lastPiece (Js.split "." key)))) None.

(** [{ label: value, kind: Method, insertText: SnippetString }] *)
Definition methodSnippet (value : jsstring) : CompletionItem :=
  mkItem value Method None (Some (Snippet (value ++ str "($1)$0"))) None.

(** [{ label: value, kind: Property, insertText: SnippetString }] *)
Definition propertySnippet (value : jsstring) : CompletionItem :=
  mkItem value Property None (Some (Snippet (value ++ str " = $1$0"))) None.

(** [{ label: event, kind: Event, detail: apiName }] *)
Definition eventItem (api event : jsstring) : CompletionItem :=
  mkItem event Event (Some api) None None.

(** [[ { label: 'Ti', kind: Class } ]] *)
Definition tiItem : CompletionItem := item (str "Ti") Class.

(** *** getIdCompletions *)

(** [matches[1]] as a string; group 1 is part of every match of the
    patterns it is read from. *)
Definition group1 (m : MatchResult) : jsstring :=
  default [] (nth_group m 1).

(** The [for] loop over [regex.exec(document.getText())]: [ids] and
    [completions] grow at their ends. *)
Fixpoint idLoop (fuel : nat) (regex : RegExp) (text fileName : jsstring)
  (seen : list jsstring) (acc : list CompletionItem)
  : option (list CompletionItem) :=
  match fuel with
  | 0 => None
  | S fuel' =>
      match exec regex text with
      | (None, _) => Some acc
      | (Some matches, regex') =>
          let id := group1 matches in
          if Js.arrayIncludes seen id
          then idLoop fuel' regex' text fileName seen acc
          else idLoop fuel' regex' text fileName
                 (seen ++ [id]) (acc ++ [idItem fileName id])
      end
  end.

Definition getIdCompletions (E : Env) : outcome (list CompletionItem) :=
  match relatedXml E with
  | None => Returns []
  | Some relatedFile =>
      let fileName := Js.lastPiece (Js.split "/" relatedFile) in
      match files E !! relatedFile with
      | None => Throws
      | Some document =>
          finished (idLoop (S (length document)) reIdAttr document fileName [] [])
      end
  end.

(** *** Looking up the tag of an id in the related view *)

(** A value that passes an [if (x)] test: a non-empty string. *)
Definition truthy (x : option jsstring) : bool :=
  match x with
  | Some (_ :: _) => true
  | _ => false
  end.

(** The text of [document] on the line of the first [id=...] of [id],
    up to that attribute, matched against the tag pattern:
    [document.getText(new Range(position.line, 0, position.line,
    position.character)).match(/<.../)], if [regex.exec] found the id. *)
Definition closestTag (document : TextDocument) (id : jsstring)
  : option MatchResult :=
  match fst (exec (reIdOf id) document) with
  | Some found =>
      let position := positionAt document (index found) in
      matchOf reTag (linePrefixAt document (line position) (character position))
  | None => None
  end.

(** *** getMethodAndPropertyCompletions *)

(** [for (const value of list) completions.push(mk(value))] *)
Definition pushAll {A : Type} (mk : A -> CompletionItem) (l : list A)
  (acc : list CompletionItem) : list CompletionItem :=
  fold_left (fun acc value => acc ++ [mk value]) l acc.

Definition getMethodAndPropertyCompletions (E : Env) (linePrefix : jsstring)
  : outcome (list CompletionItem) :=
  let tags := alloyTags (completions E) in
  let types := titaniumTypes (completions E) in
  match matchOf reIdDot linePrefix with
  | None => Throws
  | Some m =>
      let id := group1 m in
      match relatedXml E with
      | None => Returns []
      | Some relatedFile =>
          match files E !! relatedFile with
          | None => Throws
          | Some document =>
              let tagName :=
                match closestTag document id with
                | Some closestId => Some (group1 closestId)
                | None => None
                end in
              match (if truthy tagName then tags !! default [] tagName else None) with
              | Some tag =>
                  match typeOf types (apiName tag) with
                  | Some tagObj =>
                      Returns (pushAll propertySnippet (properties tagObj)
                                 (pushAll methodSnippet (functions tagObj) []))
                  | None => Returns []
                  end
              | None => Returns []
              end
          end
      end
  end.

(** The names a plain object answers to without holding them, the
    properties of [Object.prototype]: [tags[name]] is a function or an
    object for them, with no [apiName]. *)
Definition inherited (name : jsstring) : bool :=
  existsb (fun k => bool_decide (name = str k))
    ["constructor"; "hasOwnProperty"; "isPrototypeOf"; "propertyIsEnumerable";
     "toLocaleString"; "toString"; "valueOf"; "__proto__";
     "__defineGetter__"; "__defineSetter__"; "__lookupGetter__";
     "__lookupSetter__"]%string.

(** *** getEventNameCompletions *)

Definition getEventNameCompletions (E : Env) (linePrefix : jsstring)
  : outcome (list CompletionItem) :=
  let tags := alloyTags (completions E) in
  let types := titaniumTypes (completions E) in
  match fst (exec reEvent linePrefix) with
  | None => Returns []
  | Some matches =>
      let id := group1 matches in
      match relatedXml E with
      | None => Returns []
      | Some relatedFile =>
          match files E !! relatedFile with
          | None => Throws
          | Some document =>
              let tagName :=
                match closestTag document id with
                | Some closestId => Some (group1 matches)
                | None => None
                end in
              if truthy tagName then
                match tags !! default [] tagName with
                | Some tag =>
                    match typeOf types (apiName tag) with
                    | Some tagObj =>
                        Returns (pushAll (eventItem (apiName tag))
                                   (events tagObj) [])
                    | None => Throws
                    end
                | None =>
                    if inherited (default [] tagName) then
                      (* [apiName] is [undefined], and so is the
                         [detail] of the items *)
                      match typeOf types (str "undefined") with
                      | Some tagObj =>
                          Returns (pushAll
                                     (fun event => mkItem event Event None
                                                     None None)
                                     (events tagObj) [])
                      | None => Throws
                      end
                    else Returns []
                end
              else Returns []
          end
      end
  end.

(** *** getTitaniumApiCompletions and getAlloyApiCompletions *)

(** The API name and the attribute a path pattern finds in the line
    prefix: [matches[1]] without a closing dot, and [matches[2]]. *)
Definition pathParts (pattern : RegExp) (linePrefix : jsstring)
  : option jsstring * option jsstring :=
  match matchOf pattern linePrefix with
  | Some matches =>
      if length (elements matches) =? 3 then
        let apiName := group1 matches in
        let apiName :=
          if Js.endsWithChar "." apiName then Js.dropLast apiName else apiName in
        (Some apiName, nth_group matches 2)
      else (None, None)
  | None => (None, None)
  end.

(** An attribute that begins [iOS] or [iPad] belongs to the API name. *)
Definition iosParts (parts : option jsstring * option jsstring)
  : option jsstring * option jsstring :=
  let (apiName, attribute) := parts in
  if truthy attribute
     && (Js.startsAt0 (str "iOS") (default [] attribute)
         || Js.startsAt0 (str "iPad") (default [] attribute))
  then (Some (default (str "undefined") apiName ++ str "." ++ default [] attribute),
        None)
  else (apiName, attribute).

(** The three loops over the catalog, shared by both functions. *)
Definition apiCompletions (E : Env) (types : Types)
  (parts : option jsstring * option jsstring) : list CompletionItem :=
  let (apiName, attribute) := parts in
  if negb (truthy apiName) then []
  else
    let apiName := default [] apiName in
    let wanted (name : jsstring) : bool :=
      (negb (truthy attribute) || utilsMatches E name (default [] attribute))
      && negb (Js.includes name (str "deprecated")) in
    let completions :=
      if negb (truthy attribute) then
        fold_left (fun acc key =>
                     if Js.startsAt0 key apiName && negb (Js.includes key (str "_"))
                     then acc ++ [classItem key] else acc)
                  (keys types) []
      else [] in
    match typeOf types apiName with
    | Some apiObj =>
        let completions :=
          fold_left (fun acc func =>
                       if wanted func then acc ++ [item func Method] else acc)
                    (functions apiObj) completions in
        fold_left (fun acc property =>
                     if wanted property then acc ++ [item property Property] else acc)
                  (properties apiObj) completions
    | None => completions
    end.

Definition getTitaniumApiCompletions (E : Env) (linePrefix : jsstring)
  : list CompletionItem :=
  apiCompletions E (titaniumTypes (completions E))
    (iosParts (pathParts reTiPath linePrefix)).

Definition getAlloyApiCompletions (E : Env) (linePrefix : jsstring)
  : list CompletionItem :=
  apiCompletions E (alloyTypes (completions E)) (pathParts reAlloyPath linePrefix).

(** *** provideCompletionItems *)

(** What each arm of the [if]/[else if] chain returns. *)
Record Branches (A : Type) : Type := mkBranches {
  onId : A;
  onMember : A;
  onTitanium : A;
  onEvent : A;
  onRequire : A;
  onController : A;
  onModel : A;
  onWidget : A;
  onAlloy : A;
  onRule : nat -> Rule -> A;
  onNone : A
}.
Arguments onId {A} _.
Arguments onMember {A} _.
Arguments onTitanium {A} _.
Arguments onEvent {A} _.
Arguments onRequire {A} _.
Arguments onController {A} _.
Arguments onModel {A} _.
Arguments onWidget {A} _.
Arguments onAlloy {A} _.
Arguments onRule {A} _ _ _.
Arguments onNone {A} _.

(** [for (const rule of Object.values(alloyAutoCompleteRules))]: the
    rules are objects of their module, so a [test] leaves its mark in
    the rule's [regExp]; [i] counts the rules passed. *)
Fixpoint ruleLoop {A : Type} (arm : nat -> Rule -> A) (i : nat)
  (rules : list Rule) (linePrefix : jsstring) : option A * list Rule :=
  match rules with
  | [] => (None, [])
  | rule :: rest =>
      let (hit, R') := test (regExp rule) linePrefix in
      if hit then (Some (arm i rule), withRegExp rule R' :: rest)
      else
        let (r, rest') := ruleLoop arm (S i) rest linePrefix in
        (r, withRegExp rule R' :: rest')
  end.

(** The chain of tests on the line prefix. Its pattern literals are
    fresh objects at every call; the rules are handed back as the tests
    left them. *)
Definition cascade {A : Type} (arms : Branches A) (rules : list Rule)
  (linePrefix : jsstring) : A * list Rule :=
  if testLit reId linePrefix then (onId arms, rules)
  else if testLit reMember linePrefix then (onMember arms, rules)
  else if testLit reTitanium linePrefix then (onTitanium arms, rules)
  else if testLit reEvent linePrefix then (onEvent arms, rules)
  else if testLit reRequire linePrefix then (onRequire arms, rules)
  else if testLit reController linePrefix then (onController arms, rules)
  else if testLit reModel linePrefix then (onModel arms, rules)
  else if testLit reWidget linePrefix then (onWidget arms, rules)
  else if testLit reAlloy linePrefix then (onAlloy arms, rules)
  else
    match ruleLoop (onRule arms) 0 rules linePrefix with
    | (Some a, rules') => (a, rules')
    | (None, rules') => (onNone arms, rules')
    end.

(** The arms of [provideCompletionItems]. *)
Definition handlers (E : Env) (document : TextDocument) (position : Position)
  (linePrefix : jsstring) : Branches (outcome (list CompletionItem)) :=
  {| onId := getIdCompletions E;
     onMember := getMethodAndPropertyCompletions E linePrefix;
     onTitanium := Returns (getTitaniumApiCompletions E linePrefix);
     onEvent := getEventNameCompletions E linePrefix;
     onRequire :=
       match matchOf reRequire linePrefix with
       | Some matches =>
           let requestedModule := nth_group matches 1 in
           let range := wordRangeAt E document position reModuleWord in
           getFileCompletions E (str "lib") requestedModule range
       | None => Throws
       end;
     onController := getFileCompletions E (str "controllers") None None;
     onModel := getFileCompletions E (str "models") None None;
     onWidget := getWidgetCompletions E;
     onAlloy := Returns (getAlloyApiCompletions E linePrefix);
     onRule := fun _ rule =>
       if requireRange rule
       then getCompletions rule
              (wordRangeAt E document position (rangeRegex rule))
       else getCompletions rule None;
     onNone := Returns [tiItem] |}.

Definition linePrefixOf (document : TextDocument) (position : Position)
  : jsstring :=
  linePrefixAt document (line position) (character position).

Definition provideCompletionItems (E : Env) (rules : list Rule)
  (document : TextDocument) (position : Position)
  : outcome (list CompletionItem) * list Rule :=
  let linePrefix := linePrefixOf document position in
  cascade (handlers E document position linePrefix) rules linePrefix.

(** The arm the chain takes, by name. *)
Inductive Branch : Type :=
| IdBranch | MemberBranch | TitaniumBranch | EventBranch | RequireBranch
| ControllerBranch | ModelBranch | WidgetBranch | AlloyBranch
| RuleBranch (i : nat)
| NoBranch.

Definition branchNames : Branches Branch :=
  {| onId := IdBranch; onMember := MemberBranch;
     onTitanium := TitaniumBranch; onEvent := EventBranch;
     onRequire := RequireBranch; onController := ControllerBranch;
     onModel := ModelBranch; onWidget := WidgetBranch;
     onAlloy := AlloyBranch; onRule := fun i _ => RuleBranch i;
     onNone := NoBranch |}.

(** The classification step of [provideCompletionItems]. *)
Definition classify (rules : list Rule) (document : TextDocument)
  (position : Position) : Branch :=
  fst (cascade branchNames rules (linePrefixOf document position)).

(** What is returned on an arm. *)
Definition handlerOf {A : Type} (arms : Branches A) (rules : list Rule)
  (b : Branch) : A :=
  match b with
  | IdBranch => onId arms
  | MemberBranch => onMember arms
  | TitaniumBranch => onTitanium arms
  | EventBranch => onEvent arms
  | RequireBranch => onRequire arms
  | ControllerBranch => onController arms
  | ModelBranch => onModel arms
  | WidgetBranch => onWidget arms
  | AlloyBranch => onAlloy arms
  | RuleBranch i =>
      match nth_error rules i with
      | Some rule => onRule arms i rule
      | None => onNone arms
      end
  | NoBranch => onNone arms
  end.

End Ctl.

(* ================================================================== *)
(** ** The definition provider helper (src/unnamed/part_001) *)
(* ================================================================== *)
Module Def.
Import Re Vs.

(** [/['`]/g] *)
Definition reQuote : RegExp := literal_g (CharSet isQuote).

(** [/image\s*[=:]\s*[`'][\s0-9a-zA-Z-_^./]*$/] *)
Definition reImage : RegExp :=
  literal (Cat [Lit (str "image"); Star true (CharSet isSpace);
                CharSet (oneOf "=:"); Star true (CharSet isSpace);
                CharSet isQuote;
                Star true (CharSet (fun c =>
                  isSpace c || isDigit c || isAlpha c || oneOf "-_^./" c));
                AssertEnd]).

(** The loop over [regExp.exec(line)] that both providers run: the last
    quote before the cursor column moves [startIndex], the first one
    after it sets [endIndex] and ends the loop. *)
Fixpoint quoteLoop (fuel : nat) (regExp : RegExp) (line : jsstring)
  (character startIndex endIndex : nat) : option (nat * nat) :=
  match fuel with
  | 0 => None
  | S fuel' =>
      match exec regExp line with
      | (None, _) => Some (startIndex, endIndex)
      | (Some matches, regExp') =>
          if index matches <? character then
            quoteLoop fuel' regExp' line character (index matches) endIndex
          else if character <? index matches then
            Some (startIndex, index matches)
          else
            quoteLoop fuel' regExp' line character startIndex endIndex
      end
  end.

(** [startIndex] and [endIndex] after the loop; they start at [0] and
    at the cursor column. *)
Definition quoteBounds (line : jsstring) (character : nat)
  : option (nat * nat) :=
  quoteLoop (S (length line)) reQuote line character 0 character.

(** [(startIndex && endIndex) ? line.substring(startIndex + 1, endIndex)
    : none], with [none] being [null] in [provideHover] and the empty
    string in [provideDefinition]. *)
Definition valueBetween (line : jsstring) (bounds : nat * nat)
  : option jsstring :=
  let (startIndex, endIndex) := bounds in
  if (0 <? startIndex) && (0 <? endIndex)
  then Some (Js.substring line (S startIndex) endIndex)
  else None.

(** [value] of [provideHover]: [None] is [null]. *)
Definition hoverValue (line : jsstring) (character : nat)
  : option (option jsstring) :=
  match quoteBounds line character with
  | Some bounds => Some (valueBetween line bounds)
  | None => None
  end.

(** [value] of [provideDefinition]. *)
Definition definitionValue (line : jsstring) (character : nat)
  : option jsstring :=
  match quoteBounds line character with
  | Some bounds => Some (default [] (valueBetween line bounds))
  | None => None
  end.

(** *** provideHover *)

Record Hover : Type := mkHover { contents : jsstring; hoverRange : Range }.

(** What the image branch takes from its host: [path.parse], the
    [RegExp] constructor and the walk over the assets directory. *)
Record Assets : Type := mkAssets {
  (** [path.parse(value)]: its [name] and its [ext]. *)
  parse : jsstring -> jsstring * jsstring;
  (** [new RegExp(source)]: the pattern the source stands for, or
      [None] where the constructor throws a [SyntaxError]. *)
  newRegExp : jsstring -> option regex;
  (** The paths of the files that [walkSync] visits under
      [path.join(utils.getAlloyRootPath(), 'assets')], in its order, or
      [None] where naming that directory or walking it throws (there
      is no such directory, say). *)
  walkSync : option (list jsstring)
}.

(** [`${relativePath.name}.*${relativePath.ext}$`] *)
Definition fileNameSource (assets : Assets) (value : jsstring) : jsstring :=
  let (name, ext) := parse assets value in
  name ++ str ".*" ++ ext ++ str "$".

(** [imageString], from the first file under the assets directory whose
    path matches [fileNameRegExp]. *)
Definition imageString (assets : Assets) (value : jsstring)
  : outcome jsstring :=
  match newRegExp assets (fileNameSource assets value) with
  | None => Throws
  | Some fileNameRegExp =>
      match walkSync assets with
      | None => Throws
      | Some paths =>
          match List.filter (testLit (literal fileNameRegExp)) paths with
          | imageFile :: _ =>
              Returns (str "![" ++ imageFile ++ str "](" ++ imageFile
                       ++ str "|height=100)")
          | [] => Returns (str "Image not found")
          end
      end
  end.

(** The provider: a hover for the quoted value under the cursor when
    the text before the cursor ends in an image attribute; what the
    image branch throws, the provider throws. *)
Definition provideHover (assets : Assets)
  (document : TextDocument) (position : Position) : outcome (option Hover) :=
  let line := lineAt document position in
  let linePrefix := linePrefixAt document (Vs.line position) (character position) in
  match quoteBounds line (character position) with
  | None => Hangs
  | Some (startIndex, endIndex) =>
      match valueBetween line (startIndex, endIndex) with
      | None | Some [] => Returns None
      | Some value =>
          if testLit reImage linePrefix then
            match imageString assets value with
            | Returns imageString =>
                Returns (Some (mkHover imageString
                                 (newRange (Vs.line position) (S startIndex)
                                           (Vs.line position) endIndex)))
            | Throws => Throws
            | Hangs => Hangs
            end
          else Returns None
      end
  end.

(** *** getReferences *)

(** [workspace.openTextDocument(file)]: rejected for a file that cannot
    be opened. *)
Definition openTextDocument (files : gmap jsstring TextDocument)
  (file : jsstring) : outcome TextDocument :=
  match files !! file with
  | Some document => Returns document
  | None => Throws
  end.

(** [files] is an array or one string. *)
Inductive Files : Type :=
| OneFile (file : jsstring)
| ManyFiles (files : list jsstring).

Definition asArray (files : Files) : list jsstring :=
  match files with
  | OneFile file => [file]
  | ManyFiles l => l
  end.

(** The body of the [for] over the files: [definitions] and the state of
    [regExp] pass from one file to the next. *)
Fixpoint referencesLoop {T : Type} (opened : gmap jsstring TextDocument)
  (files : list jsstring) (regExp : RegExp)
  (callback : jsstring -> Range -> T) (definitions : list T)
  : list T * RegExp :=
  match files with
  | [] => (definitions, regExp)
  | file :: rest =>
      match openTextDocument opened file with
      | Returns document =>
          if 0 <? length document then
            match exec regExp document with
            | (None, regExp') =>
                referencesLoop opened rest regExp' callback definitions
            | (Some matches, regExp') =>
                let position := positionAt document (index matches) in
                let found :=
                  map (fun _ => callback file
                                  (newRange (line position) (character position)
                                            (line position) 0))
                      (elements matches) in
                referencesLoop opened rest regExp' callback (definitions ++ found)
            end
          else referencesLoop opened rest regExp callback definitions
      | _ => referencesLoop opened rest regExp callback definitions
      end
  end.

Definition getReferences {T : Type} (opened : gmap jsstring TextDocument)
  (files : Files) (regExp : RegExp) (callback : jsstring -> Range -> T)
  : outcome (list T) :=
  Returns (fst (referencesLoop opened (asArray files) regExp callback [])).

(** *** provideDefinition *)

(** A definition suggestion, as the helper uses it (its declaration is
    in the providers' common module).  Its two functions are the
    suggestion's own code: they may throw, as those of [i18nSuggestions]
    do, and need not return. *)
Record DefinitionSuggestion : Type := mkSuggestion {
  regExp : RegExp;
  definitionRegExp : option (jsstring -> outcome RegExp);
  files : TextDocument -> option jsstring -> jsstring -> outcome (list jsstring)
}.

Record Location : Type := mkLocation { uri : jsstring; range : Range }.

Record DefinitionLink : Type := mkLink {
  originSelectionRange : Range;
  targetRange : Range;
  targetUri : jsstring
}.

Inductive Definitions : Type :=
| Locations (l : list Location)
| Links (l : list DefinitionLink).

(** [word || value] *)
Definition orElse (word : option jsstring) (value : jsstring) : jsstring :=
  match word with
  | Some (c :: w) => c :: w
  | _ => value
  end.

(** The [for] over the suggestions; a suggestion's pattern is tested as
    it stands.  What a suggestion's function throws is thrown by the
    provider. *)
Fixpoint suggestionLoop (opened : gmap jsstring TextDocument)
  (suggestions : list DefinitionSuggestion) (document : TextDocument)
  (position : Position) (linePrefix : jsstring) (word : option jsstring)
  (value : jsstring) (startIndex endIndex : nat)
  (results : list DefinitionLink) : outcome Definitions :=
  match suggestions with
  | [] => Returns (Links results)
  | suggestion :: rest =>
      if fst (test (regExp suggestion) linePrefix) then
        match definitionRegExp suggestion with
        | Some mkPattern =>
            match files suggestion document word value with
            | Returns suggestionFiles =>
                match mkPattern (orElse word value) with
                | Returns definitionRegExp =>
                    match getReferences opened (ManyFiles suggestionFiles)
                            definitionRegExp mkLocation with
                    | Returns l => Returns (Locations l)
                    | Throws => Throws
                    | Hangs => Hangs
                    end
                | Throws => Throws
                | Hangs => Hangs
                end
            | Throws => Throws
            | Hangs => Hangs
            end
        | None =>
            match files suggestion document word value with
            | Returns files =>
                let links :=
                  map (fun file =>
                         mkLink (newRange (line position) startIndex
                                          (line position) endIndex)
                                (newRange 0 0 0 0) file)
                      files in
                suggestionLoop opened rest document position linePrefix word
                  value startIndex endIndex (results ++ links)
            | Throws => Throws
            | Hangs => Hangs
            end
        end
      else
        suggestionLoop opened rest document position linePrefix word value
          startIndex endIndex results
  end.

(** [word] is the text of [document.getWordRangeAtPosition(position)],
    if there is one. *)
Definition provideDefinition (opened : gmap jsstring TextDocument)
  (word : option jsstring) (document : TextDocument) (position : Position)
  (suggestions : list DefinitionSuggestion) : outcome Definitions :=
  let line := lineAt document position in
  let linePrefix := linePrefixAt document (Vs.line position) (character position) in
  match quoteBounds line (character position) with
  | None => Hangs
  | Some (startIndex, endIndex) =>
      let value := default [] (valueBetween line (startIndex, endIndex)) in
      suggestionLoop opened suggestions document position linePrefix word value
        startIndex endIndex []
  end.

(** *** insertI18nString *)

(** What the function reads and writes: the project settings, the
    directories and the files with their text. *)
Record World : Type := mkWorld {
  (** [utils.getI18nPath()] *)
  i18nPath : option jsstring;
  (** [ExtensionContainer.config.project.defaultI18nLanguage] *)
  defaultI18nLanguage : jsstring;
  directories : gset jsstring;
  texts : gmap jsstring jsstring
}.

(** [path.join(a, b)] on segments that are empty or in normal form (no
    [.] or [..] in them, no doubled or trailing separator): an empty
    segment is passed over. *)
Definition join (a b : jsstring) : jsstring :=
  match a, b with
  | [], _ => b
  | _, [] => a
  | _, _ => a ++ str "/" ++ b
  end.

(** The file [fs.writeFileSync] creates. *)
Definition skeleton : jsstring :=
  qstr "<?xml version=`1.0` encoding=`UTF-8`?>" ++ [ascii_of_nat 10]
  ++ str "<resources>" ++ [ascii_of_nat 10] ++ str "</resources>".

(** The element to insert: a tab, the tag, a line feed. *)
Definition stringElement (text : jsstring) : jsstring :=
  [ascii_of_nat 9] ++ qstr "<string name=`" ++ text ++ qstr "`></string>"
  ++ [ascii_of_nat 10].

(** The offset of a position of the editor in the text. *)
Fixpoint offsetAt (s : jsstring) (l c : nat) : nat :=
  match s with
  | [] => 0
  | x :: s' =>
      match l with
      | S l' =>
          S (offsetAt s' (if Ascii.eqb x (ascii_of_nat 10) then l' else l) c)
      | 0 =>
          match c with
          | 0 => 0
          | S c' =>
              if Ascii.eqb x (ascii_of_nat 10) then 0 else S (offsetAt s' 0 c')
          end
      end
  end.

(** The text of a document after an insertion at a position. *)
Definition insertAtPosition (document : jsstring) (position : Position)
  (text : jsstring) : jsstring :=
  let offset := offsetAt document (line position) (character position) in
  firstn offset document ++ text ++ skipn offset document.

(** [edit.insert(Uri.file(path), position, text)] on a new
    [WorkspaceEdit]. *)
Record WorkspaceEdit : Type := mkEdit {
  editPath : jsstring;
  editPosition : Position;
  editText : jsstring
}.

(** [workspace.applyEdit(edit)]: the insertion is made in the file as
    it is when the edit is applied. *)
Definition applyEdit (W : World) (edit : WorkspaceEdit) : World :=
  match texts W !! editPath edit with
  | Some document =>
      mkWorld (i18nPath W) (defaultI18nLanguage W) (directories W)
        (<[ editPath edit :=
              insertAtPosition document (editPosition edit) (editText edit) ]>
           (texts W))
  | None => W
  end.

(** What [insertI18nString] does before it returns: without an i18n
    path (none, or an empty one) nothing; otherwise it makes sure that
    the file exists and asks for its document.  The path of that
    document is returned with the world: the rest is left to the
    callback. *)
Definition insertI18nString (W : World) (text : jsstring)
  : World * option jsstring :=
  match i18nPath W with
  | Some (c :: p) =>
      let i18n := c :: p in
      let defaultLang := defaultI18nLanguage W in
      let i18nStringPath := join (join i18n defaultLang) (str "strings.xml") in
      match texts W !! i18nStringPath with
      | Some _ => (W, Some i18nStringPath)
      | None =>
          (mkWorld (i18nPath W) (defaultI18nLanguage W)
             ({[ join i18n defaultLang ]} ∪ directories W)
             (<[ i18nStringPath := skeleton ]> (texts W)),
           Some i18nStringPath)
      end
  | _ => (W, None)
  end.

(** The callback given to [openTextDocument(i18nStringPath).then], in
    the world in which the document is opened: the edit it asks for,
    if any.  It is not called for a file that cannot be opened. *)
Definition onOpened (W : World) (i18nStringPath text : jsstring)
  : option WorkspaceEdit :=
  match texts W !! i18nStringPath with
  | None => None
  | Some document =>
      match Js.indexOf document (str "</resources>") with
      | Some index =>
          Some (mkEdit i18nStringPath (positionAt document index)
                       (stringElement text))
      | None => None
      end
  end.

(** The world once a call has settled, when nothing else touches the
    files between the call, its callback and its edit. *)
Definition settled (W : World) (text : jsstring) : World :=
  match insertI18nString W text with
  | (W1, Some i18nStringPath) =>
      match onOpened W1 i18nStringPath text with
      | Some edit => applyEdit W1 edit
      | None => W1
      end
  | (W1, None) => W1
  end.

End Def.

(* ================================================================== *)
(** ** installUpdates (src/src/extension.ts) *)
(* ================================================================== *)
Module Ext.

(** What the loop reads of an update ([UpdateInfo], or [UpdateChoice]
    with its [label]). *)
Record Update : Type := mkUpdate {
  label : option jsstring;
  productName : jsstring;
  latestVersion : jsstring;
  priority : Z
}.

(** What a failed [action] rejects with: a value whose [metadata]
    can be read, with its [errorCode] and [command] if it has any, or
    [undefined] or [null], of which no property can be read. *)
Record Metadata : Type := mkMetadata {
  errorCode : jsstring;
  command : jsstring
}.
Inductive InstallError : Type :=
| mkError (metadata : option Metadata)
| Nullish.

(** [error.metadata]: [None] is the [TypeError] of a read on
    [undefined] or [null]. *)
Definition metadataOf (error : InstallError) : option (option Metadata) :=
  match error with
  | mkError metadata => Some metadata
  | Nullish => None
  end.

(** What the user sees and what is run, in order. *)
Inductive Event : Type :=
| Installing (label : jsstring) (counter total : nat)
| Installed (label : jsstring) (counter total : nat)
| FailedToInstall (label : jsstring) (counter total : nat)
| Increment (total : nat)
| Action (update : Update)
| SudoPrompt (label : jsstring)
| SudoCommand (command : jsstring)
| ErrorMessage (label : jsstring).

(** [updateInfo.sort((curr, prev) => curr.priority - prev.priority)]:
    the host's sort is stable; insertion keeps equal priorities in
    their order. *)
Fixpoint insertSorted (u : Update) (l : list Update) : list Update :=
  match l with
  | [] => [u]
  | v :: l' =>
      if (priority v <=? priority u)%Z then v :: insertSorted u l'
      else u :: v :: l'
  end.

Definition sort (l : list Update) : list Update :=
  fold_left (fun acc u => insertSorted u acc) l [].

(** [(update as UpdateChoice).label || `${productName}: ${latestVersion}`] *)
Definition labelOf (update : Update) : jsstring :=
  match label update with
  | Some (c :: l) => c :: l
  | _ => productName update ++ str ": " ++ latestVersion update
  end.

Section Install.

(** The state the actions work on, and what an action does to it:
    it goes through or throws. *)
Variable S : Type.
Variable action : Update -> S -> option InstallError * S.
(** Whether the user picks "Install with Sudo". *)
Variable picksSudo : Update -> bool.
(** [updates.ProductNames.AppcInstaller] *)
Variable appcInstaller : jsstring.

Definition increment (incrementProgress : bool) (total : nat) : list Event :=
  if incrementProgress then [Increment total] else [].

(** The body of [catch (error)], behind the reports and the read of
    [error.metadata]. *)
Definition afterFailure (update : Update) (metadata : option Metadata)
  : list Event :=
  match metadata with
  | Some m =>
      if bool_decide (productName update = appcInstaller)
         && bool_decide (errorCode m = str "EACCES")
      then SudoPrompt (labelOf update)
             :: (if picksSudo update
                 then [SudoCommand (str "sudo " ++ command m)] else [])
      else []
  | None => [ErrorMessage (labelOf update)]
  end.

(** The [for] over the sorted updates: the events so far, the state
    and [counter], and whether the loop came to its end or was left by
    an exception thrown in the [catch] block. *)
Fixpoint installLoop (updates : list Update) (totalUpdates : nat)
  (incrementProgress : bool) (counter : nat) (s : S) (log : list Event)
  : list Event * S * nat * outcome unit :=
  match updates with
  | [] => (log, s, counter, Returns tt)
  | update :: rest =>
      let l := labelOf update in
      let log := log ++ [Installing l counter totalUpdates; Action update] in
      match action update s with
      | (None, s') =>
          installLoop rest totalUpdates incrementProgress (counter + 1) s'
            (log ++ [Installed l counter totalUpdates]
                 ++ increment incrementProgress totalUpdates)
      | (Some error, s') =>
          let log := log ++ [FailedToInstall l counter totalUpdates]
                         ++ increment incrementProgress totalUpdates in
          match metadataOf error with
          | Some metadata =>
              installLoop rest totalUpdates incrementProgress (counter + 1) s'
                (log ++ afterFailure update metadata)
          | None => (log, s', counter, Throws)
          end
      end
  end.

Definition installUpdates (updateInfo : list Update)
  (incrementProgress : bool) (s : S)
  : list Event * S * nat * outcome unit :=
  let totalUpdates := length updateInfo in
  installLoop (sort updateInfo) totalUpdates incrementProgress 1 s [].

End Install.

End Ext.

(* ================================================================== *)
(** ** The specification's notions *)
(* ================================================================== *)
Module Stated.
Import Re Vs Ctl.

(** *** The ordered sequence of patterns *)

(** The patterns of the rules, each with the arm it stands for. *)
Fixpoint ruleEntries (i : nat) (rules : list Rule) : list (RegExp * Branch) :=
  match rules with
  | [] => []
  | rule :: rest => (regExp rule, RuleBranch i) :: ruleEntries (S i) rest
  end.

(** The nine patterns of the chain, in its order. *)
Definition chain : list (RegExp * Branch) :=
  [ (reId, IdBranch); (reMember, MemberBranch); (reTitanium, TitaniumBranch);
    (reEvent, EventBranch); (reRequire, RequireBranch);
    (reController, ControllerBranch); (reModel, ModelBranch);
    (reWidget, WidgetBranch); (reAlloy, AlloyBranch) ].

(** The whole sequence: the chain, then the rules. *)
Definition sequence (rules : list Rule) : list (RegExp * Branch) :=
  chain ++ ruleEntries 0 rules.

(** A pattern matches the line prefix. *)
Definition matchesNow (linePrefix : jsstring) (e : RegExp * Branch) : bool :=
  fst (test (fst e) linePrefix).

(** The arm of the first pattern of the sequence that matches. *)
Definition firstMatch (rules : list Rule) (linePrefix : jsstring) : Branch :=
  match List.find (matchesNow linePrefix) (sequence rules) with
  | Some e => snd e
  | None => NoBranch
  end.

(** The arm of the chain alone: the rules and the fall-through are one
    case. *)
Definition chainArm (b : Branch) : Branch :=
  match b with
  | RuleBranch _ => NoBranch
  | _ => b
  end.

(** A pattern object without persistent matching state: neither the g
    nor the y flag. *)
Definition stateless (R : RegExp) : Prop :=
  global R = false /\ sticky R = false.

(** Two rule objects with the same pattern and flags, whatever their
    [lastIndex] is. *)
Definition sameRule (r1 r2 : Rule) : Prop :=
  source (regExp r1) = source (regExp r2)
  /\ global (regExp r1) = global (regExp r2)
  /\ ignoreCase (regExp r1) = ignoreCase (regExp r2)
  /\ sticky (regExp r1) = sticky (regExp r2).

(** *** The API path of a line prefix *)

(** The API name and the attribute fragment, if any, as
    [getTitaniumApiCompletions] reads them off the line prefix. *)
Definition apiPath (linePrefix : jsstring) : option (jsstring * option jsstring) :=
  match iosParts (pathParts reTiPath linePrefix) with
  | (Some (c :: name), attribute) =>
      Some (c :: name, if truthy attribute then attribute else None)
  | _ => None
  end.

(** A name matches the typed fragment (any name does when nothing is
    typed) and is not marked deprecated. *)
Definition offered (E : Env) (fragment : option jsstring) (name : jsstring)
  : bool :=
  match fragment with
  | None => true
  | Some typed => utilsMatches E name typed
  end
  && negb (Js.includes name (str "deprecated")).

(** A key starts with the API name and holds no underscore. *)
Definition classKey (apiName key : jsstring) : bool :=
  Js.startsWith apiName key && negb (existsb (Ascii.eqb "_") key).

(** *** The course of an installation *)

(** The steps of the loop that concern one update: it is announced with
    the counter, its action runs, it is reported done or failed with
    the counter. *)
Inductive Step : Type :=
| Begun (counter : nat)
| Ran (update : Ext.Update)
| Ended (counter : nat) (succeeded : bool).

Definition stepOf (e : Ext.Event) : option Step :=
  match e with
  | Ext.Installing _ counter _ => Some (Begun counter)
  | Ext.Action update => Some (Ran update)
  | Ext.Installed _ counter _ => Some (Ended counter true)
  | Ext.FailedToInstall _ counter _ => Some (Ended counter false)
  | _ => None
  end.

Fixpoint steps (log : list Ext.Event) : list Step :=
  match log with
  | [] => []
  | e :: log' =>
      match stepOf e with
      | Some st => st :: steps log'
      | None => steps log'
      end
  end.

(** The updates whose action ran, in the order they ran. *)
Fixpoint attempts (log : list Ext.Event) : list Ext.Update :=
  match log with
  | [] => []
  | Ext.Action update :: log' => update :: attempts log'
  | _ :: log' => attempts log'
  end.

(** How often the progress bar was advanced. *)
Fixpoint increments (log : list Ext.Event) : nat :=
  match log with
  | [] => 0
  | Ext.Increment _ :: log' => S (increments log')
  | _ :: log' => increments log'
  end.

(** One update after the other: the [i]-th is begun, run and ended with
    counter [i] before the next is begun. *)
Fixpoint oneByOne (counter : nat) (order : list Ext.Update)
  (log : list Step) : Prop :=
  match order with
  | [] => log = []
  | update :: rest =>
      exists succeeded log',
        log = Begun counter :: Ran update :: Ended counter succeeded :: log'
        /\ oneByOne (S counter) rest log'
  end.

(** *** The ids of a view *)

(** The end of an id value: the characters up to the next double quote,
    none of them a line terminator, and the text behind that quote. *)
Fixpoint valueEnd (s : jsstring) : option (jsstring * jsstring) :=
  match s with
  | [] => None
  | x :: s' =>
      if Ascii.eqb x dquote then Some ([], s')
      else if isLineTerminator x then None
      else match valueEnd s' with
           | Some (v, rest) => Some (x :: v, rest)
           | None => None
           end
  end.

(** An occurrence of [id=`...`] at the front of [s]: [id=`], one
    character that is not a line terminator, then the fewest characters
    up to a double quote. Its value and the text behind it. *)
Definition idAt (s : jsstring) : option (jsstring * jsstring) :=
  match s with
  | i :: d :: e :: q :: c :: s' =>
      if Ascii.eqb i "i" && Ascii.eqb d "d" && Ascii.eqb e "="
         && Ascii.eqb q dquote && negb (isLineTerminator c)
      then match valueEnd s' with
           | Some (v, rest) => Some (c :: v, rest)
           | None => None
           end
      else None
  | _ => None
  end.

(** The leftmost occurrence in [s]. *)
Fixpoint nextId (s : jsstring) : option (jsstring * jsstring) :=
  match idAt s with
  | Some found => Some found
  | None =>
      match s with
      | [] => None
      | _ :: s' => nextId s'
      end
  end.

(** The values of the occurrences met from left to right, each search
    starting behind the occurrence before; [n] bounds their number. *)
Fixpoint idValuesFrom (n : nat) (s : jsstring) : list jsstring :=
  match n with
  | 0 => []
  | S n' =>
      match nextId s with
      | Some (v, rest) => v :: idValuesFrom n' rest
      | None => []
      end
  end.

Definition idValues (text : jsstring) : list jsstring :=
  idValuesFrom (length text) text.

(** The elements of [l] that are not in [seen], each once, in the order
    of their first occurrence. *)
Fixpoint distinct (seen l : list jsstring) : list jsstring :=
  match l with
  | [] => []
  | x :: l' =>
      if in_dec (list_eq_dec ascii_dec) x seen then distinct seen l'
      else x :: distinct (seen ++ [x]) l'
  end.

(** [v] is the value of an [id=`...`] attribute occurring in the text:
    it stands between [id=`] and the closing double quote, so it holds
    no double quote itself. *)
Definition idAttributeValue (text v : jsstring) : Prop :=
  (exists pre post, text = pre ++ str "id=" ++ [dquote] ++ v ++ [dquote] ++ post)
  /\ ~ In dquote v.

(** *** Quotes around the cursor *)

(** The indices of the quote characters of a text whose first character
    has index [i], in ascending order. *)
Fixpoint quotesFrom (i : nat) (s : jsstring) : list nat :=
  match s with
  | [] => []
  | x :: s' =>
      if isQuote x then i :: quotesFrom (S i) s' else quotesFrom (S i) s'
  end.

Fixpoint lastOf (l : list nat) : option nat :=
  match l with
  | [] => None
  | [x] => Some x
  | _ :: l' => lastOf l'
  end.

(** The last quote whose index is before the cursor column. *)
Definition lastQuoteBefore (line : jsstring) (column : nat) : option nat :=
  lastOf (List.filter (fun i => i <? column) (quotesFrom 0 line)).

(** The first quote whose index is after the cursor column. *)
Definition firstQuoteAfter (line : jsstring) (column : nat) : option nat :=
  head (List.filter (fun i => column <? i) (quotesFrom 0 line)).

(** The text strictly between two indices. *)
Definition between (line : jsstring) (i j : nat) : jsstring :=
  firstn (j - S i) (skipn (S i) line).

(** The value as the claim has it: the text between the pair of quotes
    around the cursor, and no value without such a pair. *)
Definition claimedValue (line : jsstring) (column : nat) : option jsstring :=
  match lastQuoteBefore line column, firstQuoteAfter line column with
  | Some i, Some j => Some (between line i j)
  | _, _ => None
  end.

(** The walk of the loop along the quote indices. *)
Fixpoint walk (quotes : list nat) (column startIndex : nat) : nat * nat :=
  match quotes with
  | [] => (startIndex, column)
  | j :: rest =>
      if j <? column then walk rest column j
      else if column <? j then (startIndex, j)
      else walk rest column startIndex
  end.

(** *** References *)

(** The entries a file is due: one per element of the match array of
    its text, when it opens, is not empty and matches the pattern. *)
Definition entriesOf {T : Type} (opened : gmap jsstring TextDocument)
  (regExp : RegExp) (callback : jsstring -> Range -> T) (file : jsstring)
  : list T :=
  match opened !! file with
  | Some document =>
      if 0 <? length document then
        match fst (exec regExp document) with
        | Some matches =>
            let position := positionAt document (index matches) in
            map (fun _ => callback file
                            (newRange (line position) (character position)
                                      (line position) 0))
                (elements matches)
        | None => []
        end
      else []
  | None => []
  end.

(** *** The strings file *)

(** The text of strings.xml when the insertion starts: what the file
    holds, or the skeleton written for a missing file. *)
Definition startingText (W : Def.World) (path : jsstring) : jsstring :=
  default Def.skeleton (Def.texts W !! path).

(** Ascending priorities. *)
Definition ascending (l : list Ext.Update) : Prop :=
  StronglySorted (fun a b => (Ext.priority a <= Ext.priority b)%Z) l.

End Stated.

(* ================================================================== *)
(** ** Sample projects *)
(* ================================================================== *)
Module Samples.
Import Re Vs Ctl.

Definition lf : jsstring := [ascii_of_nat 10].

(** A small catalog. *)
Definition buttonType : TypeInfo :=
  mkType [str "addEventListener"; str "removeEventListener"; str "deprecatedHide"]
         [str "title"; str "color"]
         [str "click"; str "longpress"].
Definition uiType : TypeInfo :=
  mkType [str "createButton"; str "createWindow"] [str "backgroundColor"] [].

Definition catalog : Completions :=
  mkCompletions
    {[ str "Button" := mkTag (str "Ti.UI.Button") ]}
    [(str "Alloy", mkType [str "createController"] [str "CFG"] [])]
    [(str "Ti.UI", uiType); (str "Ti.UI.Button", buttonType);
     (str "Ti.UI.iOS", mkType [] [] []); (str "Ti.UI._Internal", mkType [] [] [])].

(** A view with one button. *)
Definition viewPath : jsstring := str "app/views/index.xml".
Definition view : TextDocument :=
  str "<Alloy>" ++ lf ++ qstr "  <Button id=`btn` title=`OK`/>" ++ lf
  ++ str "</Alloy>".

(** [utils.matches]: the name holds the fragment. *)
Definition holds (name fragment : jsstring) : bool := Js.includes name fragment.

Definition project (related : option jsstring)
  (opened : gmap jsstring TextDocument) : Env :=
  mkEnv catalog related opened holds (fun _ _ _ => None)
        (fun _ _ _ => Returns []) (Returns []).

Definition env : Env := project (Some viewPath) {[ viewPath := view ]}.

(** A rule for [Alloy.CFG.] keys with a pattern of the chain's kind, and
    the same rule after earlier calls moved its [lastIndex]. *)
Definition cfgPattern : regex :=
  Cat [Lit (str "CFG."); Group 1 (Star true (CharSet idSlashChar)); AssertEnd].
Definition cfgRule : Rule :=
  mkRule (literal cfgPattern) false (literal Empty) (fun _ => Returns []).
Definition cfgRuleUsed : Rule :=
  mkRule (setLastIndex (literal cfgPattern) 7) false (literal Empty)
         (fun _ => Returns []).

(** Two style sheets that both define a class. *)
Definition indexTss : jsstring := str "app/styles/index.tss".
Definition appTss : jsstring := str "app/styles/app.tss".
Definition styles : gmap jsstring TextDocument :=
  {[ indexTss := qstr "`.other`: {}" ++ lf ++ qstr "`.title`: { color: `red` }";
     appTss := qstr "`.title`: {}" ]}.

(** The labels of what a call returned. *)
Definition labelsOf (o : outcome (list CompletionItem)) : list jsstring :=
  match o with
  | Returns l => map label l
  | _ => []
  end.

(** A view whose element has an empty id. *)
Definition emptyIdView : TextDocument := qstr "<View id=`` class=`c`/>".

End Samples.

(* ================================================================== *)
(** ** Dotted API paths *)
(* ================================================================== *)
Module Paths.
Import Re Vs Ctl Stated.

(** A path segment as the path patterns take it: an upper-case letter
    and word characters. *)
Definition upperWord (seg : jsstring) : bool :=
  match seg with
  | c :: w => isUpper c && forallb isWord w
  | [] => false
  end.

(** A segment of a Titanium path: such a word, or [iOS] or [iPad]. *)
Definition tiSegment (seg : jsstring) : bool :=
  upperWord seg || bool_decide (seg = str "iOS") || bool_decide (seg = str "iPad").

(** A typed attribute fragment: a lower-case letter and word characters. *)
Definition lowerWord (frag : jsstring) : bool :=
  match frag with
  | c :: w => isLower c && forallb isWord w
  | [] => false
  end.

(** [root.Seg1.Seg2...] *)
Definition dotted (root : jsstring) (segs : list jsstring) : jsstring :=
  root ++ concat (map (fun seg => "."%char :: seg) segs).

(** The shape the two path patterns share: group 1 holds a literal start
    and segments, each with an optional dot behind it; group 2, repeated,
    holds a lower-case word; then the text ends. [alt] is what a segment
    may be. *)
Definition pathPattern (start : jsstring) (alt : regex) : regex :=
  Cat [Group 1 (Seq (Lit start) (Star true (Seq alt (Opt (Char ".")))));
       Star true (Group 2 (Seq (CharSet isLower) (Star true (CharSet isWord))));
       AssertEnd].

(** The text behind a run does not go on with a character of the run. *)
Definition stopsAt (p : ascii -> bool) (rest : jsstring) : Prop :=
  match rest with
  | [] => True
  | b :: _ => p b = false
  end.

(** The Class completions for the keys under an API name. *)
Definition classesUnder (types : Types) (apiName : jsstring)
  : list CompletionItem :=
  map classItem (List.filter (classKey apiName) (keys types)).

(** The Method and Property completions for the members of the type an
    API name stands for that a fragment leaves. *)
Definition membersOf (E : Env) (types : Types) (apiName : jsstring)
  (fragment : option jsstring) : list CompletionItem :=
  match typeOf types apiName with
  | Some type =>
      map (fun name => item name Method)
          (List.filter (offered E fragment) (functions type))
      ++ map (fun name => item name Property)
             (List.filter (offered E fragment) (properties type))
  | None => []
  end.

End Paths.

(* ================================================================== *)
(** ** Elements of a view *)
(* ================================================================== *)
Module Views.
Import Re Vs Ctl.

(** An [id] attribute with the value [id] stands at the front of [s]:
    [id=], a quote, the value, a quote. *)
Definition idAttrAt (id s : jsstring) : bool :=
  Js.startsWith (str "id=") s
  && match skipn 3 s with
     | q1 :: t =>
         isQuote q1 && Js.startsWith id t
         && match skipn (length id) t with
            | q2 :: _ => isQuote q2
            | [] => false
            end
     | [] => false
     end.

(** A tag name as the tag pattern takes it: a letter, then letters and
    dashes. *)
Definition tagWord (tag : jsstring) : bool :=
  match tag with
  | c :: w => isAlpha c && forallb (fun x => isAlpha x || oneOf "-" x) w
  | [] => false
  end.

(** The text of the current line in front of the end of [front]: what
    follows the last line feed. *)
Definition lineStartOf (front : jsstring) : jsstring :=
  Js.lastPiece (Js.split (ascii_of_nat 10) front).

(** The member completions of a type: its functions, then its
    properties, as snippets. *)
Definition memberSnippets (type : TypeInfo) : list CompletionItem :=
  map methodSnippet (functions type) ++ map propertySnippet (properties type).

End Views.

(* ================================================================== *)
(** ** Looking a definition up *)
(* ================================================================== *)
Module Lookup.
Import Re Vs Def.

(** The suggestions whose pattern matches the text before the cursor. *)
Definition matchingSuggestions (linePrefix : jsstring)
  (suggestions : list DefinitionSuggestion) : list DefinitionSuggestion :=
  List.filter (fun suggestion => fst (test (regExp suggestion) linePrefix))
    suggestions.

Definition hasDefinitionPattern (suggestion : DefinitionSuggestion) : bool :=
  match definitionRegExp suggestion with
  | Some _ => true
  | None => false
  end.

(** The files of a suggestion are listed. *)
Definition listsFiles (document : TextDocument) (word : option jsstring)
  (value : jsstring) (suggestion : DefinitionSuggestion) : bool :=
  match files suggestion document word value with
  | Returns _ => true
  | _ => false
  end.

(** A suggestion that ends the provider's loop: it has a definition
    pattern, or its files are not listed. *)
Definition endsLoop (document : TextDocument) (word : option jsstring)
  (value : jsstring) (suggestion : DefinitionSuggestion) : bool :=
  hasDefinitionPattern suggestion
  || negb (listsFiles document word value suggestion).

(** The links to the files of a suggestion without a definition
    pattern. *)
Definition linksOf (document : TextDocument) (position : Position)
  (word : option jsstring) (value : jsstring) (startIndex endIndex : nat)
  (suggestion : DefinitionSuggestion) : list DefinitionLink :=
  match files suggestion document word value with
  | Returns files =>
      map (fun file =>
             mkLink (newRange (line position) startIndex (line position) endIndex)
                    (newRange 0 0 0 0) file)
          files
  | _ => []
  end.

(** What the provider ends with at a suggestion that ends its loop:
    what listing the files or building the pattern ends with when it is
    no return, and else the locations found in the files, with the
    pattern built for the word under the cursor or else the value. *)
Definition endOf (opened : gmap jsstring TextDocument)
  (document : TextDocument) (word : option jsstring) (value : jsstring)
  (suggestion : DefinitionSuggestion) : outcome Definitions :=
  match files suggestion document word value with
  | Returns suggestionFiles =>
      match definitionRegExp suggestion with
      | Some mkPattern =>
          match mkPattern (orElse word value) with
          | Returns pattern =>
              Returns (Locations
                         (fst (referencesLoop opened suggestionFiles pattern
                                 mkLocation [])))
          | Throws => Throws
          | Hangs => Hangs
          end
      | None => Returns (Links [])
      end
  | Throws => Throws
  | Hangs => Hangs
  end.

(** The suggestion for [L(] of [i18nSuggestions]: its files are the
    default language's [strings.xml] under [utils.getI18nPath()], which
    [path.join] refuses when there is no i18n path, and its pattern is
    built from the text by the [RegExp] constructor, with the g flag. *)
Definition reI18n : RegExp :=
  literal (Cat [CharSet (fun c => oneOf ":=,>)(" c || isSpace c
                                  || Ascii.eqb c dquote);
                Lit (str "L("); CharSet isQuote;
                Star true (CharSet (fun c => isWord c || Ascii.eqb c "-"));
                AssertEnd]).
Definition i18nSuggestion (i18nPath : option jsstring)
  (defaultI18nLanguage : jsstring) (newRegExp : jsstring -> option regex)
  : DefinitionSuggestion :=
  mkSuggestion reI18n
    (Some (fun text =>
             match newRegExp (qstr "name=[`']" ++ text ++ qstr "[`']>(.*)?</") with
             | Some pattern => Returns (literal_g pattern)
             | None => Throws
             end))
    (fun _ _ _ =>
       match i18nPath with
       | Some i18n =>
           Returns [join (join i18n defaultI18nLanguage) (str "strings.xml")]
       | None => Throws
       end).

(** A project with two images.  Of the sources the [RegExp] constructor
    is asked for here, it takes [logo.*.png$] and [missing.*.png$] and
    refuses [a(b.*$], whose group is not closed. *)
Definition nameOf (value : jsstring) : jsstring * jsstring :=
  if Js.includes value (str "logo") then (str "logo", str ".png")
  else if Js.includes value (str "missing") then (str "missing", str ".png")
  else (value, []).
Definition patternOf (source : jsstring) : option regex :=
  if bool_decide (source = str "logo.*.png$")
  then Some (Cat [Lit (str "logo"); Star true Dot; Dot; Lit (str "png");
                  AssertEnd])
  else if bool_decide (source = str "missing.*.png$")
  then Some (Cat [Lit (str "missing"); Star true Dot; Dot; Lit (str "png");
                  AssertEnd])
  else None.
Definition images : Assets :=
  mkAssets nameOf patternOf
    (Some [str "/p/app/assets/icon.png"; str "/p/app/assets/images/logo.png";
           str "/p/app/assets/images/logo@2x.png"]).
(** The same project without its assets directory. *)
Definition noAssets : Assets := mkAssets nameOf patternOf None.

End Lookup.

(* ================================================================== *)
(** ** insert (src/unnamed/part_001) *)
(* ================================================================== *)
Module Ins.
Import Re Vs Def.

(** The lines of a document as the editor counts them: a line ends at
    CR LF, at a lone CR or at a lone LF. [afterCR] says that the
    character before was a CR. *)
Fixpoint eolSplit (afterCR : bool) (s : jsstring) : list jsstring :=
  match s with
  | [] => [[]]
  | x :: s' =>
      if Ascii.eqb x (ascii_of_nat 10) then
        if afterCR then eolSplit false s' else [] :: eolSplit false s'
      else if Ascii.eqb x (ascii_of_nat 13) then [] :: eolSplit true s'
      else match eolSplit false s' with
           | p :: ps => (x :: p) :: ps
           | [] => [[x]]
           end
  end.

(** [document.lineCount] *)
Definition lineCount (d : TextDocument) : nat := length (eolSplit false d).

(** [document.lineAt(n).text] *)
Definition lineText (d : TextDocument) (n : nat) : jsstring :=
  List.nth n (eolSplit false d) [].

(** [s.trim()]: white space and line terminators go from both ends. *)
Fixpoint dropSpaces (s : jsstring) : jsstring :=
  match s with
  | x :: s' => if isSpace x then dropSpaces s' else s
  | [] => []
  end.
Definition trim (s : jsstring) : jsstring :=
  rev (dropSpaces (rev (dropSpaces s))).

(** [insert(text, filePath)]: nothing happens when the document cannot
    be opened; an edit at a position behind the last line lands at the
    end of the document, as [insertAtPosition] has it. *)
Definition insert (W : World) (text filePath : jsstring) : World :=
  match texts W !! filePath with
  | None => W
  | Some document =>
      let position := mkPosition (lineCount document) 0 in
      let text :=
        if 0 <? length (trim (lineText document (line position - 1)))
        then ascii_of_nat 10 :: text else text in
      mkWorld (i18nPath W) (defaultI18nLanguage W) (directories W)
        (<[ filePath := insertAtPosition document position text ]> (texts W))
  end.

(** The last line of a document. *)
Definition lastLine (d : TextDocument) : jsstring :=
  List.last (eolSplit false d) [].

(** The number of line feeds of a text. *)
Definition lineFeeds (s : jsstring) : nat :=
  length (List.filter (Ascii.eqb (ascii_of_nat 10)) s).

End Ins.

(* ================================================================== *)
(** ** The end of a debug session (src/src/extension.ts) *)
(* ================================================================== *)
Module Session.
Import Re.

(** What the handler reads of the arguments of an [END] request; [port]
    is the number as the template string renders it. *)
Record EndArgs : Type := mkEndArgs {
  platform : jsstring;
  target : jsstring;
  port : jsstring;
  deviceId : option jsstring
}.

(** What the handler does to the terminal. *)
Inductive Effect : Type :=
| StopTerminal
| RunInBackground (command : jsstring) (args : list jsstring).

(** [/emulator-\d+/] *)
Definition reEmulator : RegExp :=
  literal (Cat [Lit (str "emulator-"); Plus true (CharSet isDigit)]).

(** [for (const line of stdout.split('\n'))]: the first line that holds
    the port and an emulator id sets [deviceId] and ends the loop. *)
Fixpoint emulatorLoop (lines : list jsstring) (tcpPort : jsstring)
  (deviceId : option jsstring) : option jsstring :=
  match lines with
  | [] => deviceId
  | line :: rest =>
      if negb (Js.includes line tcpPort) then emulatorLoop rest tcpPort deviceId
      else
        match matchOf reEmulator line with
        | Some emulatorId => Some (matched emulatorId)
        | None => emulatorLoop rest tcpPort deviceId
        end
  end.

(** A value that passes [if (x)]. *)
Definition given (x : option jsstring) : bool :=
  match x with
  | Some (_ :: _) => true
  | _ => false
  end.

(** The [END] branch of the handler of custom debug events. [adbPath]
    is [appc.getAdbPath()]; [forwardList] is the output of
    [adb forward --list], if the command goes through. What was done to
    the terminal, and whether the handler came to its end. *)
Definition onEnd (adbPath : option jsstring) (forwardList : option jsstring)
  (providedArgs : EndArgs) : list Effect * outcome unit :=
  if negb (bool_decide (platform providedArgs = str "android"))
  then ([StopTerminal], Returns tt)
  else if negb (given adbPath) then ([StopTerminal], Returns tt)
  else
    let adb := default [] adbPath in
    let tcpPort := str "tcp:" ++ port providedArgs in
    let listing := RunInBackground adb [str "forward"; str "--list"] in
    let remove (deviceId : option jsstring) : list Effect :=
      if given deviceId
      then [RunInBackground adb [str "-s"; default [] deviceId; str "forward";
                                  str "--remove"; tcpPort]]
      else [] in
    if bool_decide (target providedArgs = str "emulator") then
      match forwardList with
      | Some stdout =>
          let deviceId :=
            emulatorLoop (Js.split (ascii_of_nat 10) stdout) tcpPort
              (deviceId providedArgs) in
          (StopTerminal :: listing :: remove deviceId, Returns tt)
      | None => ([StopTerminal; listing], Throws)
      end
    else (StopTerminal :: remove (deviceId providedArgs), Returns tt).

End Session.

(* ================================================================== *)
(** ** The start of a debug session (src/src/extension.ts) *)
(* ================================================================== *)
Module Build.
Import Re.

(** What the build process does, in the order it does it: it writes to
    its output or its error stream, or it exits with a code ([null]
    when a signal ended it). *)
Inductive ProcessEvent : Type :=
| Stdout (data : jsstring)
| Stderr (data : jsstring)
| Exit (code : option Z).

(** The [Response] to a request; [requestId] is its [id]. *)
Record Result : Type := mkResult {
  isError : bool;
  message : option jsstring
}.
Record Response : Type := mkResponse {
  requestId : jsstring;
  result : Result
}.

(** What the handler does. *)
Inductive Effect : Type :=
| CustomRequest (response : Response)
| ShowErrorMessage (message : jsstring)
| ShowOutput.

(** [/Start (application|simulator) log/] *)
Definition reStartLog : RegExp :=
  literal (Cat [Lit (str "Start ");
                Alt (Lit (str "application")) (Lit (str "simulator"));
                Lit (str " log")]).

(** [/To connect Chrome DevTools/] *)
Definition reDevTools : RegExp :=
  literal (Lit (str "To connect Chrome DevTools")).

Definition failureMessage : jsstring :=
  str "Failed to start debug sessions, please see the output for more information".

(** [if (code)] *)
Definition failed (code : option Z) : bool :=
  match code with
  | Some z => negb (z =? 0)%Z
  | None => false
  end.

(** One event reaches its listener. The three listeners share the
    [response] object, so what [exit] writes into it is what a later
    [data] listener sends. *)
Definition listen (platform : jsstring) (response : Response)
  (e : ProcessEvent) : list Effect * Response :=
  match e with
  | Stdout data =>
      (if bool_decide (platform = str "ios") && testLit reStartLog data
       then [CustomRequest response] else [],
       response)
  | Stderr data =>
      (if bool_decide (platform = str "android") && testLit reDevTools data
       then [CustomRequest response] else [],
       response)
  | Exit code =>
      if failed code then
        let response' :=
          mkResponse (requestId response)
            (mkResult true (Some failureMessage)) in
        ([ShowErrorMessage failureMessage; ShowOutput; CustomRequest response'],
         response')
      else ([], response)
  end.

Fixpoint listenAll (platform : jsstring) (response : Response)
  (events : list ProcessEvent) : list Effect :=
  match events with
  | [] => []
  | e :: rest =>
      let (done, response') := listen platform response e in
      done ++ listenAll platform response' rest
  end.

(** The [BUILD] branch of the handler of custom debug events: [build]
    is what [runCommandInOutput] gives, a process with its events, or
    nothing. *)
Definition onBuild (platform request : jsstring)
  (build : option (list ProcessEvent)) : list Effect :=
  match build with
  | None => []
  | Some events =>
      listenAll platform (mkResponse request (mkResult false None)) events
  end.

(** The responses among the effects. *)
Definition responses (effects : list Effect) : list Response :=
  flat_map (fun e => match e with
                     | CustomRequest r => [r]
                     | _ => []
                     end) effects.

(** An event that is answered: the line the platform's build announces
    its log or its debugger with, alone in one piece of output, or a
    failed exit. *)
Definition answered (platform : jsstring) (e : ProcessEvent) : bool :=
  match e with
  | Stdout data =>
      bool_decide (platform = str "ios")
      && (Js.includes data (str "Start application log")
          || Js.includes data (str "Start simulator log"))
  | Stderr data =>
      bool_decide (platform = str "android")
      && Js.includes data (str "To connect Chrome DevTools")
  | Exit code => failed code
  end.

Definition failedExit (e : ProcessEvent) : bool :=
  match e with
  | Exit code => failed code
  | _ => false
  end.

End Build.

(* ================================================================== *)
(** ** The install commands (src/src/extension.ts) *)
(* ================================================================== *)
From Stdlib Require DecimalString.

Module Cmd.

(** [`${n}`] for an array length. *)
Definition decimal (n : nat) : jsstring :=
  str (DecimalString.NilEmpty.string_of_uint (Nat.to_uint n)).

(** What a command does, as far as the user and the explorers see it:
    the progress reports of [installUpdates], the [HasUpdates] flag
    (written to the global state and to the context), the refreshes and
    the closing message. *)
Inductive Step : Type :=
| Progress (event : Ext.Event)
| SetHasUpdates (value : bool)
| RefreshUpdates
| RefreshExplorer
| InformationMessage (message : jsstring).

(** [`Installed ${totalUpdates} ${totalUpdates > 1 ? 'updates' : 'update'}`] *)
Definition installedMessage (totalUpdates : nat) : jsstring :=
  str "Installed " ++ decimal totalUpdates ++ str " "
  ++ (if 1 <? totalUpdates then str "updates" else str "update").

Section Commands.
Variable S : Type.
Variable action : Ext.Update -> S -> option Ext.InstallError * S.
Variable picksSudo : Ext.Update -> bool.
Variable appcInstaller : jsstring.

(** The command [InstallAllUpdates]: [explorerUpdates] is
    [updateExplorer.updates], taken when no list comes with the
    command.  The outcome is that of the task given to
    [withProgress]: what stands behind [await installUpdates(..)] is
    run only when [installUpdates] came to its end. *)
Definition installAllUpdates (updateInfo : option (list Ext.Update))
  (explorerUpdates : list Ext.Update) (s : S)
  : list Step * S * outcome unit :=
  let updateInfo := default explorerUpdates updateInfo in
  let totalUpdates := length updateInfo in
  let '(log, s', _, result) :=
    Ext.installUpdates S action picksSudo appcInstaller updateInfo true s in
  match result with
  | Returns _ =>
      (map Progress log
       ++ [SetHasUpdates false; RefreshUpdates; RefreshExplorer;
           InformationMessage (installedMessage totalUpdates)],
       s', Returns tt)
  | _ => (map Progress log, s', Throws)
  end.

End Commands.

(** The reports that an update was installed, and those that it was
    not. *)
Definition installedReports (steps : list Step) : nat :=
  length (List.filter (fun st => match st with
                                 | Progress (Ext.Installed _ _ _) => true
                                 | _ => false
                                 end) steps).
Definition failedReports (steps : list Step) : nat :=
  length (List.filter (fun st => match st with
                                 | Progress (Ext.FailedToInstall _ _ _) => true
                                 | _ => false
                                 end) steps).

End Cmd.

(* ================================================================== *)
(** ** What the actions of the updates do (src/src/extension.ts) *)
(* ================================================================== *)
Module Runs.

(** The state after the actions of the updates, one after the other. *)
Definition runAll {S : Type}
  (action : Ext.Update -> S -> option Ext.InstallError * S)
  (updates : list Ext.Update) (s : S) : S :=
  fold_left (fun s update => snd (action update s)) updates s.

(** None of the actions rejects with [undefined] or [null]. *)
Definition rejectsWithValues {S : Type}
  (action : Ext.Update -> S -> option Ext.InstallError * S)
  (updates : list Ext.Update) : Prop :=
  forall update s,
    In update updates -> fst (action update s) <> Some Ext.Nullish.

(** Two updates, given with the later one first.  The state is the
    list of the products whose action was called; the action of the
    installer ends in [Promise.reject()], as the checks of [init] in
    the same file do. *)
Definition installer : Ext.Update :=
  Ext.mkUpdate None (str "installer") (str "1.0") 1.
Definition sdk : Ext.Update :=
  Ext.mkUpdate None (str "sdk") (str "2.0") 2.
Definition called (update : Ext.Update) (s : list jsstring)
  : option Ext.InstallError * list jsstring :=
  (if bool_decide (Ext.productName update = str "installer")
   then Some Ext.Nullish else None,
   s ++ [Ext.productName update]).

(** The same, with an [Error] object in the rejection. *)
Definition calledWithError (update : Ext.Update) (s : list jsstring)
  : option Ext.InstallError * list jsstring :=
  (if bool_decide (Ext.productName update = str "installer")
   then Some (Ext.mkError None) else None,
   s ++ [Ext.productName update]).

End Runs.

(* ================================================================== *)
(** ** What is offered behind an API path (src/unnamed/part_002) *)
(* ================================================================== *)
Module Offer.
Import Re Vs Ctl Stated.

(** The completions for an API name and a typed fragment: (a) with no
    fragment, a Class completion per key of the catalog that starts
    with the API name and holds no underscore; then (b) when the API
    name is a type of the catalog, a Method completion per function and
    a Property completion per property of the type whose name matches
    the fragment and does not contain [deprecated]; all in the
    catalog's order. *)
Definition completionsFor (E : Env) (apiName : jsstring)
  (fragment : option jsstring) : list CompletionItem :=
  let types := titaniumTypes (completions E) in
  (match fragment with
   | None => map classItem (List.filter (classKey apiName) (keys types))
   | Some _ => []
   end)
  ++ (match typeOf types apiName with
      | Some type =>
          map (fun name => item name Method)
              (List.filter (offered E fragment) (functions type))
          ++ map (fun name => item name Property)
                 (List.filter (offered E fragment) (properties type))
      | None => []
      end).

(** A fragment that [iOS] or [iPad] begins with: [i], [iO], [iOS],
    [iP], [iPa] or [iPad]. *)
Definition beginsPlatform (frag : jsstring) : bool :=
  match frag with
  | [] => false
  | _ => Js.startsWith frag (str "iOS") || Js.startsWith frag (str "iPad")
  end.

(** The typed fragment, if any. *)
Definition typed (frag : jsstring) : option jsstring :=
  match frag with
  | [] => None
  | _ => Some frag
  end.

End Offer.

(* ================================================================== *)
(** * Properties *)
(* ================================================================== *)

(** ** Regular expression objects *)
Module ReFacts.
Import Re.

(** A pattern without the g and y flags is left as it was by [exec]. *)
Lemma exec_stateless_same R input :
  global R = false -> sticky R = false -> snd (exec R input) = R.
Proof.
  intros Hg Hy. unfold exec. rewrite Hg, Hy. simpl.
  destruct (search _ _ _ _) as [[[i from] [rest caps]]|]; reflexivity.
Qed.

(** ... and its answer does not depend on [lastIndex]. *)
Lemma exec_stateless_lastIndex R1 R2 input :
  source R1 = source R2 -> ignoreCase R1 = ignoreCase R2 ->
  global R1 = false -> sticky R1 = false ->
  global R2 = false -> sticky R2 = false ->
  fst (exec R1 input) = fst (exec R2 input).
Proof.
  intros Hs Hi Hg1 Hy1 Hg2 Hy2. unfold exec.
  rewrite Hg1, Hy1, Hg2, Hy2, Hs, Hi. simpl.
  destruct (search _ _ _ _) as [[[i from] [rest caps]]|]; reflexivity.
Qed.

Lemma test_fst R input :
  fst (test R input) = match fst (exec R input) with Some _ => true | None => false end.
Proof. unfold test. destruct (exec R input) as [[m|] R']; reflexivity. Qed.

End ReFacts.

(** ** The completion cascade *)
Module CascadeFacts.
Import Re Vs Ctl Stated.

Section Loop.
Context {A : Type} (arm : nat -> Rule -> A) (linePrefix : jsstring).

(** The loop over the rules answers with the first rule whose pattern
    matches. *)
Lemma ruleLoop_find rules : forall i,
  match List.find (matchesNow linePrefix) (ruleEntries i rules) with
  | Some e =>
      exists j rule, snd e = RuleBranch (i + j)
        /\ nth_error rules j = Some rule
        /\ fst (ruleLoop arm i rules linePrefix) = Some (arm (i + j) rule)
  | None => fst (ruleLoop arm i rules linePrefix) = None
  end.
Proof.
  induction rules as [|rule rest IH]; intros i; simpl.
  - reflexivity.
  - unfold matchesNow at 1. simpl.
    destruct (test (regExp rule) linePrefix) as [hit R'] eqn:Ht. simpl.
    destruct hit.
    + exists 0, rule. rewrite Nat.add_0_r. auto.
    + specialize (IH (S i)).
      destruct (List.find _ _) as [e|].
      * destruct IH as (j & r & He & Hn & Hr).
        exists (S j), r. rewrite <- Nat.add_succ_comm. split; [exact He|].
        split; [exact Hn|].
        destruct (ruleLoop arm (S i) rest linePrefix); simpl in *; exact Hr.
      * destruct (ruleLoop arm (S i) rest linePrefix); simpl in *; exact IH.
Qed.

(** A rule that comes after a matching one is not touched. *)
Lemma ruleLoop_later_untouched rules : forall i n m rule hit,
  nth_error rules n = Some rule ->
  m < n -> nth_error rules m = Some hit ->
  fst (test (regExp hit) linePrefix) = true ->
  nth_error (snd (ruleLoop arm i rules linePrefix)) n = Some rule.
Proof.
  induction rules as [|r rest IH]; intros i n m rule hit Hn Hm Hh Ht.
  - destruct n; discriminate.
  - simpl. destruct (test (regExp r) linePrefix) as [b R'] eqn:Hr.
    destruct n as [|n]; [lia|]. simpl in Hn.
    destruct b.
    + simpl. exact Hn.
    + destruct m as [|m].
      * simpl in Hh. injection Hh as ->. rewrite Hr in Ht. discriminate.
      * simpl in Hh.
        specialize (IH (S i) n m rule hit Hn ltac:(lia) Hh Ht).
        destruct (ruleLoop arm (S i) rest linePrefix). simpl in *. exact IH.
  Qed.

(** The entries of the rules are the rules, in order. *)
Lemma ruleEntries_nth rules : forall i n e,
  nth_error (ruleEntries i rules) n = Some e ->
  exists rule, nth_error rules n = Some rule /\ fst e = regExp rule.
Proof.
  induction rules as [|r rest IH]; intros i n e H.
  - destruct n; discriminate.
  - destruct n as [|n]; simpl in H.
    + injection H as <-. exists r. auto.
    + apply (IH (S i)). exact H.
Qed.

End Loop.

(** The chain, arm by arm: it answers with the arm of the first pattern
    of the sequence that matches, and hands the rules back untouched
    when that pattern is one of its own. *)
(** Case analysis along the chain: at each test that succeeds [tac]
    closes the goal, the rest goes on with the test failed. *)
Ltac chain_cases tac :=
  repeat match goal with
         | |- context [if testLit ?R ?lp then _ else _] =>
             destruct (testLit R lp) eqn:?; [tac|]
         end.

Lemma cascade_first_match {A : Type} (arms : Branches A) rules linePrefix :
  fst (cascade arms rules linePrefix)
  = handlerOf arms rules (firstMatch rules linePrefix).
Proof.
  unfold cascade, firstMatch, sequence, chain.
  cbn [app List.find].
  repeat match goal with
         | |- context [matchesNow linePrefix (?R, ?b)] =>
             change (matchesNow linePrefix (R, b)) with (testLit R linePrefix)
         end.
  chain_cases ltac:(reflexivity).
  pose proof (ruleLoop_find (onRule arms) linePrefix rules 0) as H.
  destruct (List.find (matchesNow linePrefix) (ruleEntries 0 rules)) as [e|].
  - destruct H as (j & rule & He & Hn & Hr). simpl in He, Hr.
    destruct (ruleLoop (onRule arms) 0 rules linePrefix) as [[a|] rs];
      simpl in Hr; [|discriminate].
    injection Hr as ->. rewrite He. simpl. rewrite Hn. reflexivity.
  - destruct (ruleLoop (onRule arms) 0 rules linePrefix) as [[a|] rs];
      simpl in H; [discriminate|]. reflexivity.
Qed.

(** Once a pattern of the sequence matched, the rules that follow it
    come back as they went in. *)
Lemma cascade_later_untouched {A : Type} (arms : Branches A) rules linePrefix
  i rule :
  nth_error rules i = Some rule ->
  (exists j e, j < 9 + i /\ nth_error (sequence rules) j = Some e
               /\ matchesNow linePrefix e = true) ->
  nth_error (snd (cascade arms rules linePrefix)) i = Some rule.
Proof.
  intros Hi (j & e & Hj & He & Hm). unfold cascade.
  chain_cases ltac:(exact Hi).
  unfold sequence in He.
  do 9 (destruct j as [|j];
        [ simpl in He; injection He as <-;
          unfold matchesNow in Hm; simpl in Hm; unfold testLit in *; congruence
        | ]).
  simpl in He.
  destruct (ruleEntries_nth rules 0 j e He) as (hit & Hh & Hf).
  unfold matchesNow in Hm. rewrite Hf in Hm.
  pose proof (ruleLoop_later_untouched (onRule arms) linePrefix rules 0 i j
                rule hit Hi ltac:(lia) Hh Hm) as H.
  destruct (ruleLoop (onRule arms) 0 rules linePrefix) as [[a|] rs]; exact H.
Qed.


(** No pattern of the sequence matches: the chain falls through. *)
Lemma firstMatch_none rules linePrefix :
  Forall (fun e => matchesNow linePrefix e = false) (sequence rules) ->
  firstMatch rules linePrefix = NoBranch.
Proof.
  intros H. unfold firstMatch.
  destruct (List.find _ _) as [e|] eqn:Hf; [|reflexivity].
  apply find_some in Hf as [Hin Hm].
  rewrite Forall_forall in H. specialize (H e).
  rewrite H in Hm; [discriminate|exact Hin].
Qed.


(** The arm of a rule is not an arm of the chain. *)
Lemma ruleLoop_names rules linePrefix : forall i,
  match fst (ruleLoop (onRule branchNames) i rules linePrefix) with
  | Some b => chainArm b = NoBranch
  | None => True
  end.
Proof.
  induction rules as [|rule rest IH]; intros i; cbn [ruleLoop fst]; [exact I|].
  destruct (test (regExp rule) linePrefix) as [[] R']; cbn [fst];
    [reflexivity|].
  specialize (IH (S i)).
  destruct (ruleLoop (onRule branchNames) (S i) rest linePrefix); exact IH.
Qed.

(** The arm of the chain is read off the line prefix alone. *)
Lemma chainArm_cascade rules1 rules2 linePrefix :
  chainArm (fst (cascade branchNames rules1 linePrefix))
  = chainArm (fst (cascade branchNames rules2 linePrefix)).
Proof.
  unfold cascade.
  chain_cases ltac:(reflexivity).
  pose proof (ruleLoop_names rules1 linePrefix 0) as H1.
  pose proof (ruleLoop_names rules2 linePrefix 0) as H2.
  destruct (ruleLoop (onRule branchNames) 0 rules1 linePrefix) as [[a|] r1];
  destruct (ruleLoop (onRule branchNames) 0 rules2 linePrefix) as [[b|] r2];
    simpl in *; congruence.
Qed.

(** Rules without persistent matching state answer the same whatever
    earlier calls left in their [lastIndex]. *)
Lemma ruleLoop_stateless rules1 rules2 linePrefix :
  Forall2 sameRule rules1 rules2 ->
  Forall (fun rule => stateless (regExp rule)) rules1 ->
  forall i,
    fst (ruleLoop (onRule branchNames) i rules1 linePrefix)
    = fst (ruleLoop (onRule branchNames) i rules2 linePrefix).
Proof.
  induction 1 as [|r1 r2 l1 l2 Hsame Hrest IH]; intros Hs i; [reflexivity|].
  inversion Hs as [|? ? [Hg Hy] Hs']; subst.
  destruct Hsame as (Hsrc & Hg' & Hic & Hy').
  assert (Ht : fst (test (regExp r1) linePrefix)
               = fst (test (regExp r2) linePrefix)).
  { rewrite !ReFacts.test_fst.
    rewrite (ReFacts.exec_stateless_lastIndex (regExp r1) (regExp r2));
      congruence. }
  cbn [ruleLoop].
  destruct (test (regExp r1) linePrefix) as [b1 R1].
  destruct (test (regExp r2) linePrefix) as [b2 R2].
  simpl in Ht. subst b2. destruct b1; [reflexivity|].
  specialize (IH Hs' (S i)).
  destruct (ruleLoop (onRule branchNames) (S i) l1 linePrefix).
  destruct (ruleLoop (onRule branchNames) (S i) l2 linePrefix).
  exact IH.
Qed.

(** C7. The classification step of [provideCompletionItems] is a function
    of the line prefix: for two invocations in which the text before the
    cursor on the cursor's line is equal, the same arm of the chain is
    selected, whatever else the documents hold and whatever state
    earlier invocations left in the rule objects; and when the rules'
    patterns, like those of the chain, carry no persistent matching
    state, the same rule is selected as well. *)
Theorem classification_depends_on_line_prefix_only
  (rules1 rules2 : list Rule) (document1 document2 : TextDocument)
  (position1 position2 : Position) :
  firstn (character position1) (List.nth (line position1) (lines document1) [])
  = firstn (character position2) (List.nth (line position2) (lines document2) []) ->
  chainArm (classify rules1 document1 position1)
  = chainArm (classify rules2 document2 position2)
  /\ (Forall2 sameRule rules1 rules2 ->
      Forall (fun rule => stateless (regExp rule)) rules1 ->
      classify rules1 document1 position1 = classify rules2 document2 position2).
Proof.
  intros Heq. unfold classify, linePrefixOf, linePrefixAt. rewrite Heq.
  set (linePrefix := firstn _ _). split.
  - apply chainArm_cascade.
  - intros Hsame Hs. unfold cascade.
    chain_cases ltac:(reflexivity).
    pose proof (ruleLoop_stateless rules1 rules2 linePrefix Hsame Hs 0) as H.
    destruct (ruleLoop (onRule branchNames) 0 rules1 linePrefix) as [[a|] r1];
    destruct (ruleLoop (onRule branchNames) 0 rules2 linePrefix) as [[b|] r2];
      simpl in *; congruence.
Qed.



Lemma classification_depends_on_line_prefix_only_witness :
  let document1 := str "x = CFG.a" in
  let document2 := str "// keys" ++ Samples.lf ++ str "x = CFG.ab" in
  firstn 9 (List.nth 0 (lines document1) [])
  = firstn 9 (List.nth 1 (lines document2) [])
  /\ classify [Samples.cfgRule] document1 (mkPosition 0 9)
     = classify [Samples.cfgRuleUsed] document2 (mkPosition 1 9).
Proof.
  cbv zeta.
  assert (H : firstn 9 (List.nth 0 (lines (str "x = CFG.a")) [])
              = firstn 9 (List.nth 1
                  (lines (str "// keys" ++ Samples.lf ++ str "x = CFG.ab")) []))
    by (vm_compute; reflexivity).
  split; [exact H|].
  refine (proj2 (classification_depends_on_line_prefix_only
                   [Samples.cfgRule] [Samples.cfgRuleUsed]
                   (str "x = CFG.a")
                   (str "// keys" ++ Samples.lf ++ str "x = CFG.ab")
                   (mkPosition 0 9) (mkPosition 1 9) H) _ _).
  - repeat constructor.
  - repeat constructor.
Defined.

End CascadeFacts.

(** ** Host strings *)
Module JsFacts.
Import Js.

Lemma startsWith_prefix p : forall s,
  startsWith p s = true <-> exists rest, s = p ++ rest.
Proof.
  induction p as [|a p IH]; intros s; simpl.
  - split; [intros _; exists s; reflexivity | auto].
  - destruct s as [|b s].
    + split; [discriminate | intros [r Hr]; discriminate].
    + rewrite andb_true_iff, IH, Ascii.eqb_eq. split.
      * intros [-> [r ->]]. exists r. reflexivity.
      * intros [r Hr]. injection Hr as -> ->. eauto.
Qed.

(** [s.indexOf(sub) === 0] says that [s] starts with [sub]. *)
Lemma startsAt0_startsWith s sub : startsAt0 s sub = startsWith sub s.
Proof.
  unfold startsAt0. destruct s as [|x s]; simpl.
  - destruct (startsWith sub []); reflexivity.
  - destruct (startsWith sub (x :: s)); [reflexivity|].
    destruct (indexOf s sub); reflexivity.
Qed.

(** [s.indexOf(sub)] is an index at which [sub] starts, the first one. *)
Lemma indexOf_Some s sub : forall i,
  indexOf s sub = Some i ->
  startsWith sub (skipn i s) = true
  /\ forall j, j < i -> startsWith sub (skipn j s) = false.
Proof.
  induction s as [|x s IH]; intros i; simpl.
  - destruct (startsWith sub []) eqn:H; [|discriminate].
    intros [= <-]. split; [exact H | intros j Hj; lia].
  - destruct (startsWith sub (x :: s)) eqn:H.
    + intros [= <-]. split; [exact H | intros j Hj; lia].
    + destruct (indexOf s sub) as [k|]; [|discriminate].
      intros [= <-]. destruct (IH k eq_refl) as [H1 H2]. split; [exact H1|].
      intros [|j] Hj; [exact H | apply H2; lia].
Qed.

Lemma indexOf_None s sub :
  indexOf s sub = None -> forall j, startsWith sub (skipn j s) = false.
Proof.
  induction s as [|x s IH]; simpl.
  - destruct (startsWith sub []) eqn:H; [discriminate|].
    intros _ j. destruct j; exact H.
  - destruct (startsWith sub (x :: s)) eqn:H; [discriminate|].
    destruct (indexOf s sub); [discriminate|].
    intros _ [|j]; [exact H | apply IH; reflexivity].
Qed.

(** [s.indexOf(c) !== -1] for a one-character [c]: [c] occurs in [s]. *)
Lemma includes_char s c : includes s [c] = existsb (Ascii.eqb c) s.
Proof.
  unfold includes. induction s as [|x s IH]; simpl; [reflexivity|].
  rewrite (Ascii.eqb_sym c x).
  destruct (Ascii.eqb x c); simpl.
  - destruct s; reflexivity.
  - replace (match s with [] => true | _ :: _ => true end) with true
      by (destruct s; reflexivity).
    simpl. rewrite <- IH. destruct (indexOf s [c]); reflexivity.
Qed.

(** [s.indexOf(sub) !== -1]: [sub] occurs somewhere in [s]. *)
Lemma includes_infix s sub :
  includes s sub = true <-> exists pre post, s = pre ++ sub ++ post.
Proof.
  unfold includes. split.
  - destruct (indexOf s sub) as [i|] eqn:Hi; [|discriminate].
    intros _. apply indexOf_Some in Hi as [Hi _].
    apply startsWith_prefix in Hi as [post Hp].
    exists (firstn i s), post. rewrite <- Hp. symmetry. apply firstn_skipn.
  - intros (pre & post & ->).
    destruct (indexOf (pre ++ sub ++ post) sub) eqn:Hi; [reflexivity|].
    pose proof (indexOf_None _ _ Hi (length pre)) as Hn.
    rewrite drop_app_length in Hn.
    assert (startsWith sub (sub ++ post) = true)
      by (apply startsWith_prefix; eauto).
    congruence.
Qed.

End JsFacts.

(** ** Completions from the catalog *)
Module CatalogFacts.
Import Re Vs Ctl Stated.

(** A loop that pushes the items built from the elements passing a test
    is a filter followed by a map, behind what was there. *)
Lemma push_filter_map {A B : Type} (p : A -> bool) (f : A -> B) (l : list A) :
  forall acc,
    fold_left (fun acc x => if p x then acc ++ [f x] else acc) l acc
    = acc ++ map f (List.filter p l).
Proof.
  induction l as [|x l IH]; intros acc; simpl.
  - rewrite app_nil_r. reflexivity.
  - rewrite IH. destruct (p x); simpl; [|reflexivity].
    rewrite <- app_assoc. reflexivity.
Qed.

Lemma pushAll_map {A : Type} (mk : A -> CompletionItem) (l : list A) acc :
  pushAll mk l acc = acc ++ map mk l.
Proof.
  unfold pushAll. revert acc.
  induction l as [|x l IH]; intros acc; simpl.
  - rewrite app_nil_r. reflexivity.
  - rewrite IH, <- app_assoc. reflexivity.
Qed.

Lemma filter_ext_bool {A : Type} (p q : A -> bool) (l : list A) :
  (forall x, p x = q x) -> List.filter p l = List.filter q l.
Proof.
  intros H. induction l as [|x l IH]; simpl; [reflexivity|].
  rewrite H, IH. reflexivity.
Qed.

(** The three loops of [getTitaniumApiCompletions] as filters of the
    catalog, for the API name and the fragment that the function itself
    reads off the line prefix: Class completions for the keys under the
    API name when there is no fragment, then the functions and the
    properties of the API name's type that the fragment leaves, in the
    catalog's own order; nothing when it reads no API name. *)
Lemma getTitaniumApiCompletions_filters (E : Env) (linePrefix : jsstring) :
  let types := titaniumTypes (completions E) in
  getTitaniumApiCompletions E linePrefix =
    match apiPath linePrefix with
    | None => []
    | Some (apiName, fragment) =>
        (match fragment with
         | None => map classItem (List.filter (classKey apiName) (keys types))
         | Some _ => []
         end)
        ++
        (match typeOf types apiName with
         | Some type =>
             map (fun name => item name Method)
                 (List.filter (offered E fragment) (functions type))
             ++ map (fun name => item name Property)
                 (List.filter (offered E fragment) (properties type))
         | None => []
         end)
    end.
Proof.
  cbv zeta. unfold getTitaniumApiCompletions, apiPath.
  destruct (iosParts (pathParts reTiPath linePrefix)) as [apiName attribute].
  unfold apiCompletions.
  destruct apiName as [[|c name]|]; try reflexivity.
  cbn [truthy negb default from_option]. unfold id.
  assert (Hw : forall name0,
             (negb (truthy attribute)
              || utilsMatches E name0 (default [] attribute))
             && negb (Js.includes name0 (str "deprecated"))
             = offered E (if truthy attribute then attribute else None) name0).
  { intros n. unfold offered.
    destruct attribute as [[|a w]|]; reflexivity. }
  assert (Hk : forall key,
             Js.startsAt0 key (c :: name) && negb (Js.includes key (str "_"))
             = classKey (c :: name) key).
  { intros key. unfold classKey.
    rewrite JsFacts.startsAt0_startsWith.
    change (str "_") with ["_"%char]. rewrite JsFacts.includes_char.
    reflexivity. }
  rewrite (push_filter_map _ classItem (keys (titaniumTypes (completions E))) []).
  rewrite (filter_ext_bool _ _ _ Hk).
  destruct (typeOf (titaniumTypes (completions E)) (c :: name)) as [type|].
  - rewrite !push_filter_map.
    rewrite !(filter_ext_bool _ _ _ Hw).
    destruct attribute as [[|a w]|]; simpl; rewrite <- ?app_assoc; reflexivity.
  - destruct attribute as [[|a w]|]; simpl; rewrite ?app_nil_r; reflexivity.
Qed.

End CatalogFacts.

(** ** Installing updates *)
Module InstallFacts.
Import Ext Stated.

Lemma insertSorted_perm u l : Permutation (u :: l) (insertSorted u l).
Proof.
  induction l as [|v l IH]; simpl; [reflexivity|].
  destruct (priority v <=? priority u)%Z; [|reflexivity].
  rewrite perm_swap. apply perm_skip. exact IH.
Qed.

Lemma insertSorted_ascending u l : ascending l -> ascending (insertSorted u l).
Proof.
  unfold ascending. induction 1 as [|v l Hl IH Hv]; simpl.
  - constructor; constructor.
  - destruct (priority v <=? priority u)%Z eqn:Hc.
    + constructor; [exact IH|].
      apply Z.leb_le in Hc.
      rewrite Forall_forall. intros x Hx.
      apply (Permutation_in _ (Permutation_sym (insertSorted_perm u l))) in Hx.
      destruct Hx as [<-|Hx]; [exact Hc|].
      rewrite Forall_forall in Hv. apply Hv. exact Hx.
    + apply Z.leb_gt in Hc.
      constructor; [constructor; assumption|].
      constructor; [lia|].
      rewrite Forall_forall in Hv |- *. intros x Hx.
      specialize (Hv x Hx). lia.
Qed.

Lemma sort_from acc l :
  ascending acc ->
  ascending (fold_left (fun acc u => insertSorted u acc) l acc)
  /\ Permutation (l ++ acc) (fold_left (fun acc u => insertSorted u acc) l acc).
Proof.
  revert acc. induction l as [|u l IH]; intros acc Ha; simpl.
  - split; [exact Ha | reflexivity].
  - destruct (IH (insertSorted u acc) (insertSorted_ascending u acc Ha))
      as [H1 H2].
    split; [exact H1|].
    rewrite <- H2. rewrite <- insertSorted_perm.
    apply Permutation_middle.
Qed.

(** The sort puts the updates in ascending order of priority. *)
Lemma sort_ascending l : ascending (sort l) /\ Permutation l (sort l).
Proof.
  destruct (sort_from [] l) as [H1 H2]; [constructor|].
  rewrite app_nil_r in H2. split; assumption.
Qed.

Lemma steps_app l1 l2 : steps (l1 ++ l2) = steps l1 ++ steps l2.
Proof.
  induction l1 as [|e l1 IH]; simpl; [reflexivity|].
  destruct (stepOf e); simpl; rewrite IH; reflexivity.
Qed.

Lemma attempts_app l1 l2 : attempts (l1 ++ l2) = attempts l1 ++ attempts l2.
Proof.
  induction l1 as [|e l1 IH]; simpl; [reflexivity|].
  destruct e; simpl; rewrite IH; reflexivity.
Qed.

Lemma increments_app l1 l2 :
  increments (l1 ++ l2) = increments l1 + increments l2.
Proof.
  induction l1 as [|e l1 IH]; simpl; [reflexivity|].
  destruct e; simpl; rewrite IH; reflexivity.
Qed.

Section Course.
Variable S : Type.
Variable action : Update -> S -> option InstallError * S.
Variable picksSudo : Update -> bool.
Variable appcInstaller : jsstring.

(** What the handling of a failure adds is none of the loop's steps. *)
Lemma afterFailure_quiet update metadata :
  steps (afterFailure picksSudo appcInstaller update metadata) = []
  /\ attempts (afterFailure picksSudo appcInstaller update metadata) = []
  /\ increments (afterFailure picksSudo appcInstaller update metadata) = 0.
Proof.
  unfold afterFailure. destruct metadata as [m|]; [|auto].
  destruct (_ && _); [|auto]. destruct (picksSudo update); auto.
Qed.

Lemma increment_counts incrementProgress total :
  steps (increment incrementProgress total) = []
  /\ attempts (increment incrementProgress total) = []
  /\ increments (increment incrementProgress total)
     = if incrementProgress then 1 else 0.
Proof. destruct incrementProgress; auto. Qed.

(** As long as no action rejects with [undefined] or [null], the loop
    comes to its end: it takes the updates one by one, in the order
    given, whether their actions succeed or fail, and each action
    works on the state its predecessor left. *)
Lemma installLoop_course updates total incrementProgress :
  Runs.rejectsWithValues action updates ->
  forall counter s log,
    let r := installLoop S action picksSudo appcInstaller updates total
               incrementProgress counter s log in
    exists tail,
      fst (fst (fst r)) = log ++ tail
      /\ oneByOne counter updates (steps tail)
      /\ attempts tail = updates
      /\ increments tail
         = (if incrementProgress then length updates else 0)
      /\ snd (fst r) = counter + length updates
      /\ snd (fst (fst r)) = Runs.runAll action updates s
      /\ snd r = Returns tt.
Proof.
  induction updates as [|update rest IH]; intros Hv counter s log; cbv zeta.
  - exists []. simpl. rewrite app_nil_r.
    repeat split; try reflexivity; try lia.
    destruct incrementProgress; reflexivity.
  - assert (Hrest : Runs.rejectsWithValues action rest)
      by (intros u s0 Hu; apply Hv; right; exact Hu).
    specialize (IH Hrest).
    pose proof (Hv update s (or_introl eq_refl)) as Hu.
    cbn [installLoop]. unfold Runs.runAll. cbn [fold_left].
    fold (Runs.runAll action rest (snd (action update s))).
    destruct (action update s) as [[error|] s']; cbn [fst snd] in *.
    + destruct error as [metadata|]; [|congruence]. cbn [metadataOf].
      specialize (IH (counter + 1) s'
        (((log ++ [Installing (labelOf update) counter total; Action update])
          ++ [FailedToInstall (labelOf update) counter total]
          ++ increment incrementProgress total)
         ++ afterFailure picksSudo appcInstaller update metadata)).
      cbv zeta in IH.
      destruct IH as (tail & Hl & Ho & Ha & Hi & Hc & Hs & Hr).
      destruct (afterFailure_quiet update metadata) as (F1 & F2 & F3).
      destruct (increment_counts incrementProgress total) as (I1 & I2 & I3).
      eexists. split; [rewrite Hl; rewrite <- !app_assoc; reflexivity|].
      rewrite !steps_app, !attempts_app, !increments_app.
      rewrite F1, F2, F3, I1, I2, I3, Ha, Hi, Hc, Hs, Hr. simpl.
      split; [|split; [reflexivity|split;
                [destruct incrementProgress; lia
                |split; [lia | split; reflexivity]]]].
      exists false, (steps tail). split; [reflexivity|].
      replace (Datatypes.S counter) with (counter + 1) by lia. exact Ho.
    + specialize (IH (counter + 1) s'
        ((log ++ [Installing (labelOf update) counter total; Action update])
         ++ [Installed (labelOf update) counter total]
         ++ increment incrementProgress total)).
      cbv zeta in IH.
      destruct IH as (tail & Hl & Ho & Ha & Hi & Hc & Hs & Hr).
      destruct (increment_counts incrementProgress total) as (I1 & I2 & I3).
      eexists. split; [rewrite Hl; rewrite <- !app_assoc; reflexivity|].
      rewrite !steps_app, !attempts_app, !increments_app.
      rewrite I1, I2, I3, Ha, Hi, Hc, Hs, Hr. simpl.
      split; [|split; [reflexivity|split;
                [destruct incrementProgress; lia
                |split; [lia | split; reflexivity]]]].
      exists true, (steps tail). split; [reflexivity|].
      replace (Datatypes.S counter) with (counter + 1) by lia. exact Ho.
Qed.

(** For every list of updates none of whose actions rejects with
    [undefined] or [null], [installUpdates] comes to its end: it sorts
    the list in ascending order of priority and takes the updates one
    after the other in that order; each is announced, run on the state
    its predecessor left and reported with its counter before the next
    one starts, whether its action succeeded or failed; the counter
    advances by one per update, and so does the progress bar when it
    is asked to. *)
Lemma installUpdates_sequential_on_values
  (updateInfo : list Update) (incrementProgress : bool) (s : S) :
  Runs.rejectsWithValues action updateInfo ->
  let r := installUpdates S action picksSudo appcInstaller updateInfo
             incrementProgress s in
  let log := fst (fst (fst r)) in
  snd r = Returns tt
  /\ ascending (attempts log)
  /\ Permutation updateInfo (attempts log)
  /\ oneByOne 1 (attempts log) (steps log)
  /\ snd (fst (fst r)) = Runs.runAll action (attempts log) s
  /\ snd (fst r) = 1 + length updateInfo
  /\ increments log = if incrementProgress then length updateInfo else 0.
Proof.
  intros Hv. cbv zeta. unfold installUpdates.
  destruct (sort_ascending updateInfo) as [Hs Hp].
  assert (Hv' : Runs.rejectsWithValues action (sort updateInfo)).
  { intros u s0 Hu. apply Hv.
    apply (Permutation_in _ (Permutation_sym Hp)). exact Hu. }
  destruct (installLoop_course (sort updateInfo) (length updateInfo)
              incrementProgress Hv' 1 s [])
    as (tail & Hl & Ho & Ha & Hi & Hc & Hst & Hr).
  rewrite Hl, Hc, Hst, Hr. simpl. rewrite Ha, Hi.
  rewrite <- (Permutation_length Hp).
  repeat split; assumption || reflexivity.
Qed.

End Course.

(** C9, at a failing input.  Two updates are given, the sdk (priority
    2) before the installer (priority 1), and the action of the
    installer rejects with [undefined].  [installUpdates] sorts them,
    calls the action of the installer and reports its failure; the
    read of [error.metadata] in the [catch] block then throws, out of
    the loop: the action of the sdk is never called and the counter is
    not advanced.  With an [Error] object in the same rejection the
    loop goes on, and the sdk is installed. *)
Theorem installUpdates_stops_at_undefined_rejection :
  installUpdates (list jsstring) Runs.called (fun _ => false)
    (str "appc-installer") [Runs.sdk; Runs.installer] true []
  = ([Installing (str "installer: 1.0") 1 2; Action Runs.installer;
      FailedToInstall (str "installer: 1.0") 1 2; Increment 2],
     [str "installer"], 1, Throws)
  /\ ~ In Runs.sdk
       (attempts
          (fst (fst (fst
             (installUpdates (list jsstring) Runs.called (fun _ => false)
                (str "appc-installer") [Runs.sdk; Runs.installer]
                true [])))))
  /\ installUpdates (list jsstring) Runs.calledWithError (fun _ => false)
       (str "appc-installer") [Runs.sdk; Runs.installer] true []
     = ([Installing (str "installer: 1.0") 1 2; Action Runs.installer;
         FailedToInstall (str "installer: 1.0") 1 2; Increment 2;
         ErrorMessage (str "installer: 1.0");
         Installing (str "sdk: 2.0") 2 2; Action Runs.sdk;
         Installed (str "sdk: 2.0") 2 2; Increment 2],
        [str "installer"; str "sdk"], 3, Returns tt).
Proof.
  split; [vm_compute; reflexivity|].
  split; [|vm_compute; reflexivity].
  vm_compute. intros [H|[]]. discriminate H.
Qed.

End InstallFacts.

(** ** Inserting an i18n string *)
Module I18nFacts.
Import Vs Def Stated.

Lemma indexOf_le s sub : forall i, Js.indexOf s sub = Some i -> i <= length s.
Proof.
  induction s as [|x s IH]; intros i; simpl.
  - destruct (Js.startsWith sub []); [intros [= <-]; lia | discriminate].
  - destruct (Js.startsWith sub (x :: s)); [intros [= <-]; lia|].
    destruct (Js.indexOf s sub) as [k|]; [|discriminate].
    intros [= <-]. specialize (IH k eq_refl). lia.
Qed.

(** An occurrence with none before it is the one [indexOf] finds. *)
Lemma indexOf_first s sub : forall i,
  i <= length s ->
  Js.startsWith sub (skipn i s) = true ->
  (forall j, j < i -> Js.startsWith sub (skipn j s) = false) ->
  Js.indexOf s sub = Some i.
Proof.
  induction s as [|x s IH]; intros i Hi Hs Hb.
  - assert (i = 0) as -> by (simpl in Hi; lia). simpl in *. rewrite Hs.
    reflexivity.
  - destruct i as [|i].
    + simpl in Hs. simpl. rewrite Hs. reflexivity.
    + pose proof (Hb 0 ltac:(lia)) as H0. simpl in H0.
      cbn [Js.indexOf]. rewrite H0.
      rewrite (IH i); [reflexivity| simpl in Hi; lia | exact Hs |].
      intros j Hj. apply (Hb (S j)). lia.
Qed.

(** The position of an offset, read back as an offset. *)
Lemma offsetAt_positionFrom s : forall o l0 c0,
  o <= length s ->
  let p := positionFrom s o l0 c0 in
  l0 <= line p
  /\ (line p = l0 -> c0 <= character p)
  /\ offsetAt s (line p - l0)
       (if line p =? l0 then character p - c0 else character p) = o.
Proof.
  induction s as [|x s IH]; intros o l0 c0 Ho; cbv zeta.
  - simpl in Ho. assert (o = 0) as -> by lia. simpl.
    repeat split; lia.
  - destruct o as [|o].
    + simpl. rewrite Nat.sub_diag, Nat.eqb_refl, Nat.sub_diag.
      repeat split; lia.
    + simpl in Ho. cbn [positionFrom].
      destruct (Ascii.eqb x (ascii_of_nat 10)) eqn:Hx.
      * destruct (IH o (S l0) 0 ltac:(lia)) as (H1 & H2 & H3).
        set (p := positionFrom s o (S l0) 0) in *.
        split; [lia|]. split; [intros; lia|].
        destruct (line p - l0) as [|l'] eqn:Hl; [lia|].
        cbn [offsetAt]. rewrite Hx.
        assert ((line p =? l0) = false) as -> by (apply Nat.eqb_neq; lia).
        replace l' with (line p - S l0) by lia.
        destruct (line p =? S l0); rewrite ?Nat.sub_0_r in H3; rewrite H3;
          reflexivity.
      * destruct (IH o l0 (S c0) ltac:(lia)) as (H1 & H2 & H3).
        set (p := positionFrom s o l0 (S c0)) in *.
        split; [lia|]. split; [intros H; specialize (H2 H); lia|].
        destruct (line p =? l0) eqn:Hl.
        -- apply Nat.eqb_eq in Hl. specialize (H2 Hl).
           rewrite Hl, Nat.sub_diag in *.
           destruct (character p - c0) as [|c'] eqn:Hc; [lia|].
           cbn [offsetAt]. rewrite Hx.
           replace c' with (character p - S c0) by lia. rewrite H3.
           reflexivity.
        -- apply Nat.eqb_neq in Hl.
           destruct (line p - l0) as [|l'] eqn:Hd; [lia|].
           cbn [offsetAt]. rewrite Hx. rewrite H3. reflexivity.
Qed.

(** An insertion at the position of an offset lands at that offset. *)
Lemma insertAtPosition_offset document i text :
  i <= length document ->
  insertAtPosition document (positionAt document i) text
  = firstn i document ++ text ++ skipn i document.
Proof.
  intros Hi. unfold insertAtPosition, positionAt.
  destruct (offsetAt_positionFrom document i 0 0 Hi) as (_ & _ & H).
  cbv zeta in H. rewrite !Nat.sub_0_r in H.
  destruct (line (positionFrom document i 0 0) =? 0); rewrite H; reflexivity.
Qed.

(** The call itself: with an i18n path it leaves the file in place, as
    it was or as the skeleton, touches no other file and asks for the
    file's document. *)
Lemma insertI18nString_call W text i18n :
  i18nPath W = Some i18n -> i18n <> [] ->
  let path := join (join i18n (defaultI18nLanguage W)) (str "strings.xml") in
  exists W1,
    insertI18nString W text = (W1, Some path)
    /\ texts W1 !! path = Some (startingText W path)
    /\ (forall other, other <> path -> texts W1 !! other = texts W !! other)
    /\ i18nPath W1 = i18nPath W
    /\ defaultI18nLanguage W1 = defaultI18nLanguage W.
Proof.
  intros Hp Hne. cbv zeta. unfold insertI18nString, startingText. rewrite Hp.
  destruct i18n as [|c p]; [congruence|].
  set (path := join (join (c :: p) (defaultI18nLanguage W)) (str "strings.xml")).
  destruct (texts W !! path) as [document|] eqn:Hd; cbn [default from_option id].
  - exists W. repeat split; auto.
  - eexists. split; [reflexivity|]. cbn [texts i18nPath defaultI18nLanguage].
    rewrite lookup_insert_eq. repeat split; auto.
    intros other Ho. rewrite lookup_insert_ne by congruence. reflexivity.
Qed.

(** What a settled call leaves in strings.xml, and nowhere else. *)
Lemma settled_texts W text i18n :
  i18nPath W = Some i18n -> i18n <> [] ->
  let path := join (join i18n (defaultI18nLanguage W)) (str "strings.xml") in
  let before := startingText W path in
  texts (settled W text) !! path
  = Some (match Js.indexOf before (str "</resources>") with
          | Some i => firstn i before ++ stringElement text ++ skipn i before
          | None => before
          end)
  /\ (forall other, other <> path ->
        texts (settled W text) !! other = texts W !! other)
  /\ i18nPath (settled W text) = i18nPath W
  /\ defaultI18nLanguage (settled W text) = defaultI18nLanguage W.
Proof.
  intros Hp Hne. cbv zeta.
  destruct (insertI18nString_call W text i18n Hp Hne)
    as (W1 & Hcall & Hfile & Hother & Hp1 & Hl1).
  cbv zeta in Hcall, Hfile, Hother.
  set (path := join (join i18n (defaultI18nLanguage W)) (str "strings.xml")) in *.
  unfold settled. rewrite Hcall. unfold onOpened. rewrite Hfile.
  destruct (Js.indexOf (startingText W path) (str "</resources>"))
    as [i|] eqn:Hi.
  - unfold applyEdit. cbn [editPath editPosition editText]. rewrite Hfile.
    cbn [texts i18nPath defaultI18nLanguage]. rewrite lookup_insert_eq.
    rewrite insertAtPosition_offset by (eapply indexOf_le; exact Hi).
    split; [reflexivity|]. split; [|auto].
    intros other Ho. rewrite lookup_insert_ne by congruence. auto.
  - split; [exact Hfile|]. split; auto.
Qed.

(** C10, amended. Without an i18n path (none, or an empty one)
    [insertI18nString] does nothing: no file is made and no document is
    asked for. With one, the call makes sure the default-language
    strings.xml exists (a missing file starts as the empty
    [<resources>] skeleton) and asks for its document; once the call
    has settled, with nothing else touching the file meanwhile, the new
    [<string name=...>] element stands right before the first
    [</resources>] of the text; a text without [</resources>] is left
    as it is; no other file changes. *)
Theorem insertI18nString_before_closing_tag (W : World) (text : jsstring) :
  ((i18nPath W = None \/ i18nPath W = Some []) ->
   insertI18nString W text = (W, None) /\ settled W text = W)
  /\ forall i18n,
       i18nPath W = Some i18n -> i18n <> [] ->
       let path := join (join i18n (defaultI18nLanguage W)) (str "strings.xml") in
       let before := default skeleton (texts W !! path) in
       let after := texts (settled W text) !! path in
       let tag := str "</resources>" in
       (exists W1,
          insertI18nString W text = (W1, Some path)
          /\ texts W1 !! path = Some before
          /\ forall other, other <> path ->
               texts W1 !! other = texts W !! other)
       /\ is_Some after
       /\ (forall pre post,
             before = pre ++ tag ++ post ->
             (forall j, j < length pre ->
                Js.startsWith tag (skipn j before) = false) ->
             after = Some (pre ++ stringElement text ++ tag ++ post))
       /\ ((forall j, Js.startsWith tag (skipn j before) = false) ->
           after = Some before)
       /\ (forall other, other <> path ->
             texts (settled W text) !! other = texts W !! other).
Proof.
  split.
  { unfold settled, insertI18nString. intros [-> | ->]; split; reflexivity. }
  intros i18n Hp Hne. cbv zeta.
  destruct (settled_texts W text i18n Hp Hne) as (Ht & Ho & _).
  destruct (insertI18nString_call W text i18n Hp Hne)
    as (W1 & Hcall & Hfile & Hother & _).
  cbv zeta in Ht, Hcall, Hfile, Hother. unfold startingText in Ht, Hfile.
  set (path := join (join i18n (defaultI18nLanguage W)) (str "strings.xml")) in *.
  set (before := default skeleton (texts W !! path)) in *.
  split; [exists W1; auto|].
  split; [rewrite Ht; eexists; reflexivity|].
  split; [|split; [|exact Ho]].
  - intros pre post Hb Hfirst.
    assert (Hi : Js.indexOf before (str "</resources>") = Some (length pre)).
    { apply indexOf_first.
      - rewrite Hb, length_app. lia.
      - rewrite Hb, drop_app_length.
        apply JsFacts.startsWith_prefix. exists post. reflexivity.
      - exact Hfirst. }
    rewrite Ht, Hi. rewrite Hb at 1 2.
    rewrite take_app_length, drop_app_length. reflexivity.
  - intros Hnone. rewrite Ht.
    destruct (Js.indexOf before (str "</resources>")) as [i|] eqn:Hi;
      [|reflexivity].
    apply JsFacts.indexOf_Some in Hi as [Hi _]. rewrite Hnone in Hi.
    discriminate.
Qed.

Lemma insertI18nString_before_closing_tag_witness :
  let W := mkWorld (Some (str "app/i18n")) (str "en") ∅ ∅ in
  i18nPath W = Some (str "app/i18n")
  /\ str "app/i18n" <> []
  /\ texts (settled W (str "greeting")) !! str "app/i18n/en/strings.xml"
     = Some (qstr "<?xml version=`1.0` encoding=`UTF-8`?>" ++ Samples.lf
             ++ str "<resources>" ++ Samples.lf
             ++ stringElement (str "greeting") ++ str "</resources>").
Proof.
  cbv zeta.
  assert (H : i18nPath (mkWorld (Some (str "app/i18n")) (str "en") ∅ ∅)
              = Some (str "app/i18n")) by reflexivity.
  assert (Hne : str "app/i18n" <> []) by discriminate.
  split; [exact H|]. split; [exact Hne|].
  destruct (proj2 (insertI18nString_before_closing_tag
              (mkWorld (Some (str "app/i18n")) (str "en") ∅ ∅)
              (str "greeting")) (str "app/i18n") H Hne) as (_ & _ & Hins & _).
  apply (Hins (qstr "<?xml version=`1.0` encoding=`UTF-8`?>" ++ Samples.lf
               ++ str "<resources>" ++ Samples.lf) []).
  - vm_compute. reflexivity.
  - intros j Hj.
    do 51 (destruct j as [|j]; [vm_compute; reflexivity|]).
    vm_compute in Hj. lia.
Defined.

(** C10, as stated, fails: without an i18n path no strings.xml is made
    to exist, and nothing is inserted. *)
Lemma insertI18nString_without_i18n_path :
  i18nPath (mkWorld None (str "en") ∅ ∅) = None
  /\ insertI18nString (mkWorld None (str "en") ∅ ∅) (str "greeting")
     = (mkWorld None (str "en") ∅ ∅, None)
  /\ texts (settled (mkWorld None (str "en") ∅ ∅) (str "greeting")) = ∅.
Proof. repeat split; reflexivity. Qed.

End I18nFacts.

(** ** Event names *)
Module EventFacts.
Import Re Vs Ctl Samples.

(** What [getEventNameCompletions] returns, it found by looking the id
    itself up among the tags: nothing, or the events of the type that
    the tag named like the id stands for, or, for an id that every
    object answers to, the events of a type named [undefined]. *)
Lemma getEventNameCompletions_looks_up_id E linePrefix items :
  getEventNameCompletions E linePrefix = Returns items ->
  items = []
  \/ (exists matches tag type,
        fst (exec reEvent linePrefix) = Some matches
        /\ alloyTags (completions E) !! group1 matches = Some tag
        /\ typeOf (titaniumTypes (completions E)) (apiName tag) = Some type
        /\ items = map (eventItem (apiName tag)) (events type))
  \/ (exists matches type,
        fst (exec reEvent linePrefix) = Some matches
        /\ alloyTags (completions E) !! group1 matches = None
        /\ inherited (group1 matches) = true
        /\ typeOf (titaniumTypes (completions E)) (str "undefined") = Some type
        /\ items = map (fun event => mkItem event Event None None None)
                       (events type)).
Proof.
  unfold getEventNameCompletions.
  destruct (fst (exec reEvent linePrefix)) as [matches|];
    [|intros [= <-]; auto].
  destruct (relatedXml E) as [relatedFile|]; [|intros [= <-]; auto].
  destruct (files E !! relatedFile) as [document|]; [|discriminate].
  destruct (closestTag document (group1 matches)) as [closestId|];
    [|intros [= <-]; auto].
  destruct (truthy (Some (group1 matches))) eqn:Ht; [|intros [= <-]; auto].
  cbn [default from_option id].
  destruct (alloyTags (completions E) !! group1 matches) as [tag|] eqn:Hg.
  - destruct (typeOf (titaniumTypes (completions E)) (apiName tag))
      as [type|] eqn:Hty; [|discriminate].
    rewrite CatalogFacts.pushAll_map. intros [= <-]. right. left.
    exists matches, tag, type. auto.
  - destruct (inherited (group1 matches)) eqn:Hin; [|intros [= <-]; auto].
    destruct (typeOf (titaniumTypes (completions E)) (str "undefined"))
      as [type|] eqn:Hty; [|discriminate].
    rewrite CatalogFacts.pushAll_map. intros [= <-]. right. right.
    exists matches, type. auto.
Qed.

(** An element with the id [constructor]: the id is looked up among the
    tags, every object answers to it, and reading the events of the
    type that is not there throws. *)
Example getEventNameCompletions_throws_for_inherited_id :
  getEventNameCompletions
    (project (Some viewPath)
       {[ viewPath := qstr "<View id=`constructor`/>" ]})
    (str "$.constructor.addEventListener('")
  = Throws.
Proof. vm_compute. reflexivity. Qed.

(** C2, at a failing input. The view declares [btn] on a [Button], the
    catalog maps the tag [Button] to [Ti.UI.Button], whose events are
    [click] and [longpress]; after [$.btn.addEventListener('] no event
    is offered, because the id [btn] is looked up as if it were the tag
    name, while the sibling [getMethodAndPropertyCompletions] resolves
    the tag and offers the members of [Ti.UI.Button]. *)
Theorem getEventNameCompletions_offers_nothing_for_button :
  getEventNameCompletions env (str "$.btn.addEventListener('") = Returns []
  /\ option_map group1 (closestTag view (str "btn")) = Some (str "Button")
  /\ option_map apiName (alloyTags catalog !! str "Button")
     = Some (str "Ti.UI.Button")
  /\ option_map events (typeOf (titaniumTypes catalog) (str "Ti.UI.Button"))
     = Some [str "click"; str "longpress"]
  /\ getMethodAndPropertyCompletions env (str "$.btn.")
     = Returns (map methodSnippet (functions buttonType)
                ++ map propertySnippet (properties buttonType)).
Proof. repeat split; vm_compute; reflexivity. Qed.

End EventFacts.

(** ** References *)
Module ReferenceFacts.
Import Re Vs Def Samples Stated.

(** [getReferences] returns, whichever files can be opened. *)
Lemma getReferences_returns {T : Type} opened files regExp
  (callback : jsstring -> Range -> T) :
  exists l, getReferences opened files regExp callback = Returns l.
Proof. eexists. reflexivity. Qed.

(** A file that cannot be opened is passed over. *)
Lemma referencesLoop_skips_unopened {T : Type} opened file rest regExp
  (callback : jsstring -> Range -> T) definitions :
  opened !! file = None ->
  referencesLoop opened (file :: rest) regExp callback definitions
  = referencesLoop opened rest regExp callback definitions.
Proof. intros H. simpl. unfold openTextDocument. rewrite H. reflexivity. Qed.

(** With a pattern that has neither the g nor the y flag the loop gives
    every file its entries. *)
Lemma referencesLoop_stateless {T : Type} opened regExp
  (callback : jsstring -> Range -> T) :
  global regExp = false -> sticky regExp = false ->
  forall paths definitions,
    referencesLoop opened paths regExp callback definitions
    = (definitions ++ flat_map (entriesOf opened regExp callback) paths, regExp).
Proof.
  intros Hg Hy paths. induction paths as [|file rest IH]; intros definitions.
  - simpl. rewrite app_nil_r. reflexivity.
  - cbn [referencesLoop flat_map]. unfold entriesOf at 1, openTextDocument.
    destruct (opened !! file) as [document|]; [|apply IH].
    destruct (0 <? length document); [|apply IH].
    pose proof (ReFacts.exec_stateless_same regExp document Hg Hy) as Hs.
    destruct (exec regExp document) as [[matches|] R']; simpl in Hs; subst R';
      cbn [fst]; rewrite IH; [rewrite <- app_assoc|]; reflexivity.
Qed.

(** What does hold of [getReferences]: it never raises, passes over the
    files that cannot be opened, and, for a pattern without the g and y
    flags, returns an entry for every file that opens with a non-empty
    text matching the pattern. *)
Lemma getReferences_without_g_flag {T : Type} opened files regExp
  (callback : jsstring -> Range -> T) :
  global regExp = false -> sticky regExp = false ->
  exists l,
    getReferences opened files regExp callback = Returns l
    /\ forall file document matches,
         In file (asArray files) ->
         opened !! file = Some document ->
         0 < length document ->
         fst (exec regExp document) = Some matches ->
         exists range, In (callback file range) l.
Proof.
  intros Hg Hy. eexists. split; [reflexivity|].
  intros file document matches Hin Ho Hlen Hm.
  rewrite (referencesLoop_stateless opened regExp callback Hg Hy). simpl.
  eexists. apply in_flat_map. exists file. split; [exact Hin|].
  unfold entriesOf. rewrite Ho.
  assert ((0 <? length document) = true) as -> by (apply Nat.ltb_lt; exact Hlen).
  rewrite Hm. left. reflexivity.
Qed.

(** C5, at a failing input. Both style sheets open, are not empty and
    hold [.title]; searched with the pattern [/\.title/g], the second
    one gets no entry: the search in it starts at the [lastIndex] the
    match in the first one left behind. Searched first, it gets its
    entry. *)
Theorem getReferences_misses_match_in_later_file :
  let pattern := literal_g (Lit (str ".title")) in
  getReferences styles (ManyFiles [indexTss; appTss]) pattern mkLocation
  = Returns [mkLocation indexTss (mkRange 1 0 1 1)]
  /\ (exists document matches,
        styles !! appTss = Some document
        /\ 0 < length document
        /\ fst (exec pattern document) = Some matches)
  /\ getReferences styles (ManyFiles [appTss; indexTss]) pattern mkLocation
     = Returns [mkLocation appTss (mkRange 0 0 0 1);
                mkLocation indexTss (mkRange 1 0 1 1)].
Proof.
  cbv zeta. split; [vm_compute; reflexivity|]. split; [|vm_compute; reflexivity].
  eexists. eexists. split; [vm_compute; reflexivity|].
  split; [vm_compute; lia | vm_compute; reflexivity].
Qed.

End ReferenceFacts.

(** ** The string under the cursor *)
Module QuoteFacts.
Import Re Vs Def Stated.

(** The search for a quote stops at the first one. *)
Lemma search_quote s : forall i,
  match quotesFrom i s with
  | [] => search false (CharSet isQuote) s i = None
  | j :: js =>
      exists x rest,
        skipn (j - i) s = x :: rest /\ i <= j
        /\ search false (CharSet isQuote) s i = Some (j, x :: rest, (rest, []))
        /\ js = quotesFrom (S j) rest
  end.
Proof.
  induction s as [|x s IH]; intros i; cbn [quotesFrom search run].
  - reflexivity.
  - unfold classMatches. destruct (isQuote x) eqn:Hq.
    + exists x, s. rewrite Nat.sub_diag. simpl. auto.
    + specialize (IH (S i)). destruct (quotesFrom (S i) s) as [|j js].
      * exact IH.
      * destruct IH as (y & rest & Hd & Hle & Hs & Hjs).
        exists y, rest. split; [|split; [lia|split; assumption]].
        replace (j - i) with (S (j - S i)) by lia. exact Hd.
Qed.

(** One [exec] of the quote pattern with [lastIndex] at [li]: the next
    quote, and [lastIndex] behind it. *)
Lemma exec_reQuote line li :
  li <= length line ->
  match quotesFrom li (skipn li line) with
  | [] => fst (exec (setLastIndex reQuote li) line) = None
  | j :: js =>
      exists matches,
        exec (setLastIndex reQuote li) line
        = (Some matches, setLastIndex reQuote (S j))
        /\ index matches = j
        /\ S j <= length line
        /\ js = quotesFrom (S j) (skipn (S j) line)
  end.
Proof.
  intros Hle. unfold exec. cbn [setLastIndex reQuote literal_g global sticky
    orb lastIndex source ignoreCase].
  assert ((length line <? li) = false) as -> by (apply Nat.ltb_ge; lia).
  pose proof (search_quote (skipn li line) li) as H.
  destruct (quotesFrom li (skipn li line)) as [|j js].
  - rewrite H. reflexivity.
  - destruct H as (x & rest & Hd & Hj & Hs & Hjs).
    rewrite Hs. rewrite drop_drop in Hd.
    replace (li + (j - li)) with j in Hd by lia.
    assert (Hlen : length (skipn j line) = S (length rest))
      by (rewrite Hd; reflexivity).
    rewrite length_drop in Hlen.
    assert (Hrest : rest = skipn (S j) line).
    { change (S j) with (1 + j). rewrite Nat.add_comm, <- drop_drop, Hd.
      reflexivity. }
    eexists. split.
    { apply f_equal2; [reflexivity|]. unfold setLastIndex. simpl.
      f_equal. lia. }
    split; [reflexivity|]. split; [lia|].
    rewrite Hjs, Hrest. reflexivity.
Qed.

(** The loop follows the quote indices that are left. *)
Lemma quoteLoop_walk line column : forall fuel li startIndex,
  li <= length line ->
  length (quotesFrom li (skipn li line)) < fuel ->
  quoteLoop fuel (setLastIndex reQuote li) line column startIndex column
  = Some (walk (quotesFrom li (skipn li line)) column startIndex).
Proof.
  induction fuel as [|fuel IH]; intros li startIndex Hle Hfuel; [lia|].
  cbn [quoteLoop].
  pose proof (exec_reQuote line li Hle) as H.
  destruct (quotesFrom li (skipn li line)) as [|j js].
  - destruct (exec (setLastIndex reQuote li) line) as [m R'].
    simpl in H. subst m. reflexivity.
  - destruct H as (matches & He & Hi & Hj & Hjs).
    rewrite He, Hi. cbn [walk]. simpl in Hfuel.
    destruct (j <? column); [|destruct (column <? j); [reflexivity|]];
      rewrite Hjs; apply IH; try assumption; rewrite <- Hjs; lia.
Qed.

Lemma quotesFrom_ge s : forall i j, In j (quotesFrom i s) -> i <= j.
Proof.
  induction s as [|x s IH]; intros i j; simpl; [tauto|].
  destruct (isQuote x); simpl.
  - intros [<-|H]; [lia | apply IH in H; lia].
  - intros H. apply IH in H. lia.
Qed.

Lemma quotesFrom_sorted s : forall i, StronglySorted lt (quotesFrom i s).
Proof.
  induction s as [|x s IH]; intros i; simpl; [constructor|].
  destruct (isQuote x); [|apply IH].
  constructor; [apply IH|].
  rewrite Forall_forall. intros j Hj. apply quotesFrom_ge in Hj. lia.
Qed.

Lemma quotesFrom_length s : forall i, length (quotesFrom i s) <= length s.
Proof.
  induction s as [|x s IH]; intros i; simpl; [lia|].
  destruct (isQuote x); simpl; specialize (IH (S i)); lia.
Qed.

Lemma lastOf_cons x l : lastOf (x :: l) = Some (default x (lastOf l)).
Proof.
  revert x. induction l as [|y l IH]; intros x; [reflexivity|].
  change (lastOf (x :: y :: l)) with (lastOf (y :: l)). rewrite IH.
  reflexivity.
Qed.

Lemma lastOf_In l x : lastOf l = Some x -> In x l.
Proof.
  induction l as [|y l IH]; [discriminate|].
  rewrite lastOf_cons. intros [= <-].
  destruct (lastOf l) as [z|] eqn:Hz; simpl; [right; apply IH; reflexivity|].
  left. reflexivity.
Qed.

(** Along ascending indices the walk ends with the last one before the
    column and the first one after it. *)
Lemma walk_spec quotes column : forall startIndex,
  StronglySorted lt quotes ->
  walk quotes column startIndex
  = (default startIndex (lastOf (List.filter (fun i => i <? column) quotes)),
     default column (head (List.filter (fun i => column <? i) quotes))).
Proof.
  induction quotes as [|j rest IH]; intros startIndex Hs; [reflexivity|].
  apply StronglySorted_inv in Hs as [Hs Hall]. cbn [walk List.filter].
  destruct (j <? column) eqn:Hlt.
  - apply Nat.ltb_lt in Hlt.
    assert ((column <? j) = false) as -> by (apply Nat.ltb_ge; lia).
    rewrite IH by exact Hs. rewrite lastOf_cons. reflexivity.
  - destruct (column <? j) eqn:Hgt.
    + apply Nat.ltb_lt in Hgt.
      assert (Hnone : List.filter (fun i => i <? column) rest = []).
      { clear IH Hs. induction rest as [|k rest IH]; [reflexivity|].
        inversion Hall as [|? ? Hk Hall']; subst. simpl.
        assert ((k <? column) = false) as -> by (apply Nat.ltb_ge; lia).
        apply IH. exact Hall'. }
      rewrite Hnone. reflexivity.
    + rewrite IH by exact Hs. reflexivity.
Qed.

(** Where the loop leaves [startIndex] and [endIndex]: at the last quote
    before the cursor column, or [0]; at the first quote after it, or
    the column. The loop always ends. *)
Lemma quoteBounds_spec line column :
  quoteBounds line column
  = Some (default 0 (lastQuoteBefore line column),
          default column (firstQuoteAfter line column)).
Proof.
  unfold quoteBounds, lastQuoteBefore, firstQuoteAfter.
  pose proof (quoteLoop_walk line column (S (length line)) 0 0) as H.
  change (setLastIndex reQuote 0) with reQuote in H.
  change (skipn 0 line) with line in H.
  rewrite H.
  - rewrite walk_spec by apply quotesFrom_sorted. reflexivity.
  - lia.
  - pose proof (quotesFrom_length line 0). lia.
Qed.

Lemma lastQuoteBefore_lt line column i :
  lastQuoteBefore line column = Some i -> i < column.
Proof.
  intros H. apply lastOf_In in H. apply filter_In in H as [_ H].
  apply Nat.ltb_lt in H. exact H.
Qed.

Lemma firstQuoteAfter_gt line column j :
  firstQuoteAfter line column = Some j -> column < j.
Proof.
  unfold firstQuoteAfter. intros H.
  destruct (List.filter _ _) as [|k l] eqn:Hf; [discriminate|].
  injection H as ->.
  assert (Hin : In j (List.filter (fun i => column <? i) (quotesFrom 0 line)))
    by (rewrite Hf; left; reflexivity).
  apply filter_In in Hin as [_ Hin]. apply Nat.ltb_lt in Hin. exact Hin.
Qed.

Lemma substring_between line i j :
  S i <= j -> Js.substring line (S i) j = between line i j.
Proof.
  intros H. unfold Js.substring, between.
  rewrite Nat.min_l, Nat.max_r by lia. reflexivity.
Qed.

(** C6, amended. For every line and cursor column for which the last
    quote before the column is not the first character of the line,
    [provideHover] and [provideDefinition] take as the cursor's string
    value the text strictly between the last quote (single or double)
    whose index is before the column and the first quote whose index is
    after the column, or the column itself when no quote follows it;
    when no quote comes before the column no value is taken: [provideHover]
    has no value and returns nothing, [provideDefinition] goes on with
    the empty string. *)
Theorem cursor_value_between_quotes (line : jsstring) (column : nat) :
  lastQuoteBefore line column <> Some 0 ->
  let stop := default column (firstQuoteAfter line column) in
  let value :=
    match lastQuoteBefore line column with
    | Some i => Some (between line i stop)
    | None => None
    end in
  hoverValue line column = Some value
  /\ definitionValue line column = Some (default [] value)
  /\ (value = None ->
      forall assets document position,
        lineAt document position = line -> character position = column ->
        provideHover assets document position = Returns None)
  /\ (forall opened word document position suggestions,
        lineAt document position = line -> character position = column ->
        provideDefinition opened word document position suggestions
        = suggestionLoop opened suggestions document position
            (linePrefixAt document (Vs.line position) column) word
            (default [] value) (default 0 (lastQuoteBefore line column))
            stop []).
Proof.
  intros Hnot0. cbv zeta.
  assert (Hv : valueBetween line
                 (default 0 (lastQuoteBefore line column),
                  default column (firstQuoteAfter line column))
               = match lastQuoteBefore line column with
                 | Some i =>
                     Some (between line i
                             (default column (firstQuoteAfter line column)))
                 | None => None
                 end).
  { unfold valueBetween.
    destruct (lastQuoteBefore line column) as [i|] eqn:Hi; [|reflexivity].
    pose proof (lastQuoteBefore_lt _ _ _ Hi) as Hlt.
    assert (Hstop : column <= default column (firstQuoteAfter line column)).
    { destruct (firstQuoteAfter line column) as [j|] eqn:Hj; simpl; [|lia].
      apply firstQuoteAfter_gt in Hj. lia. }
    cbn [default from_option id].
    destruct i as [|i]; [congruence|].
    assert ((0 <? default column (firstQuoteAfter line column)) = true) as ->
      by (apply Nat.ltb_lt; lia).
    simpl. rewrite substring_between by lia. reflexivity. }
  unfold hoverValue, definitionValue. rewrite quoteBounds_spec, Hv.
  split; [reflexivity|]. split; [reflexivity|]. split.
  - intros Hnone assets document position Hline Hcol.
    unfold provideHover. rewrite Hline, Hcol, quoteBounds_spec, Hv, Hnone.
    reflexivity.
  - intros opened word document position suggestions Hline Hcol.
    unfold provideDefinition. rewrite Hline, Hcol, quoteBounds_spec, Hv.
    reflexivity.
Qed.

Lemma cursor_value_between_quotes_witness :
  lastQuoteBefore (qstr "title: L(`hello`)") 12 <> Some 0
  /\ hoverValue (qstr "title: L(`hello`)") 12 = Some (Some (str "hello"))
  /\ definitionValue (qstr "title: L(`hello`)") 12 = Some (str "hello").
Proof.
  assert (H : lastQuoteBefore (qstr "title: L(`hello`)") 12 <> Some 0)
    by (vm_compute; discriminate).
  split; [exact H|].
  destruct (cursor_value_between_quotes (qstr "title: L(`hello`)") 12 H)
    as (Hh & Hd & _).
  split; [exact Hh | exact Hd].
Defined.

(** C6, as stated, fails: with an opening quote before the cursor and no
    quote after it, the text from the quote to the cursor is taken. *)
Lemma cursor_value_without_closing_quote :
  hoverValue (qstr "L(`hello") 5 = Some (Some (str "he"))
  /\ definitionValue (qstr "L(`hello") 5 = Some (str "he")
  /\ claimedValue (qstr "L(`hello") 5 = None.
Proof. repeat split; vm_compute; reflexivity. Qed.

(** A quote that opens the line does not count as a start. *)
Lemma cursor_value_quote_at_line_start :
  hoverValue (qstr "`abc`") 2 = Some None
  /\ definitionValue (qstr "`abc`") 2 = Some []
  /\ claimedValue (qstr "`abc`") 2 = Some (str "abc").
Proof. repeat split; vm_compute; reflexivity. Qed.

End QuoteFacts.

(** ** The ids of the related view *)
Module IdFacts.
Import Re Vs Ctl Stated.

Lemma valueEnd_app s : forall v rest,
  valueEnd s = Some (v, rest) -> s = v ++ dquote :: rest.
Proof.
  induction s as [|x s IH]; intros v rest; simpl; [discriminate|].
  destruct (Ascii.eqb x dquote) eqn:Hq.
  - apply Ascii.eqb_eq in Hq. intros [= <- <-]. rewrite Hq. reflexivity.
  - destruct (isLineTerminator x); [discriminate|].
    destruct (valueEnd s) as [[v' rest']|]; [|discriminate].
    intros [= <- <-]. rewrite (IH v' rest' eq_refl). reflexivity.
Qed.

Lemma idAt_app s v rest :
  idAt s = Some (v, rest) ->
  s = str "id=" ++ [dquote] ++ v ++ [dquote] ++ rest /\ v <> [].
Proof.
  unfold idAt. destruct s as [|i [|d [|e [|q [|c s]]]]]; try discriminate.
  destruct (_ && _) eqn:Hc; [|discriminate].
  repeat (apply andb_true_iff in Hc as [Hc ?]).
  destruct (valueEnd s) as [[v' rest']|] eqn:Hv; [|discriminate].
  intros [= <- <-]. apply valueEnd_app in Hv.
  repeat match goal with H : Ascii.eqb _ _ = true |- _ =>
    apply Ascii.eqb_eq in H end.
  subst. split; [reflexivity | discriminate].
Qed.

(** The lazy [.+?] behind its first character, up to the closing quote. *)
Lemma lazy_dots whole : forall n s,
  length s <= n ->
  starLoop (run false Dot) [] false (closing whole) n s []
  = match valueEnd s with
    | Some (v, rest) =>
        Some (rest, [(1, firstn (length whole - S (length rest)) whole)])
    | None => None
    end.
Proof.
  induction n as [|n IH]; intros s Hn.
  - destruct s; [reflexivity | simpl in Hn; lia].
  - cbn [starLoop]. destruct s as [|x s]; [reflexivity|].
    unfold closing at 1. cbn [run charMatches].
    cbn [valueEnd]. rewrite (Ascii.eqb_sym dquote x).
    destruct (Ascii.eqb x dquote); [reflexivity|].
    cbn [clearGroups List.filter Dot run classMatches].
    destruct (isLineTerminator x); [reflexivity|]. cbn [negb].
    assert ((length s <? length (x :: s)) = true) as ->
      by (apply Nat.ltb_lt; simpl; lia).
    rewrite IH by (simpl in Hn; lia).
    destruct (valueEnd s) as [[v rest]|]; reflexivity.
Qed.

(** The pattern at the front of a text finds the occurrence there. *)
Lemma run_reIdAttr s :
  run false (source reIdAttr) s [] accept
  = match idAt s with
    | Some (v, rest) => Some (rest, [(1, v)])
    | None => None
    end.
Proof.
  unfold idAt.
  destruct s as [|i [|d [|e [|q [|c s]]]]];
    cbn [source reIdAttr literal_g Cat Lit str list_ascii_of_string run
         charMatches Plus];
    try (repeat first [reflexivity | destruct (Ascii.eqb _ _)]; fail).
  rewrite (Ascii.eqb_sym _ i), (Ascii.eqb_sym _ d), (Ascii.eqb_sym _ e),
    (Ascii.eqb_sym _ q).
  destruct (Ascii.eqb i "i"); [|reflexivity].
  destruct (Ascii.eqb d "d"); [|reflexivity].
  destruct (Ascii.eqb e "="); [|reflexivity].
  destruct (Ascii.eqb q dquote); [|reflexivity].
  cbn [andb Dot run classMatches].
  destruct (isLineTerminator c); [reflexivity|]. cbn [negb groupsOf].
  match goal with
  | |- starLoop ?body ?inner false ?k (length s) s [] = _ =>
      change (starLoop body inner false k (length s) s [])
        with (starLoop (run false Dot) [] false (closing (c :: s))
                (length s) s [])
  end.
  rewrite lazy_dots by lia.
  destruct (valueEnd s) as [[v rest]|] eqn:Hv; [|reflexivity].
  apply valueEnd_app in Hv. subst s.
  f_equal. f_equal. f_equal. f_equal.
  cbn [length]. rewrite length_app. cbn [length].
  replace (S (length v + S (length rest)) - S (length rest))
    with (S (length v)) by lia.
  cbn [firstn]. f_equal. rewrite take_app_length. reflexivity.
Qed.

(** The search finds the leftmost occurrence. *)
Lemma search_reIdAttr s : forall i,
  match nextId s with
  | None => search false (source reIdAttr) s i = None
  | Some (v, rest) =>
      (exists j from,
         search false (source reIdAttr) s i = Some (j, from, (rest, [(1, v)])))
      /\ exists pre, s = pre ++ rest /\ pre <> []
  end.
Proof.
  induction s as [|x s IH]; intros i; cbn [search nextId];
    rewrite run_reIdAttr.
  - reflexivity.
  - destruct (idAt (x :: s)) as [[v rest]|] eqn:Hat.
    + split; [eexists; eexists; reflexivity|].
      apply idAt_app in Hat as [Hs _].
      exists (str "id=" ++ [dquote] ++ v ++ [dquote]).
      split; [rewrite Hs, <- !app_assoc; reflexivity | discriminate].
    + specialize (IH (S i)). destruct (nextId s) as [[v rest]|]; [|exact IH].
      destruct IH as [(j & from & Hs) (pre & Hp & _)].
      split; [eexists; eexists; exact Hs|].
      exists (x :: pre). rewrite Hp. split; [reflexivity | discriminate].
Qed.

(** One [exec] of the id pattern with [lastIndex] at [li]: the next
    occurrence, and [lastIndex] behind it. *)
Lemma exec_reIdAttr text li :
  li <= length text ->
  match nextId (skipn li text) with
  | None => fst (exec (setLastIndex reIdAttr li) text) = None
  | Some (v, rest) =>
      exists matches,
        exec (setLastIndex reIdAttr li) text
        = (Some matches, setLastIndex reIdAttr (length text - length rest))
        /\ group1 matches = v
        /\ skipn (length text - length rest) text = rest
        /\ length rest < length text - li
  end.
Proof.
  intros Hle. unfold exec.
  cbn [setLastIndex reIdAttr literal_g global sticky orb lastIndex source
       ignoreCase].
  assert ((length text <? li) = false) as -> by (apply Nat.ltb_ge; lia).
  pose proof (search_reIdAttr (skipn li text) li) as H.
  destruct (nextId (skipn li text)) as [[v rest]|].
  - destruct H as [(j & from & Hs) (pre & Hp & Hne)].
    cbn [source reIdAttr literal_g] in Hs. rewrite Hs.
    assert (Hlen : length text - li = length pre + length rest).
    { rewrite <- length_drop, Hp, length_app. reflexivity. }
    assert (0 < length pre) by (destruct pre; [congruence | simpl; lia]).
    eexists. split; [reflexivity|]. split; [reflexivity|]. split; [|lia].
    replace (length text - length rest) with (li + length pre) by lia.
    rewrite <- drop_drop, Hp, drop_app_length. reflexivity.
  - cbn [source reIdAttr literal_g] in H. rewrite H. reflexivity.
Qed.

Lemma arrayIncludes_In l x : Js.arrayIncludes l x = true <-> In x l.
Proof.
  unfold Js.arrayIncludes. rewrite existsb_exists. split.
  - intros (y & Hy & He). apply bool_decide_eq_true in He. subst. exact Hy.
  - intros H. exists x. split; [exact H | apply bool_decide_eq_true; reflexivity].
Qed.

(** The loop collects the values of the occurrences that are left, each
    once. It ends after at most one [exec] per character left, and one. *)
Lemma idLoop_spec text fileName : forall fuel li seen acc n,
  li <= length text ->
  length text - li < fuel ->
  length text - li <= n ->
  idLoop fuel (setLastIndex reIdAttr li) text fileName seen acc
  = Some (acc ++ map (idItem fileName)
                   (distinct seen (idValuesFrom n (skipn li text)))).
Proof.
  induction fuel as [|fuel IH]; intros li seen acc n Hle Hfuel Hn; [lia|].
  cbn [idLoop].
  pose proof (exec_reIdAttr text li Hle) as H.
  destruct (nextId (skipn li text)) as [[v rest]|] eqn:Hnext.
  - destruct H as (matches & He & Hg & Hd & Hlt).
    rewrite He, Hg. destruct n as [|n]; [lia|].
    cbn [idValuesFrom]. rewrite Hnext. cbn [distinct].
    assert (Hrest : length rest <= length text).
    { rewrite <- Hd, length_drop. lia. }
    destruct (in_dec (list_eq_dec ascii_dec) v seen) as [Hin|Hnin].
    + apply arrayIncludes_In in Hin. rewrite Hin.
      rewrite (IH _ seen acc n); [rewrite Hd; reflexivity|lia|lia|lia].
    + assert (Js.arrayIncludes seen v = false) as ->.
      { destruct (Js.arrayIncludes seen v) eqn:Hi; [|reflexivity].
        apply arrayIncludes_In in Hi. contradiction. }
      rewrite (IH _ (seen ++ [v]) (acc ++ [idItem fileName v]) n);
        [|lia|lia|lia].
      rewrite Hd, <- app_assoc. reflexivity.
  - destruct (exec (setLastIndex reIdAttr li) text) as [m R']. simpl in H.
    subst m.
    assert (idValuesFrom n (skipn li text) = []) as ->.
    { destruct n; [reflexivity|]. cbn [idValuesFrom]. rewrite Hnext.
      reflexivity. }
    simpl. rewrite app_nil_r. reflexivity.
Qed.

Lemma distinct_In l : forall seen x,
  In x (distinct seen l) <-> In x l /\ ~ In x seen.
Proof.
  induction l as [|y l IH]; intros seen x; cbn [distinct].
  - simpl. tauto.
  - destruct (in_dec (list_eq_dec ascii_dec) y seen) as [Hin|Hnin].
    + rewrite IH. simpl. split; [tauto|].
      intros [[<-|H] Hn]; [contradiction | tauto].
    + simpl. rewrite IH, in_app_iff. simpl.
      destruct (list_eq_dec ascii_dec y x) as [<-|Hne]; [tauto|].
      split.
      * intros [H|[H Hn]]; [contradiction | tauto].
      * intros [[H|H] Hn]; [contradiction|]. right. split; [exact H|].
        intros [Hs|[Hs|[]]]; [contradiction | congruence].
Qed.

Lemma distinct_NoDup l : forall seen, NoDup (distinct seen l).
Proof.
  induction l as [|y l IH]; intros seen; cbn [distinct]; [constructor|].
  destruct (in_dec (list_eq_dec ascii_dec) y seen); [apply IH|].
  constructor; [|apply IH].
  rewrite distinct_In, in_app_iff. simpl. tauto.
Qed.

Lemma nextId_app s : forall v rest,
  nextId s = Some (v, rest) ->
  v <> [] /\ exists pre, s = pre ++ str "id=" ++ [dquote] ++ v ++ [dquote] ++ rest.
Proof.
  induction s as [|x s IH]; intros v rest; cbn [nextId].
  - destruct (idAt []) as [[v' r']|] eqn:Hat; [|discriminate].
    intros [= <- <-]. apply idAt_app in Hat as [Hs Hv].
    split; [exact Hv | exists []; exact Hs].
  - destruct (idAt (x :: s)) as [[v' r']|] eqn:Hat.
    + intros [= <- <-]. apply idAt_app in Hat as [Hs Hv].
      split; [exact Hv | exists []; exact Hs].
    + intros H. apply IH in H as [Hv [pre Hs]].
      split; [exact Hv | exists (x :: pre); rewrite Hs; reflexivity].
Qed.

(** Every value found stands in the text between [id=`] and a double
    quote, and is not empty. *)
Lemma idValuesFrom_occur n : forall s v,
  In v (idValuesFrom n s) ->
  v <> []
  /\ exists pre post, s = pre ++ str "id=" ++ [dquote] ++ v ++ [dquote] ++ post.
Proof.
  induction n as [|n IH]; intros s v; cbn [idValuesFrom]; [intros []|].
  destruct (nextId s) as [[v0 rest]|] eqn:Hn; [|intros []].
  apply nextId_app in Hn as [Hv [pre Hs]].
  intros [<-|Hin].
  - split; [exact Hv | exists pre, rest; exact Hs].
  - apply IH in Hin as [Hv' (pre' & post' & Hr)]. split; [exact Hv'|].
    exists (pre ++ str "id=" ++ [dquote] ++ v0 ++ [dquote] ++ pre'), post'.
    rewrite Hs, Hr. rewrite <- !app_assoc. reflexivity.
Qed.

(** The bound on the number of occurrences does not cut any off. *)
Lemma idValuesFrom_enough n : forall m s,
  length s <= n -> length s <= m -> idValuesFrom n s = idValuesFrom m s.
Proof.
  induction n as [|n IH]; intros m s Hn Hm.
  - destruct s; [|simpl in Hn; lia]. destruct m; reflexivity.
  - destruct m as [|m].
    + destruct s; [reflexivity | simpl in Hm; lia].
    + cbn [idValuesFrom].
      destruct (nextId s) as [[v rest]|] eqn:Hnext; [|reflexivity].
      apply nextId_app in Hnext as [_ [pre Hs]].
      assert (length rest < length s).
      { rewrite Hs, !length_app. simpl. lia. }
      f_equal. apply IH; lia.
Qed.

(** The values of a text: that of its leftmost occurrence, then those
    of the text behind it. *)
Lemma idValues_unfold text :
  idValues text
  = match nextId text with
    | Some (v, rest) => v :: idValues rest
    | None => []
    end.
Proof.
  unfold idValues. destruct text as [|x text]; [reflexivity|].
  cbn [length idValuesFrom].
  destruct (nextId (x :: text)) as [[v rest]|] eqn:Hnext; [|reflexivity].
  apply nextId_app in Hnext as [_ [pre Hs]].
  f_equal. apply idValuesFrom_enough; [|lia].
  apply (f_equal (@length ascii)) in Hs. rewrite !length_app in Hs.
  simpl in Hs. lia.
Qed.

(** What the scan of [getIdCompletions] comes to.  It returns the empty
    list when no related view file can be determined; otherwise it
    scans the text of the related view from left to right for [id=`],
    one character that is not a line terminator and the fewest further
    characters of the line up to a double quote, each search starting
    behind the match before, and returns one completion item per
    distinct string found between [id=`] and that quote, labelled with
    it, in the order of first occurrence. *)
Theorem getIdCompletions_one_item_per_value (E : Env) :
  getIdCompletions E
  = match relatedXml E with
    | None => Returns []
    | Some relatedFile =>
        match files E !! relatedFile with
        | None => Throws
        | Some text =>
            Returns (map (fun v => mkItem v Reference
                                     (Some (Js.lastPiece (Js.split "/" relatedFile)))
                                     None None)
                         (distinct [] (idValues text)))
        end
    end
  /\ forall text,
       idValues text
       = match nextId text with
         | Some (v, rest) => v :: idValues rest
         | None => []
         end
       /\ NoDup (distinct [] (idValues text))
       /\ (forall v, In v (distinct [] (idValues text)) <-> In v (idValues text))
       /\ (forall v, In v (idValues text) ->
             v <> []
             /\ exists pre post,
                  text = pre ++ str "id=" ++ [dquote] ++ v ++ [dquote] ++ post).
Proof.
  split.
  - unfold getIdCompletions.
    destruct (relatedXml E) as [relatedFile|]; [|reflexivity].
    destruct (files E !! relatedFile) as [text|]; [|reflexivity].
    change reIdAttr with (setLastIndex reIdAttr 0).
    rewrite (idLoop_spec text _ (S (length text)) 0 [] [] (length text));
      [reflexivity|lia|lia|lia].
  - intros text. split; [apply idValues_unfold|].
    split; [apply distinct_NoDup|]. split.
    + intros v. rewrite distinct_In. simpl. tauto.
    + intros v. apply idValuesFrom_occur.
Qed.

(** C3, at a failing input.  The view is [<View id=`` class=`c`/>]:
    its one id attribute has the empty value, and the text [` class=]
    is the value of no id attribute.  The pattern asks for at least one
    character behind [id=`] and lets its dot take the closing quote, so
    [getIdCompletions] offers one item, labelled [` class=].  For the
    same element with the id [a] it offers the id, as the claim says. *)
Theorem getIdCompletions_offers_text_behind_empty_id :
  getIdCompletions
    (Samples.project (Some Samples.viewPath)
       {[ Samples.viewPath := Samples.emptyIdView ]})
  = Returns [idItem (str "index.xml") (qstr "` class=")]
  /\ idAttributeValue Samples.emptyIdView []
  /\ ~ idAttributeValue Samples.emptyIdView (qstr "` class=")
  /\ getIdCompletions
       (Samples.project (Some Samples.viewPath)
          {[ Samples.viewPath := qstr "<View id=`a` class=`c`/>" ]})
     = Returns [idItem (str "index.xml") (str "a")].
Proof.
  split; [vm_compute; reflexivity|]. split; [|split].
  - split; [|intros []].
    exists (str "<View "), (qstr " class=`c`/>"). reflexivity.
  - intros [_ H]. apply H. left. reflexivity.
  - vm_compute. reflexivity.
Qed.

End IdFacts.

(** ** The model at work *)
Module Examples.
Import Re Vs Ctl Def Stated Samples.

(** The arms of the chain on typical line prefixes. *)
Example classify_prefixes :
  map (fun prefix => classify [cfgRule] prefix (mkPosition 0 (length prefix)))
      [str "$.bt"; str "$.btn.se"; str "var w = Ti.UI.cr";
       str "$.btn.addEventListener('cl"; str "require('ut";
       str "Alloy.createController('ho"; str "Alloy.createModel('us";
       str "Alloy.createWidget('com."; str "Alloy.Glo"; str "CFG.ke";
       str "var x = 1"]
  = [IdBranch; MemberBranch; TitaniumBranch; EventBranch; RequireBranch;
     ControllerBranch; ModelBranch; WidgetBranch; AlloyBranch; RuleBranch 0;
     NoBranch].
Proof. vm_compute. reflexivity. Qed.

(** An id that holds [ti] is taken for a Titanium API path before the
    event pattern is tried. *)
Example classify_title_listener :
  classify [] (str "$.title.addEventListener('") (mkPosition 0 26)
  = TitaniumBranch.
Proof. vm_compute. reflexivity. Qed.

(** The API name and the fragment of some paths. *)
Example apiPath_samples :
  map apiPath [str "w = Ti.UI."; str "Ti.UI.cr"; str "Ti.UI.iO";
               str "Ti.UI.iOS."; str "Titanium.UI."; str "Ti"]
  = [Some (str "Ti.UI", None); Some (str "Ti.UI", Some (str "cr"));
     Some (str "Ti.UI.iO", None); Some (str "Ti.UI.iOS", None); None; None].
Proof. vm_compute. reflexivity. Qed.

Example titanium_classes_and_members :
  map label (getTitaniumApiCompletions env (str "w = Ti.UI."))
  = [str "Ti.UI"; str "Ti.UI.Button"; str "Ti.UI.iOS";
     str "createButton"; str "createWindow"; str "backgroundColor"].
Proof. vm_compute. reflexivity. Qed.

Example titanium_members_of_fragment :
  map label (getTitaniumApiCompletions env (str "Ti.UI.Button.e"))
  = [str "addEventListener"; str "removeEventListener"; str "title"].
Proof. vm_compute. reflexivity. Qed.

(** The ids of a view: found once each, in order; [textid] counts. *)
Example ids_of_a_view :
  labelsOf (getIdCompletions
              (project (Some viewPath)
                 {[ viewPath :=
                      qstr "<View id=`a`><Label id=`b` textid=`hi`/>"
                      ++ lf ++ qstr "<View id=`a`/></View>" ]}))
  = [str "a"; str "b"; str "hi"].
Proof. vm_compute. reflexivity. Qed.

Example no_related_view :
  getIdCompletions (project None ∅) = Returns [].
Proof. reflexivity. Qed.

(** The members of the tag behind an id. *)
Example members_of_button :
  labelsOf (getMethodAndPropertyCompletions env (str "$.btn."))
  = [str "addEventListener"; str "removeEventListener"; str "deprecatedHide";
     str "title"; str "color"].
Proof. vm_compute. reflexivity. Qed.

(** The string under the cursor; a quote right at the cursor column is
    neither before nor after it. *)
Example value_in_quotes :
  map (fun column => definitionValue (qstr "a = L(`hi`) + 'yo'") column)
      [3; 7; 8; 9; 12; 16; 18]
  = [Some []; Some (str "hi"); Some (str "hi"); Some (qstr "hi`) + ");
     Some (str ") + "); Some (str "yo"); Some []].
Proof. vm_compute. reflexivity. Qed.

(** Three updates, the second of which fails: all three are run, in
    the order of their priorities. *)
Example install_three :
  let u name p := Ext.mkUpdate None (str name) (str "1.0") p in
  let fails (update : Ext.Update) (s : unit) :=
    (if bool_decide (Ext.productName update = str "sdk")
     then Some (Ext.mkError None) else None, s) in
  let r := Ext.installUpdates unit fails (fun _ => false) (str "installer")
             [u "cli" 30%Z; u "sdk" 20%Z; u "installer" 10%Z] true tt in
  map Ext.productName (attempts (fst (fst (fst r))))
  = [str "installer"; str "sdk"; str "cli"]
  /\ snd (fst r) = 4 /\ increments (fst (fst (fst r))) = 3
  /\ snd r = Returns tt.
Proof. vm_compute. repeat split; reflexivity. Qed.

End Examples.

(** ** Matching, pattern by pattern *)
Module MatchFacts.
Import Re.

Lemma clearGroups_nil c : clearGroups [] c = c.
Proof.
  unfold clearGroups. induction c as [|kv c IH]; [reflexivity|].
  cbn [List.filter existsb negb]. f_equal. exact IH.
Qed.

(** A run of literal characters matches when the text starts with it. *)
Lemma run_Lit t : forall s c k,
  run false (Lit t) s c k
  = if Js.startsWith t s then k (skipn (length t) s) c else None.
Proof.
  induction t as [|a t IH]; intros s c k; [reflexivity|].
  destruct t as [|b t].
  - cbn [Lit run charMatches Js.startsWith length].
    destruct s as [|x s]; [reflexivity|].
    destruct (Ascii.eqb a x); reflexivity.
  - change (Lit (a :: b :: t)) with (Seq (Char a) (Lit (b :: t))).
    cbn [run charMatches]. destruct s as [|x s]; [reflexivity|].
    cbn [Js.startsWith]. destruct (Ascii.eqb a x); [|reflexivity].
    rewrite IH. reflexivity.
Qed.

Lemma run_Seq ic r1 r2 s c k :
  run ic (Seq r1 r2) s c k = run ic r1 s c (fun s' c' => run ic r2 s' c' k).
Proof. reflexivity. Qed.

Lemma run_class p s c k :
  run false (CharSet p) s c k
  = match s with
    | [] => None
    | x :: s' => if p x then k s' c else None
    end.
Proof. reflexivity. Qed.

(** A greedy star over a character class hands the continuation a rest
    behind a run of characters of the class. *)
Lemma star_class_sound p k : forall n s c st,
  starLoop (run false (CharSet p)) [] true k n s c = Some st ->
  exists x rest, s = x ++ rest /\ forallb p x = true /\ k rest c = Some st.
Proof.
  induction n as [|n IH]; intros s c st; cbn [starLoop].
  - intros H. exists [], s. auto.
  - rewrite clearGroups_nil, run_class.
    destruct s as [|a s].
    + intros H. exists [], []. auto.
    + destruct (p a) eqn:Hp.
      * assert ((length s <? length (a :: s)) = true) as ->
          by (apply Nat.ltb_lt; simpl; lia).
        destruct (starLoop (run false (CharSet p)) [] true k n s c)
          as [st'|] eqn:Hs.
        -- intros [= <-]. apply IH in Hs as (x & rest & -> & Hx & Hk).
           exists (a :: x), rest. split; [reflexivity|].
           split; [simpl; rewrite Hp, Hx; reflexivity | exact Hk].
        -- intros H. exists [], (a :: s). auto.
      * intros H. exists [], (a :: s). auto.
Qed.

(** ... and it matches whenever the continuation accepts behind some run
    of characters of the class. *)
Lemma star_class_complete p k : forall x n rest c st,
  length (x ++ rest) <= n ->
  forallb p x = true ->
  k rest c = Some st ->
  exists st', starLoop (run false (CharSet p)) [] true k n (x ++ rest) c = Some st'.
Proof.
  induction x as [|a x IH]; intros n rest c st Hn Hx Hk.
  - destruct n as [|n]; cbn [starLoop app]; [eauto|].
    match goal with
    | |- context [match ?t with Some _ => _ | None => _ end] =>
        destruct t; eauto
    end.
  - simpl in Hx. apply andb_true_iff in Hx as [Ha Hx].
    destruct n as [|n]; [simpl in Hn; lia|].
    cbn [starLoop app]. rewrite clearGroups_nil, run_class.
    rewrite Ha.
    assert ((length (x ++ rest) <? length (a :: x ++ rest)) = true) as ->
      by (apply Nat.ltb_lt; simpl; lia).
    destruct (IH n rest c st ltac:(simpl in Hn; lia) Hx Hk) as [st' Hs].
    rewrite Hs. eauto.
Qed.

(** What a search finds: the first start position at which the pattern
    matches. *)
Lemma search_Some ic r s : forall i j from st,
  search ic r s i = Some (j, from, st) ->
  exists p, j = i + p /\ p <= length s /\ from = skipn p s
    /\ run ic r from [] accept = Some st
    /\ forall q, q < p -> run ic r (skipn q s) [] accept = None.
Proof.
  induction s as [|x s IH]; intros i j from st; cbn [search].
  - destruct (run ic r [] [] accept) as [st'|] eqn:Hr; [|discriminate].
    intros [= <- <- <-]. exists 0. rewrite Nat.add_0_r.
    split; [reflexivity|]. split; [lia|]. split; [reflexivity|].
    split; [exact Hr|]. intros q Hq. lia.
  - destruct (run ic r (x :: s) [] accept) as [st'|] eqn:Hr.
    + intros [= <- <- <-]. exists 0. rewrite Nat.add_0_r.
      split; [reflexivity|]. split; [lia|]. split; [reflexivity|].
      split; [exact Hr|]. intros q Hq. lia.
    + intros H. apply IH in H as (p & -> & Hp & -> & Hrun & Hbefore).
      exists (S p). split; [lia|]. split; [simpl; lia|].
      split; [reflexivity|]. split; [exact Hrun|].
      intros [|q] Hq; [exact Hr | apply Hbefore; lia].
Qed.

Lemma search_None ic r s : forall i,
  search ic r s i = None ->
  forall p, p <= length s -> run ic r (skipn p s) [] accept = None.
Proof.
  induction s as [|x s IH]; intros i; cbn [search].
  - destruct (run ic r [] [] accept) eqn:Hr; [discriminate|].
    intros _ p Hp. destruct p; exact Hr.
  - destruct (run ic r (x :: s) [] accept) eqn:Hr; [discriminate|].
    intros H [|p] Hp; [exact Hr|]. apply (IH _ H). simpl in Hp. lia.
Qed.

(** A pattern literal without flags tests true when the pattern matches
    at some start position. *)
Lemma testLit_literal r input :
  testLit (literal r) input = true
  <-> exists p st, p <= length input
        /\ run false r (skipn p input) [] accept = Some st.
Proof.
  unfold testLit, test, exec. cbn [literal global sticky orb source ignoreCase].
  change (skipn 0 input) with input.
  destruct (search false r input 0) as [[[j from] [rest caps]]|] eqn:Hs.
  - split; [intros _|reflexivity].
    apply search_Some in Hs as (p & _ & Hp & -> & Hr & _). eauto.
  - split; [discriminate|]. intros (p & st & Hp & Hr).
    rewrite (search_None _ _ _ _ Hs p Hp) in Hr. discriminate.
Qed.

End MatchFacts.

(** ** When ids and members are offered *)
Module IdBranchFacts.
Import Re Vs Ctl Stated MatchFacts.

(** A group around a greedy star over a class: what it hands on. *)
Lemma group_star_sound n p s c k st :
  run false (Group n (Star true (CharSet p))) s c k = Some st ->
  exists x rest, s = x ++ rest /\ forallb p x = true
    /\ k rest ((n, x) :: c) = Some st.
Proof.
  cbn [run groupsOf]. intros H.
  apply star_class_sound in H as (x & rest & -> & Hx & Hk).
  exists x, rest. split; [reflexivity|]. split; [exact Hx|].
  rewrite length_app in Hk.
  replace (length x + length rest - length rest) with (length x) in Hk by lia.
  rewrite take_app_length in Hk. exact Hk.
Qed.

Lemma group_star_complete n p x rest c k st :
  forallb p x = true ->
  k rest ((n, x) :: c) = Some st ->
  exists st', run false (Group n (Star true (CharSet p))) (x ++ rest) c k = Some st'.
Proof.
  intros Hx Hk. cbn [run groupsOf].
  eapply star_class_complete; [reflexivity | exact Hx |].
  rewrite length_app.
  replace (length x + length rest - length rest) with (length x) by lia.
  rewrite take_app_length. exact Hk.
Qed.

(** The id pattern at the front of a text: [$.] and id characters up to
    the end. *)
Lemma run_reId s :
  (exists st, run false (source reId) s [] accept = Some st)
  <-> exists x, s = str "$." ++ x /\ forallb idChar x = true.
Proof.
  change (source reId)
    with (Seq (Lit (str "$."))
              (Seq (Group 1 (Star true (CharSet idChar))) AssertEnd)).
  rewrite run_Seq, run_Lit. split.
  - intros [st H].
    destruct (Js.startsWith (str "$.") s) eqn:Hs; [|discriminate].
    apply JsFacts.startsWith_prefix in Hs as [rest ->].
    change (skipn (length (str "$.")) (str "$." ++ rest)) with rest in H.
    rewrite run_Seq in H.
    apply group_star_sound in H as (x & tail & -> & Hx & Hk).
    cbn [run] in Hk. destruct tail; [|discriminate].
    exists x. rewrite app_nil_r. auto.
  - intros (x & -> & Hx).
    change (Js.startsWith (str "$.") (str "$." ++ x)) with true.
    change (skipn (length (str "$.")) (str "$." ++ x)) with x.
    cbv iota. rewrite run_Seq. rewrite <- (app_nil_r x).
    eapply (group_star_complete 1 idChar x []); [exact Hx | reflexivity].
Qed.

(** The pattern the member handler reads the id with: the same, with a
    dot allowed at the end. *)
Lemma run_reIdDot s st :
  run false (source reIdDot) s [] accept = Some st ->
  exists x, forallb idChar x = true
    /\ (s = str "$." ++ x \/ s = str "$." ++ x ++ str ".").
Proof.
  change (source reIdDot)
    with (Seq (Lit (str "$."))
              (Seq (Group 1 (Star true (CharSet idChar)))
                   (Seq (Opt (Char ".")) AssertEnd))).
  rewrite run_Seq, run_Lit.
  destruct (Js.startsWith (str "$.") s) eqn:Hs; [|discriminate].
  apply JsFacts.startsWith_prefix in Hs as [rest ->].
  change (skipn (length (str "$.")) (str "$." ++ rest)) with rest.
  rewrite run_Seq.
  intros H. apply group_star_sound in H as (x & tail & -> & Hx & Hk).
  exists x. split; [exact Hx|].
  cbn [run Opt charMatches] in Hk.
  destruct tail as [|d tail]; [left; rewrite app_nil_r; reflexivity|].
  destruct (Ascii.eqb "." d) eqn:Hd; [|discriminate].
  apply Ascii.eqb_eq in Hd. subst d.
  destruct tail; [right; reflexivity | discriminate].
Qed.

(** The id pattern tests true on the texts that end in [$.] and id
    characters. *)
Lemma testLit_reId linePrefix :
  testLit reId linePrefix = true
  <-> exists pre x, linePrefix = pre ++ str "$." ++ x /\ forallb idChar x = true.
Proof.
  change reId with (literal (source reId)). rewrite testLit_literal. split.
  - intros (p & st & Hp & Hr).
    destruct (proj1 (run_reId _) (ex_intro _ st Hr)) as (x & Hs & Hx).
    exists (firstn p linePrefix), x. rewrite <- Hs, firstn_skipn. auto.
  - intros (pre & x & -> & Hx).
    destruct (proj2 (run_reId (str "$." ++ x)) (ex_intro _ x (conj eq_refl Hx)))
      as [st Hr].
    exists (length pre), st. rewrite drop_app_length, length_app.
    split; [lia | exact Hr].
Qed.

(** Only the first arm of the chain is the id arm. *)
Lemma classify_IdBranch rules document position :
  classify rules document position = IdBranch
  <-> testLit reId (linePrefixOf document position) = true.
Proof.
  unfold classify, cascade. set (lp := linePrefixOf document position).
  destruct (testLit reId lp); [tauto|].
  split; [|discriminate].
  CascadeFacts.chain_cases ltac:(discriminate).
  pose proof (CascadeFacts.ruleLoop_names rules lp 0) as H.
  destruct (ruleLoop (onRule branchNames) 0 rules lp) as [[b|] rs];
    simpl in *; [|discriminate].
  intros ->. discriminate.
Qed.


(** The member arm is the second one. *)
Lemma classify_MemberBranch rules document position :
  classify rules document position = MemberBranch ->
  testLit reId (linePrefixOf document position) = false
  /\ testLit reMember (linePrefixOf document position) = true.
Proof.
  unfold classify, cascade. set (lp := linePrefixOf document position).
  destruct (testLit reId lp); [discriminate|].
  destruct (testLit reMember lp); [auto|].
  CascadeFacts.chain_cases ltac:(discriminate).
  pose proof (CascadeFacts.ruleLoop_names rules lp 0) as H.
  destruct (ruleLoop (onRule branchNames) 0 rules lp) as [[b|] rs];
    simpl in *; [|discriminate].
  intros ->. discriminate.
Qed.

(** Where the id pattern fails, the member handler's pattern matches
    only texts that end in a dot. *)
Lemma reIdDot_needs_dot linePrefix :
  testLit reId linePrefix = false ->
  Js.endsWithChar "." linePrefix = false ->
  matchOf reIdDot linePrefix = None.
Proof.
  intros Hid Hdot. unfold matchOf, exec.
  cbn [reIdDot literal global sticky orb ignoreCase].
  change (skipn 0 linePrefix) with linePrefix.
  destruct (search _ _ _ _) as [[[j from] [rest caps]]|] eqn:Hs; [|reflexivity].
  exfalso. apply search_Some in Hs as (p & _ & Hp & -> & Hr & _).
  apply run_reIdDot in Hr as (x & Hx & [Hs|Hs]).
  - assert (testLit reId linePrefix = true); [|congruence].
    apply testLit_reId. exists (firstn p linePrefix), x.
    rewrite <- Hs, firstn_skipn. auto.
  - assert (Js.endsWithChar "." linePrefix = true); [|congruence].
    rewrite <- (firstn_skipn p linePrefix), Hs.
    unfold Js.endsWithChar. rewrite !rev_app_distr. reflexivity.
Qed.

(** X2. In the member arm, completions can come only right behind the
    dot: when the text before the cursor does not end in a dot (a first
    character of the member name is typed), the pattern the handler
    reads the id with does not match, and [provideCompletionItems]
    throws. *)
Theorem member_arm_throws_behind_typed_member
  (E : Env) (rules : list Rule) (document : TextDocument) (position : Position) :
  classify rules document position = MemberBranch ->
  Js.endsWithChar "." (linePrefixOf document position) = false ->
  fst (provideCompletionItems E rules document position) = Throws.
Proof.
  intros Hc Hdot. apply classify_MemberBranch in Hc as [Hid Hm].
  unfold provideCompletionItems, cascade. rewrite Hid, Hm.
  cbn [fst handlers onMember]. unfold getMethodAndPropertyCompletions.
  rewrite (reIdDot_needs_dot _ Hid Hdot). reflexivity.
Qed.

Lemma member_arm_throws_behind_typed_member_witness :
  classify [] (str "$.btn.se") (mkPosition 0 8) = MemberBranch
  /\ Js.endsWithChar "." (linePrefixOf (str "$.btn.se") (mkPosition 0 8)) = false
  /\ fst (provideCompletionItems Samples.env [] (str "$.btn.se") (mkPosition 0 8))
     = Throws.
Proof.
  assert (H1 : classify [] (str "$.btn.se") (mkPosition 0 8) = MemberBranch)
    by (vm_compute; reflexivity).
  assert (H2 : Js.endsWithChar "."
                 (linePrefixOf (str "$.btn.se") (mkPosition 0 8)) = false)
    by (vm_compute; reflexivity).
  split; [exact H1|]. split; [exact H2|].
  exact (member_arm_throws_behind_typed_member Samples.env []
           (str "$.btn.se") (mkPosition 0 8) H1 H2).
Defined.

End IdBranchFacts.

(** ** What the Titanium arm takes away from the arms behind it *)
Module ShadowFacts.
Import Re Vs Ctl Stated MatchFacts.

Lemma run_Alt ic r1 r2 s c k :
  run ic (Alt r1 r2) s c k
  = match run ic r1 s c k with
    | Some st => Some st
    | None => run ic r2 s c k
    end.
Proof. reflexivity. Qed.

Lemma run_Char ic a s c k :
  run ic (Char a) s c k
  = match s with
    | x :: s' => if charMatches ic a x then k s' c else None
    | [] => None
    end.
Proof. reflexivity. Qed.

(** A greedy star in front of the end of the pattern always matches. *)
Lemma star_accept_total body inner n s c :
  exists st, starLoop body inner true accept n s c = Some st.
Proof.
  destruct n as [|n]; cbn [starLoop]; [unfold accept; eauto|].
  destruct (body s (clearGroups inner c) _); unfold accept; eauto.
Qed.

(** An optional dot and one character that is no space: the tail of the
    Titanium pattern matches in front of any such character. *)
Lemma titanium_tail c post caps :
  isSpace c = false ->
  exists st,
    run true (Seq (Opt (Char ".")) (Plus true NotSpace)) (c :: post) caps accept
    = Some st.
Proof.
  intros Hc. rewrite run_Seq. unfold Opt. rewrite run_Alt.
  match goal with
  | |- context [match ?t with Some _ => _ | None => _ end] =>
      destruct t as [st|]; [eauto|]
  end.
  cbn [run]. unfold Plus, NotSpace. rewrite run_Seq. cbn [run classMatches].
  rewrite Hc. cbn [negb orb].
  apply star_accept_total.
Qed.

(** The Titanium pattern matches in front of [t], [i] (in either case)
    and a character that is no space. *)
Lemma run_reTitanium a b c post :
  toUpper a = "T"%char -> toUpper b = "I"%char -> isSpace c = false ->
  exists st, run true (source reTitanium) (a :: b :: c :: post) [] accept = Some st.
Proof.
  intros Ha Hb Hc.
  change (source reTitanium)
    with (Seq (Alt (Lit (str "Ti")) (Lit (str "Titanium")))
              (Seq (Opt (Char ".")) (Plus true NotSpace))).
  rewrite run_Seq, run_Alt.
  change (Lit (str "Ti")) with (Seq (Char "T") (Char "i")).
  rewrite run_Seq, run_Char. unfold charMatches. rewrite Ha.
  change (Ascii.eqb (toUpper "T") "T") with true. cbv iota.
  rewrite run_Char. unfold charMatches. rewrite Hb.
  change (Ascii.eqb (toUpper "i") "I") with true. cbv iota.
  destruct (titanium_tail c post [] Hc) as [st Hst].
  rewrite Hst. eauto.
Qed.

(** A pattern object without the g and y flags tests true when its
    pattern matches at some start position. *)
Lemma testLit_flagless R input :
  global R = false -> sticky R = false ->
  (testLit R input = true
   <-> exists p st, p <= length input
         /\ run (ignoreCase R) (source R) (skipn p input) [] accept = Some st).
Proof.
  intros Hg Hy. unfold testLit, test, exec. rewrite Hg, Hy. cbn [orb].
  change (skipn 0 input) with input.
  destruct (search (ignoreCase R) (source R) input 0)
    as [[[j from] [rest caps]]|] eqn:Hs.
  - split; [intros _|reflexivity].
    apply search_Some in Hs as (p & _ & Hp & -> & Hr & _). eauto.
  - split; [discriminate|]. intros (p & st & Hp & Hr).
    rewrite (search_None _ _ _ _ Hs p Hp) in Hr. discriminate.
Qed.

(** The Titanium pattern tests true on every text that holds [ti], in
    either case, followed by a character that is no space. *)
Lemma testLit_reTitanium pre a b c post :
  In a [ "t"%char; "T"%char ] -> In b [ "i"%char; "I"%char ] ->
  isSpace c = false ->
  testLit reTitanium (pre ++ a :: b :: c :: post) = true.
Proof.
  intros Ha Hb Hc. apply testLit_flagless; [reflexivity | reflexivity|].
  destruct (run_reTitanium a b c post) as [st Hst]; [| |exact Hc|].
  - destruct Ha as [<-|[<-|[]]]; reflexivity.
  - destruct Hb as [<-|[<-|[]]]; reflexivity.
  - exists (length pre), st. rewrite drop_app_length, length_app.
    split; [lia | exact Hst].
Qed.



End ShadowFacts.

(** ** What the API arms look for *)
Module ApiPathFacts.
Import Re Vs Ctl Stated MatchFacts.

(** A search finds nothing where the pattern matches nowhere. *)
Lemma search_fails ic r s i :
  (forall p, p <= length s -> run ic r (skipn p s) [] accept = None) ->
  search ic r s i = None.
Proof.
  intros H. destruct (search ic r s i) as [[[j from] st]|] eqn:Hs; [|reflexivity].
  apply search_Some in Hs as (p & _ & Hp & -> & Hr & _).
  rewrite (H p Hp) in Hr. discriminate.
Qed.

Lemma matchOf_fails r input :
  (forall p, p <= length input -> run false r (skipn p input) [] accept = None) ->
  matchOf (literal r) input = None.
Proof.
  intros H. unfold matchOf, exec.
  cbn [literal global sticky orb ignoreCase source].
  change (skipn 0 input) with input.
  rewrite (search_fails _ _ _ _ H). reflexivity.
Qed.

(** The path pattern of the Titanium handler matches only at a [Ti.]. *)
Lemma run_reTiPath s :
  Js.startsWith (str "Ti.") s = false ->
  run false (source reTiPath) s [] accept = None.
Proof.
  intros H.
  cbn [source reTiPath literal Cat]. rewrite run_Seq.
  cbn [run]. rewrite run_Lit, H. reflexivity.
Qed.

Lemma pathParts_reTiPath linePrefix :
  Js.includes linePrefix (str "Ti.") = false ->
  pathParts reTiPath linePrefix = (None, None).
Proof.
  intros H. unfold pathParts.
  change reTiPath with (literal (source reTiPath)).
  rewrite matchOf_fails; [reflexivity|].
  intros p _. apply run_reTiPath.
  unfold Js.includes in H.
  destruct (Js.indexOf linePrefix (str "Ti.")) eqn:Hi; [discriminate|].
  apply (JsFacts.indexOf_None _ _ Hi).
Qed.

(** The Titanium arm is the third one. *)
Lemma classify_TitaniumBranch rules document position :
  classify rules document position = TitaniumBranch ->
  testLit reId (linePrefixOf document position) = false
  /\ testLit reMember (linePrefixOf document position) = false
  /\ testLit reTitanium (linePrefixOf document position) = true.
Proof.
  unfold classify, cascade. set (lp := linePrefixOf document position).
  destruct (testLit reId lp); [discriminate|].
  destruct (testLit reMember lp); [discriminate|].
  destruct (testLit reTitanium lp); [auto|].
  CascadeFacts.chain_cases ltac:(discriminate).
  pose proof (CascadeFacts.ruleLoop_names rules lp 0) as H.
  destruct (ruleLoop (onRule branchNames) 0 rules lp) as [[b|] rs];
    simpl in *; [|discriminate].
  intros ->. discriminate.
Qed.



End ApiPathFacts.

(** ** Completions along a dotted path *)
Module PathFacts.
Import Re Vs Ctl Stated Paths MatchFacts.

(** The loops of the two API handlers as filters of the catalog. *)
Lemma apiCompletions_filters E types apiName attribute :
  apiCompletions E types (apiName, attribute)
  = match apiName with
    | Some (c :: name) =>
        (if truthy attribute then [] else classesUnder types (c :: name))
        ++ membersOf E types (c :: name)
             (if truthy attribute then attribute else None)
    | _ => []
    end.
Proof.
  unfold apiCompletions, classesUnder, membersOf.
  destruct apiName as [[|c name]|]; try reflexivity.
  cbn [truthy negb default from_option]. unfold id.
  assert (Hw : forall name0,
             (negb (truthy attribute)
              || utilsMatches E name0 (default [] attribute))
             && negb (Js.includes name0 (str "deprecated"))
             = offered E (if truthy attribute then attribute else None) name0).
  { intros n. unfold offered. destruct attribute as [[|a w]|]; reflexivity. }
  assert (Hk : forall key,
             Js.startsAt0 key (c :: name) && negb (Js.includes key (str "_"))
             = classKey (c :: name) key).
  { intros key. unfold classKey. rewrite JsFacts.startsAt0_startsWith.
    change (str "_") with ["_"%char]. rewrite JsFacts.includes_char.
    reflexivity. }
  rewrite (CatalogFacts.push_filter_map _ classItem (keys types) []).
  rewrite (CatalogFacts.filter_ext_bool _ _ _ Hk).
  destruct (typeOf types (c :: name)) as [type|].
  - rewrite !CatalogFacts.push_filter_map.
    rewrite !(CatalogFacts.filter_ext_bool _ _ _ Hw).
    destruct (truthy attribute); simpl; rewrite <- ?app_assoc; reflexivity.
  - destruct (truthy attribute); simpl; rewrite ?app_nil_r; reflexivity.
Qed.

(** A greedy star over a class takes a whole run of its characters when
    what follows the run is accepted there. *)
Lemma star_class_exact p k : forall x n rest c st,
  length (x ++ rest) <= n ->
  forallb p x = true ->
  stopsAt p rest ->
  k rest c = Some st ->
  starLoop (run false (CharSet p)) [] true k n (x ++ rest) c = Some st.
Proof.
  induction x as [|a x IH]; intros n rest c st Hn Hx Hstop Hk.
  - destruct n as [|n]; cbn [starLoop app]; [exact Hk|].
    rewrite clearGroups_nil, run_class.
    destruct rest as [|b rest]; [exact Hk|].
    simpl in Hstop. rewrite Hstop. exact Hk.
  - simpl in Hx. apply andb_true_iff in Hx as [Ha Hx].
    destruct n as [|n]; [simpl in Hn; lia|].
    cbn [starLoop app]. rewrite clearGroups_nil, run_class, Ha.
    assert ((length (x ++ rest) <? length (a :: x ++ rest)) = true) as ->
      by (apply Nat.ltb_lt; simpl; lia).
    rewrite (IH n rest c st); [reflexivity | simpl in Hn; lia | exact Hx
                              | exact Hstop | exact Hk].
Qed.


(** A star whose body refuses the text goes on with what follows it. *)
Lemma starLoop_refused body inner k n s c :
  (forall c' k', body s c' k' = None) ->
  starLoop body inner true k n s c = k s c.
Proof.
  intros H. destruct n as [|n]; cbn [starLoop]; [reflexivity|].
  rewrite H. reflexivity.
Qed.

(** A found match is the first one. *)
Lemma search_first ic r s : forall p i st,
  p <= length s ->
  run ic r (skipn p s) [] accept = Some st ->
  (forall q, q < p -> run ic r (skipn q s) [] accept = None) ->
  search ic r s i = Some (i + p, skipn p s, st).
Proof.
  induction s as [|x s IH]; intros p i st Hp Hr Hb.
  - assert (p = 0) as -> by (simpl in Hp; lia). simpl in Hr |- *.
    rewrite Hr, Nat.add_0_r. reflexivity.
  - destruct p as [|p].
    + simpl in Hr. cbn [search]. rewrite Hr, Nat.add_0_r. reflexivity.
    + pose proof (Hb 0 ltac:(lia)) as H0. simpl in H0.
      cbn [search]. rewrite H0.
      rewrite (IH p (S i) st); [f_equal; f_equal; f_equal; lia
                               | simpl in Hp; lia | exact Hr |].
      intros q Hq. apply (Hb (S q)). lia.
Qed.

Lemma run_Group ic n r s c k :
  run ic (Group n r) s c k
  = run ic r s c
      (fun s' c' => k s' ((n, firstn (length s - length s') s) :: c')).
Proof. reflexivity. Qed.

Lemma run_Star ic g r s c k :
  run ic (Star g r) s c k
  = starLoop (run ic r) (groupsOf r) g k (length s) s c.
Proof. reflexivity. Qed.

Lemma star_class_all p k w n c st :
  length w <= n -> forallb p w = true -> k [] c = Some st ->
  starLoop (run false (CharSet p)) [] true k n w c = Some st.
Proof.
  intros Hn Hw Hk. rewrite <- (app_nil_r w).
  apply star_class_exact; [rewrite app_nil_r; exact Hn | exact Hw | exact I
                          | exact Hk].
Qed.

Lemma startsWith_app p s : Js.startsWith p (p ++ s) = true.
Proof. apply JsFacts.startsWith_prefix. exists s. reflexivity. Qed.

Lemma firstn_front (a b : jsstring) :
  firstn (length (a ++ b) - length b) (a ++ b) = a.
Proof.
  rewrite length_app.
  replace (length a + length b - length b) with (length a) by lia.
  apply take_app_length.
Qed.

Lemma groupsOf_Lit t : groupsOf (Lit t) = [].
Proof.
  induction t as [|a t IH]; [reflexivity|].
  destruct t as [|b t]; [reflexivity|].
  change (Lit (a :: b :: t)) with (Seq (Char a) (Lit (b :: t))).
  cbn [groupsOf]. rewrite IH. reflexivity.
Qed.

Lemma endsWithChar_last c x : Js.endsWithChar c (x ++ [c]) = true.
Proof.
  unfold Js.endsWithChar. rewrite rev_app_distr. simpl.
  apply Ascii.eqb_refl.
Qed.

Section Segments.

(** What a segment of the path may be: [alt] takes a segment that has a
    dot behind it, and holds no group. *)
Variable alt : regex.
Variable isSeg : jsstring -> bool.
Hypothesis alt_groups : groupsOf alt = [].
Hypothesis alt_segment : forall seg rest c k st,
  isSeg seg = true ->
  k ("."%char :: rest) c = Some st ->
  run false alt (seg ++ "."%char :: rest) c k = Some st.

(** The segments with a dot behind each. *)
Lemma dotted_shift root segs :
  dotted root segs ++ str "."
  = root ++ str "." ++ concat (map (fun seg => seg ++ str ".") segs).
Proof.
  unfold dotted. rewrite <- app_assoc. f_equal.
  induction segs as [|seg segs IH]; [reflexivity|].
  cbn [map concat]. rewrite <- !app_assoc, IH. reflexivity.
Qed.

(** The star of group 1 walks the segments and stops where no segment
    follows. *)
Lemma star_segments k : forall segs n tail c st,
  Forall (fun seg => isSeg seg = true) segs ->
  length (concat (map (fun seg => seg ++ str ".") segs) ++ tail) <= n ->
  (forall c' k', run false alt tail c' k' = None) ->
  k tail c = Some st ->
  starLoop (run false (Seq alt (Opt (Char ".")))) [] true k n
    (concat (map (fun seg => seg ++ str ".") segs) ++ tail) c = Some st.
Proof.
  induction segs as [|seg segs IH]; intros n tail c st Hsegs Hn Htail Hk.
  - cbn [map concat app]. rewrite starLoop_refused; [exact Hk|].
    intros c' k'. rewrite run_Seq. apply Htail.
  - inversion Hsegs as [|? ? Hseg Hsegs']; subst.
    cbn [map concat] in Hn |- *. rewrite <- !app_assoc in Hn |- *.
    destruct n as [|n].
    { rewrite !length_app in Hn. simpl in Hn. lia. }
    cbn [starLoop]. rewrite clearGroups_nil, run_Seq.
    set (rest := concat (map (fun seg0 => seg0 ++ str ".") segs) ++ tail) in *.
    change (str "." ++ rest) with ("."%char :: rest).
    rewrite (alt_segment seg rest c _ st Hseg); [reflexivity|].
    + unfold Opt in IH |- *. rewrite ShadowFacts.run_Alt, ShadowFacts.run_Char.
      cbv iota.
      unfold charMatches. rewrite Ascii.eqb_refl.
      assert ((length rest <? length (seg ++ "."%char :: rest)) = true) as ->
        by (apply Nat.ltb_lt; rewrite length_app; simpl; lia).
      assert (Hlen : length rest <= n).
      { rewrite !length_app in Hn. simpl in Hn. lia. }
      subst rest.
      rewrite (IH n tail c st Hsegs' Hlen Htail Hk). reflexivity.
Qed.

(** The whole path pattern at the front of a path: group 1 holds the
    start and the segments, group 2 the fragment if there is one. *)
Lemma run_pathPattern start segs frag :
  Forall (fun seg => isSeg seg = true) segs ->
  frag = [] \/ lowerWord frag = true ->
  (forall c' k', run false alt frag c' k' = None) ->
  let path := start ++ concat (map (fun seg => seg ++ str ".") segs) in
  run false (pathPattern start alt) (path ++ frag) [] accept
  = Some ([], match frag with
              | [] => [(1, path)]
              | _ => [(2, frag); (1, path)]
              end).
Proof.
  intros Hsegs Hfrag Hrefuse. cbv zeta.
  unfold pathPattern. cbn [Cat].
  rewrite run_Seq, run_Group, run_Seq, run_Lit.
  rewrite <- app_assoc, startsWith_app, drop_app_length.
  rewrite run_Star.
  replace (groupsOf (Seq alt (Opt (Char ".")))) with (@nil nat)
    by (cbn [groupsOf Opt]; rewrite alt_groups; reflexivity).
  apply star_segments; [exact Hsegs | lia | exact Hrefuse |].
  rewrite app_assoc, firstn_front.
  set (path := start ++ concat (map (fun seg => seg ++ str ".") segs)).
  rewrite run_Seq, run_Star.
  cbn [groupsOf app].
  destruct Hfrag as [->|Hlow].
  - reflexivity.
  - destruct frag as [|ch w]; [discriminate|].
    simpl in Hlow. apply andb_true_iff in Hlow as [Hch Hw].
    cbn [length starLoop].
    change (clearGroups [2] [(1, path)]) with [(1, path)].
    rewrite run_Group, run_Seq, run_class, Hch, run_Star.
    cbn [groupsOf].
    rewrite (star_class_all isWord _ w (length w) [(1, path)]
               ([], [(2, ch :: w); (1, path)])); [reflexivity | lia | exact Hw |].
    replace (firstn (length (ch :: w) - length (@nil ascii)) (ch :: w))
      with (ch :: w) by (simpl; rewrite firstn_all; reflexivity).
    change (length (@nil ascii) <? S (length w)) with true. cbv iota.
    rewrite starLoop_refused; [reflexivity|].
    intros c' k'. reflexivity.
Qed.

(** The path pattern matches only where its start stands. *)
Lemma run_pathPattern_start start s :
  Js.startsWith start s = false ->
  run false (pathPattern start alt) s [] accept = None.
Proof.
  intros H. unfold pathPattern. cbn [Cat].
  rewrite run_Seq, run_Group, run_Seq, run_Lit, H. reflexivity.
Qed.

(** What a handler reads off the first path of the text before the
    cursor: the API name is the dotted path, the attribute the fragment
    behind its last dot. *)
Lemma pathParts_path root pre segs frag :
  let linePrefix := pre ++ dotted root segs ++ str "." ++ frag in
  Forall (fun seg => isSeg seg = true) segs ->
  frag = [] \/ lowerWord frag = true ->
  (forall c' k', run false alt frag c' k' = None) ->
  (forall j, j < length pre ->
     Js.startsWith (root ++ str ".") (skipn j linePrefix) = false) ->
  pathParts (literal (pathPattern (root ++ str ".") alt)) linePrefix
  = (Some (dotted root segs),
     match frag with [] => None | _ => Some frag end).
Proof.
  cbv zeta. intros Hsegs Hfrag Hrefuse Hfirst.
  set (linePrefix := pre ++ dotted root segs ++ str "." ++ frag) in *.
  set (path := (root ++ str ".") ++ concat (map (fun seg => seg ++ str ".") segs)).
  assert (Hlp : linePrefix = pre ++ path ++ frag).
  { unfold linePrefix, path. f_equal. rewrite app_assoc, dotted_shift.
    rewrite <- !app_assoc. reflexivity. }
  assert (Hpath : path = dotted root segs ++ ["."%char]).
  { unfold path. rewrite <- app_assoc. symmetry. apply dotted_shift. }
  pose proof (run_pathPattern (root ++ str ".") segs frag Hsegs Hfrag Hrefuse)
    as Hrun. cbv zeta in Hrun. fold path in Hrun.
  assert (Hs : search false (pathPattern (root ++ str ".") alt) linePrefix 0
               = Some (0 + length pre, skipn (length pre) linePrefix,
                       ([], match frag with
                            | [] => [(1, path)]
                            | _ => [(2, frag); (1, path)]
                            end))).
  { apply search_first.
    - rewrite Hlp, length_app. lia.
    - rewrite Hlp, drop_app_length. exact Hrun.
    - intros q Hq. apply run_pathPattern_start. apply Hfirst. exact Hq. }
  unfold pathParts, matchOf, exec.
  cbn [literal global sticky orb ignoreCase source lastIndex].
  change (skipn 0 linePrefix) with linePrefix. rewrite Hs.
  assert (Hn : nGroups (pathPattern (root ++ str ".") alt) = 2).
  { unfold nGroups, pathPattern. cbn [Cat groupsOf Opt].
    rewrite groupsOf_Lit, alt_groups. reflexivity. }
  rewrite Hn. change (length linePrefix <? 0) with false. cbv iota.
  cbn [fst elements groups length seq map Nat.eqb].
  unfold group1, nth_group. cbn [groups List.nth].
  destruct frag as [|ch w]; cbn [capture Nat.eqb default from_option];
    unfold id; rewrite Hpath, endsWithChar_last;
    unfold Js.dropLast; rewrite removelast_last; reflexivity.
Qed.

End Segments.

Lemma lower_not_upper c : isLower c = true -> isUpper c = false.
Proof.
  unfold isLower, isUpper, between. intros H.
  apply andb_true_iff in H as [H1 _]. apply Nat.leb_le in H1.
  apply andb_false_iff. right. apply Nat.leb_gt. lia.
Qed.

(** A segment of an Alloy path: [[A-Z]\w*]. *)
Lemma upper_segment seg rest c k st :
  upperWord seg = true ->
  k ("."%char :: rest) c = Some st ->
  run false (Seq (CharSet isUpper) (Star true (CharSet isWord)))
    (seg ++ "."%char :: rest) c k = Some st.
Proof.
  intros Hseg Hk. destruct seg as [|u ws]; [discriminate|].
  simpl in Hseg. apply andb_true_iff in Hseg as [Hu Hws].
  rewrite run_Seq. cbn [app]. rewrite run_class, Hu, run_Star.
  apply star_class_exact; [reflexivity | exact Hws | reflexivity | exact Hk].
Qed.

Lemma upper_refuses frag c k :
  frag = [] \/ lowerWord frag = true ->
  run false (Seq (CharSet isUpper) (Star true (CharSet isWord))) frag c k = None.
Proof.
  intros [->|H]; [reflexivity|].
  destruct frag as [|ch w]; [discriminate|].
  simpl in H. apply andb_true_iff in H as [Hch _].
  rewrite run_Seq, run_class, (lower_not_upper _ Hch). reflexivity.
Qed.

(** A segment of a Titanium path: [[A-Z]\w*|iOS|iPad]. *)
Lemma ti_segment seg rest c k st :
  tiSegment seg = true ->
  k ("."%char :: rest) c = Some st ->
  run false (Any [Seq (CharSet isUpper) (Star true (CharSet isWord));
                  Lit (str "iOS"); Lit (str "iPad")])
    (seg ++ "."%char :: rest) c k = Some st.
Proof.
  intros Hseg Hk. cbn [Any]. rewrite ShadowFacts.run_Alt.
  unfold tiSegment in Hseg.
  destruct (upperWord seg) eqn:Hu.
  - rewrite (upper_segment seg rest c k st Hu Hk). reflexivity.
  - cbn [orb] in Hseg. apply orb_true_iff in Hseg as [H|H];
      apply bool_decide_eq_true in H; subst seg.
    + change (run false (Seq (CharSet isUpper) (Star true (CharSet isWord)))
                (str "iOS" ++ "."%char :: rest) c k) with (@None state).
      rewrite ShadowFacts.run_Alt, run_Lit, startsWith_app, drop_app_length, Hk.
      reflexivity.
    + change (run false (Seq (CharSet isUpper) (Star true (CharSet isWord)))
                (str "iPad" ++ "."%char :: rest) c k) with (@None state).
      rewrite ShadowFacts.run_Alt.
      change (run false (Lit (str "iOS")) (str "iPad" ++ "."%char :: rest) c k)
        with (@None state).
      rewrite run_Lit, startsWith_app, drop_app_length, Hk. reflexivity.
Qed.

Lemma ti_refuses frag c k :
  frag = [] \/ lowerWord frag = true ->
  Js.startsWith (str "iOS") frag = false ->
  Js.startsWith (str "iPad") frag = false ->
  run false (Any [Seq (CharSet isUpper) (Star true (CharSet isWord));
                  Lit (str "iOS"); Lit (str "iPad")]) frag c k = None.
Proof.
  intros Hfrag Hios Hipad. cbn [Any].
  rewrite ShadowFacts.run_Alt, (upper_refuses frag c k Hfrag).
  rewrite ShadowFacts.run_Alt, !run_Lit, Hios, Hipad. reflexivity.
Qed.

(** X5. Behind a dotted Alloy path, [getAlloyApiCompletions] offers the
    members of the type the path names. For a text before the cursor
    that ends in [Alloy], segments that each begin with an upper-case
    letter, a dot and a fragment (nothing, or a word that begins with a
    lower-case letter), this being the first [Alloy.] of the text: with
    no fragment it returns the Class completions for the keys under the
    path and then all members of its type that are not deprecated; with
    a fragment it returns only the members that match the fragment. *)
Theorem alloy_path_completions
  (E : Env) (pre : jsstring) (segs : list jsstring) (frag : jsstring) :
  let apiName := dotted (str "Alloy") segs in
  let linePrefix := pre ++ apiName ++ str "." ++ frag in
  let types := alloyTypes (completions E) in
  Forall (fun seg => upperWord seg = true) segs ->
  frag = [] \/ lowerWord frag = true ->
  (forall j, j < length pre ->
     Js.startsWith (str "Alloy.") (skipn j linePrefix) = false) ->
  getAlloyApiCompletions E linePrefix
  = match frag with
    | [] => classesUnder types apiName ++ membersOf E types apiName None
    | _ => membersOf E types apiName (Some frag)
    end.
Proof.
  cbv zeta. intros Hsegs Hfrag Hfirst. unfold getAlloyApiCompletions.
  change reAlloyPath
    with (literal (pathPattern (str "Alloy" ++ str ".")
                     (Seq (CharSet isUpper) (Star true (CharSet isWord))))).
  rewrite (pathParts_path
             (Seq (CharSet isUpper) (Star true (CharSet isWord)))
             upperWord eq_refl upper_segment
             (str "Alloy") pre segs frag Hsegs Hfrag
             (fun c' k' => upper_refuses frag c' k' Hfrag) Hfirst).
  rewrite apiCompletions_filters.
  assert (Hname : exists c name, dotted (str "Alloy") segs = c :: name)
    by (eexists; eexists; reflexivity).
  destruct Hname as (c & name & ->).
  destruct frag as [|ch w]; reflexivity.
Qed.

Lemma alloy_path_completions_witness :
  getAlloyApiCompletions Samples.env
    (str "var c = " ++ dotted (str "Alloy") [] ++ str "." ++ str "cre")
  = membersOf Samples.env (alloyTypes (completions Samples.env))
      (dotted (str "Alloy") []) (Some (str "cre")).
Proof.
  apply (alloy_path_completions Samples.env (str "var c = ") [] (str "cre")).
  - constructor.
  - right. vm_compute. reflexivity.
  - intros j Hj.
    do 8 (destruct j as [|j]; [vm_compute; reflexivity|]).
    vm_compute in Hj. lia.
Defined.

(** X6. Behind a dotted Titanium path, [getTitaniumApiCompletions]
    offers the members of the type the path names, unless the fragment
    could begin [iOS] or [iPad]. For a text before the cursor that ends
    in [Ti], segments (each a word that begins with an upper-case
    letter, or [iOS] or [iPad]), a dot and a fragment (nothing, or a
    word that begins with a lower-case letter but not with [iOS] or
    [iPad]), this being the first [Ti.] of the text: with no fragment it
    returns the Class completions for the keys under the path and then
    all members of its type that are not deprecated; with a fragment
    that [iOS] or [iPad] begins with ([i], [iO], [iP], [iPa]) it takes
    the fragment for one more segment and returns the Class completions
    and members for the longer path, so that no member of the path's own
    type is offered; with any other fragment it returns the members of
    the path's type that match the fragment. *)
Theorem titanium_path_completions
  (E : Env) (pre : jsstring) (segs : list jsstring) (frag : jsstring) :
  let apiName := dotted (str "Ti") segs in
  let linePrefix := pre ++ apiName ++ str "." ++ frag in
  let types := titaniumTypes (completions E) in
  Forall (fun seg => tiSegment seg = true) segs ->
  frag = [] \/ lowerWord frag = true ->
  Js.startsWith (str "iOS") frag = false ->
  Js.startsWith (str "iPad") frag = false ->
  (forall j, j < length pre ->
     Js.startsWith (str "Ti.") (skipn j linePrefix) = false) ->
  getTitaniumApiCompletions E linePrefix
  = match frag with
    | [] => classesUnder types apiName ++ membersOf E types apiName None
    | _ =>
        if Js.startsWith frag (str "iOS") || Js.startsWith frag (str "iPad")
        then classesUnder types (apiName ++ str "." ++ frag)
             ++ membersOf E types (apiName ++ str "." ++ frag) None
        else membersOf E types apiName (Some frag)
    end.
Proof.
  cbv zeta. intros Hsegs Hfrag Hios Hipad Hfirst.
  unfold getTitaniumApiCompletions.
  change reTiPath
    with (literal (pathPattern (str "Ti" ++ str ".")
                     (Any [Seq (CharSet isUpper) (Star true (CharSet isWord));
                           Lit (str "iOS"); Lit (str "iPad")]))).
  rewrite (pathParts_path
             (Any [Seq (CharSet isUpper) (Star true (CharSet isWord));
                   Lit (str "iOS"); Lit (str "iPad")])
             tiSegment eq_refl ti_segment
             (str "Ti") pre segs frag Hsegs Hfrag
             (fun c' k' => ti_refuses frag c' k' Hfrag Hios Hipad) Hfirst).
  assert (Hname : exists c name, dotted (str "Ti") segs = c :: name)
    by (eexists; eexists; reflexivity).
  destruct Hname as (c & name & Hname).
  destruct frag as [|ch w].
  - cbn [iosParts truthy andb]. rewrite apiCompletions_filters, Hname.
    reflexivity.
  - unfold iosParts. cbn [truthy andb default from_option]. unfold id.
    rewrite !JsFacts.startsAt0_startsWith.
    destruct (Js.startsWith (ch :: w) (str "iOS")
              || Js.startsWith (ch :: w) (str "iPad")).
    + rewrite apiCompletions_filters, Hname. reflexivity.
    + rewrite apiCompletions_filters, Hname. reflexivity.
Qed.

Lemma titanium_path_completions_witness :
  getTitaniumApiCompletions Samples.env
    ([] ++ dotted (str "Ti") [str "UI"] ++ str "." ++ str "i")
  = classesUnder (titaniumTypes (completions Samples.env))
      (dotted (str "Ti") [str "UI"] ++ str "." ++ str "i")
    ++ membersOf Samples.env (titaniumTypes (completions Samples.env))
         (dotted (str "Ti") [str "UI"] ++ str "." ++ str "i") None.
Proof.
  apply (titanium_path_completions Samples.env [] [str "UI"] (str "i")).
  - constructor; [vm_compute; reflexivity | constructor].
  - right. vm_compute. reflexivity.
  - vm_compute. reflexivity.
  - vm_compute. reflexivity.
  - intros j Hj. vm_compute in Hj. lia.
Defined.

End PathFacts.

(** ** The tag of an id *)
Module TagFacts.
Import Re Vs Ctl Stated Views MatchFacts.

Lemma split_cons c s : exists p ps, Js.split c s = p :: ps.
Proof.
  induction s as [|x s IH]; simpl; [eauto|].
  destruct (Ascii.eqb x c); [eauto|].
  destruct IH as (p & ps & ->). eauto.
Qed.

(** The position of an offset counted from line [l], column [c]. *)
Lemma positionFrom_shift s : forall o l c,
  positionFrom s o l c
  = let p := positionFrom s o 0 0 in
    mkPosition (l + line p)
      (if line p =? 0 then c + character p else character p).
Proof.
  induction s as [|x s IH]; intros o l c; cbv zeta.
  - destruct o; simpl; rewrite !Nat.add_0_r; reflexivity.
  - destruct o as [|o]; [simpl; rewrite !Nat.add_0_r; reflexivity|].
    cbn [positionFrom].
    destruct (Ascii.eqb x (ascii_of_nat 10)).
    + rewrite (IH o (S l) 0), (IH o 1 0). cbv zeta. cbn [line character].
      simpl. f_equal. lia.
    + rewrite (IH o l (S c)), (IH o 0 1). cbv zeta. cbn [line character].
      destruct (line (positionFrom s o 0 0)) as [|n]; simpl; f_equal; lia.
Qed.

(** The text of its line in front of an offset is what follows the last
    line feed in front of the offset. *)
Lemma linePrefix_of_offset d : forall o,
  o <= length d ->
  let p := positionAt d o in
  linePrefixAt d (line p) (character p) = lineStartOf (firstn o d)
  /\ length (Js.split (ascii_of_nat 10) (firstn o d)) = S (line p).
Proof.
  unfold positionAt, linePrefixAt, lineStartOf, lines, Js.lastPiece.
  induction d as [|x d IH]; intros o Ho; cbv zeta.
  - simpl in Ho. assert (o = 0) as -> by lia. simpl. auto.
  - destruct o as [|o]; [simpl; auto|].
    simpl in Ho. specialize (IH o ltac:(lia)). cbv zeta in IH.
    destruct IH as [IH1 IH2].
    cbn [positionFrom firstn Js.split].
    destruct (Ascii.eqb x (ascii_of_nat 10)).
    + rewrite (positionFrom_shift d o 1 0). cbv zeta. cbn [line character].
      replace (if line (positionFrom d o 0 0) =? 0
               then 0 + character (positionFrom d o 0 0)
               else character (positionFrom d o 0 0))
        with (character (positionFrom d o 0 0))
        by (destruct (line (positionFrom d o 0 0) =? 0); reflexivity).
      cbn [Nat.add List.nth length]. rewrite IH1, IH2.
      split; [|reflexivity].
      destruct (split_cons (ascii_of_nat 10) (firstn o d)) as (q & qs & ->).
      reflexivity.
    + rewrite (positionFrom_shift d o 0 1). cbv zeta. cbn [line character Nat.add].
      destruct (split_cons (ascii_of_nat 10) d) as (p0 & ps & Hd).
      destruct (split_cons (ascii_of_nat 10) (firstn o d)) as (q0 & qs & Hq).
      rewrite Hd, Hq in *. cbn [length] in IH2 |- *.
      split; [|exact IH2].
      destruct (line (positionFrom d o 0 0)) as [|n] eqn:Hl.
      * cbn [Nat.eqb List.nth Nat.add firstn] in IH1 |- *.
        destruct qs; [|discriminate]. cbn [List.last] in IH1 |- *.
        rewrite IH1. reflexivity.
      * cbn [Nat.eqb List.nth] in IH1 |- *. rewrite IH1.
        destruct qs; [discriminate|]. reflexivity.
Qed.

(** The pattern built for an id matches where such an attribute stands. *)
Lemma run_reIdOf id s :
  exists st,
    run false (source (reIdOf id)) s [] accept
    = if idAttrAt id s then Some st else None.
Proof.
  unfold idAttrAt.
  change (source (reIdOf id))
    with (Seq (Lit (str "id=")) (Seq quote (Seq (Lit id) quote))).
  rewrite run_Seq, run_Lit.
  destruct (Js.startsWith (str "id=") s) eqn:Hs; [|exists ([], []); reflexivity].
  apply JsFacts.startsWith_prefix in Hs as [rest ->].
  change (skipn (length (str "id=")) (str "id=" ++ rest)) with rest.
  change (skipn 3 (str "id=" ++ rest)) with rest.
  cbn [andb]. unfold quote at 1. rewrite run_Seq, run_class.
  destruct rest as [|q1 t]; [exists ([], []); reflexivity|].
  destruct (isQuote q1); [|exists ([], []); reflexivity]. cbn [andb].
  rewrite run_Seq, run_Lit.
  destruct (Js.startsWith id t) eqn:Ht; [|exists ([], []); reflexivity].
  cbn [andb]. unfold quote. rewrite run_class.
  destruct (skipn (length id) t) as [|q2 r]; [exists ([], []); reflexivity|].
  destruct (isQuote q2); [|exists ([], []); reflexivity].
  exists (r, []). reflexivity.
Qed.

(** The handlers look for the tag in the text of the line that holds the
    first such attribute, in front of the attribute. *)
Lemma closestTag_on_line document id front q1 q2 after :
  document = front ++ str "id=" ++ q1 :: id ++ q2 :: after ->
  isQuote q1 = true -> isQuote q2 = true ->
  (forall j, j < length front -> idAttrAt id (skipn j document) = false) ->
  closestTag document id = matchOf reTag (lineStartOf front).
Proof.
  intros Hd Hq1 Hq2 Hfirst. unfold closestTag.
  assert (Hat : idAttrAt id (skipn (length front) document) = true).
  { rewrite Hd, drop_app_length. unfold idAttrAt.
    change (Js.startsWith (str "id=") (str "id=" ++ q1 :: id ++ q2 :: after))
      with true.
    change (skipn 3 (str "id=" ++ q1 :: id ++ q2 :: after))
      with (q1 :: id ++ q2 :: after).
    cbv iota beta. cbn [andb].
    rewrite Hq1, PathFacts.startsWith_app, drop_app_length, Hq2. reflexivity. }
  assert (Hs : exists st,
             search false (source (reIdOf id)) document 0
             = Some (0 + length front, skipn (length front) document, st)).
  { destruct (run_reIdOf id (skipn (length front) document)) as [st Hst].
    rewrite Hat in Hst. exists st.
    apply PathFacts.search_first.
    - rewrite Hd, length_app. lia.
    - exact Hst.
    - intros q Hq. destruct (run_reIdOf id (skipn q document)) as [st' Hst'].
      rewrite (Hfirst q Hq) in Hst'. exact Hst'. }
  destruct Hs as [[rest caps] Hs].
  unfold exec. cbn [reIdOf literal_g global sticky orb lastIndex ignoreCase].
  change (length document <? 0) with false. cbv iota.
  change (skipn 0 document) with document.
  change (source {| source := Cat [Lit (str "id="); quote; Lit id; quote];
                    global := true; ignoreCase := false; sticky := false;
                    lastIndex := 0 |}) with (source (reIdOf id)).
  rewrite Hs. cbn [fst index Nat.add].
  destruct (linePrefix_of_offset document (length front)) as [Hl _].
  { rewrite Hd, length_app. lia. }
  cbv zeta in Hl. rewrite Hl. rewrite Hd, take_app_length. reflexivity.
Qed.

(** The tag pattern matches only at a [<]. *)
Lemma run_reTag_start s :
  Js.startsWith (str "<") s = false ->
  run false (source reTag) s [] accept = None.
Proof.
  intros H.
  change (source reTag)
    with (Seq (Char "<")
            (Seq (Group 1 (Seq (CharSet isAlpha)
                    (Star true (CharSet (fun c => isAlpha c || oneOf "-" c)))))
                 (Alt (CharSet isSpace) AssertEnd))).
  rewrite run_Seq, ShadowFacts.run_Char.
  destruct s as [|x s]; [reflexivity|].
  unfold charMatches.
  change (Js.startsWith (str "<") (x :: s)) with (Ascii.eqb "<" x && true) in H.
  rewrite andb_true_r in H. rewrite H. reflexivity.
Qed.

Lemma matchOf_reTag_none s :
  Js.includes s (str "<") = false -> matchOf reTag s = None.
Proof.
  intros H. change reTag with (literal (source reTag)).
  apply ApiPathFacts.matchOf_fails. intros p _. apply run_reTag_start.
  unfold Js.includes in H.
  destruct (Js.indexOf s (str "<")) eqn:Hi; [discriminate|].
  apply (JsFacts.indexOf_None _ _ Hi).
Qed.

Lemma space_ends_tag sp :
  isSpace sp = true -> (isAlpha sp || oneOf "-" sp) = false.
Proof.
  destruct sp as [[] [] [] [] [] [] [] []]; vm_compute;
    intros H; (reflexivity || discriminate H).
Qed.

(** It finds the first [<] of the text that a tag name and white space
    follow. Here the first [<] is such a one. *)
Lemma matchOf_reTag_first lead tag sp more :
  Js.includes lead (str "<") = false ->
  tagWord tag = true -> isSpace sp = true ->
  exists m, matchOf reTag (lead ++ "<"%char :: tag ++ sp :: more) = Some m
            /\ group1 m = tag.
Proof.
  intros Hlead Htag Hsp.
  set (s := lead ++ "<"%char :: tag ++ sp :: more).
  assert (Hrun : run false (source reTag) (skipn (length lead) s) [] accept
                 = Some (more, [(1, tag)])).
  { unfold s. rewrite drop_app_length.
    change (source reTag)
      with (Seq (Char "<")
              (Seq (Group 1 (Seq (CharSet isAlpha)
                      (Star true (CharSet (fun c => isAlpha c || oneOf "-" c)))))
                   (Alt (CharSet isSpace) AssertEnd))).
    rewrite run_Seq, ShadowFacts.run_Char. unfold charMatches.
    rewrite Ascii.eqb_refl, run_Seq, PathFacts.run_Group, run_Seq.
    destruct tag as [|c w]; [discriminate|].
    simpl in Htag. apply andb_true_iff in Htag as [Hc Hw].
    cbn [app]. rewrite run_class, Hc, PathFacts.run_Star.
    apply PathFacts.star_class_exact;
      [reflexivity | exact Hw | simpl; apply space_ends_tag; exact Hsp |].
    change (c :: w ++ sp :: more) with ((c :: w) ++ sp :: more).
    rewrite PathFacts.firstn_front, ShadowFacts.run_Alt, run_class, Hsp.
    reflexivity. }
  assert (Hs : search false (source reTag) s 0
               = Some (0 + length lead, skipn (length lead) s,
                       (more, [(1, tag)]))).
  { apply PathFacts.search_first.
    - unfold s. rewrite length_app. lia.
    - exact Hrun.
    - intros q Hq. apply run_reTag_start. unfold s.
      rewrite drop_app_le by lia.
      unfold Js.includes in Hlead.
      destruct (Js.indexOf lead (str "<")) eqn:Hi; [discriminate|].
      pose proof (JsFacts.indexOf_None _ _ Hi q) as Hn.
      destruct (skipn q lead) as [|x rest] eqn:Hd.
      + apply (f_equal (@length _)) in Hd. rewrite length_drop in Hd.
        simpl in Hd. lia.
      + exact Hn. }
  unfold matchOf, exec.
  cbn [reTag literal global sticky orb ignoreCase lastIndex].
  change (length s <? 0) with false. cbv iota.
  change (skipn 0 s) with s.
  match goal with
  | |- context [search false ?r s 0] => change r with (source reTag)
  end.
  rewrite Hs. eexists. split; [reflexivity|]. reflexivity.
Qed.

Lemma span_unique {A : Type} (a : A) : forall u v x y,
  ~ In a u -> ~ In a v -> u ++ a :: x = v ++ a :: y -> u = v.
Proof.
  induction u as [|b u IH]; intros [|d v] x y Hu Hv H.
  - reflexivity.
  - simpl in H. injection H as -> _. exfalso. apply Hv. left. reflexivity.
  - simpl in H. injection H as -> _. exfalso. apply Hu. left. reflexivity.
  - simpl in H. injection H as -> H. f_equal.
    apply (IH v x y); [| |exact H].
    + intros Hin. apply Hu. right. exact Hin.
    + intros Hin. apply Hv. right. exact Hin.
Qed.

Lemma idChars_no c x :
  idChar c = false -> forallb idChar x = true -> ~ In c (rev x).
Proof.
  intros Hc Hx Hin. apply in_rev in Hin.
  rewrite forallb_forall in Hx. rewrite (Hx c Hin) in Hc. discriminate.
Qed.

(** The id the member handler reads is the one the text ends in. *)
Lemma matchOf_reIdDot pre ident :
  forallb idChar ident = true ->
  exists m, matchOf reIdDot (pre ++ str "$." ++ ident ++ str ".") = Some m
            /\ group1 m = ident.
Proof.
  intros Hid. set (lp := pre ++ str "$." ++ ident ++ str ".").
  change (source reIdDot)
    with (Seq (Lit (str "$."))
              (Seq (Group 1 (Star true (CharSet idChar)))
                   (Seq (Opt (Char ".")) AssertEnd))).
  unfold matchOf, exec.
  cbn [reIdDot literal global sticky orb ignoreCase lastIndex source].
  change (length lp <? 0) with false. cbv iota.
  change (skipn 0 lp) with lp.
  set (r := Cat [Lit (str "$."); Group 1 ids; Opt (Char "."); AssertEnd]).
  destruct (search false r lp 0) as [[[j from] [rest caps]]|] eqn:Hs.
  - eexists. split; [reflexivity|].
    apply search_Some in Hs as (p & _ & Hp & -> & Hr & _).
    unfold r in Hr. cbn [Cat] in Hr. rewrite run_Seq, run_Lit in Hr.
    destruct (Js.startsWith (str "$.") (skipn p lp)) eqn:Hst; [|discriminate].
    apply JsFacts.startsWith_prefix in Hst as [tail Htail].
    rewrite Htail in Hr.
    change (skipn (length (str "$.")) (str "$." ++ tail)) with tail in Hr.
    rewrite run_Seq in Hr.
    apply IdBranchFacts.group_star_sound in Hr as (x & tl & -> & Hx & Hk).
    assert (Hcaps : caps = [(1, x)] /\ (tl = [] \/ tl = str ".")).
    { cbn [run Opt charMatches] in Hk.
      destruct tl as [|d tl]; [injection Hk as _ <-; auto|].
      destruct (Ascii.eqb "." d) eqn:Hd; [|discriminate].
      apply Ascii.eqb_eq in Hd. subst d.
      destruct tl; [injection Hk as _ <-; auto | discriminate]. }
    destruct Hcaps as [-> Htl].
    unfold group1, nth_group.
    change (nGroups r) with 1.
    cbn [groups seq map List.nth capture Nat.eqb default from_option].
    unfold id.
    (* both [x] and [ident] stand at the end of the text, behind a [$.] *)
    assert (Hlp : lp = firstn p lp ++ str "$." ++ x ++ tl).
    { rewrite <- Htail. symmetry. apply firstn_skipn. }
    apply (f_equal (@rev _)) in Hlp. unfold lp in Hlp at 1.
    rewrite !rev_app_distr in Hlp.
    change (rev (str ".")) with ["."%char] in Hlp.
    change (rev (str "$.")) with ["."%char; "$"%char] in Hlp.
    rewrite <- !app_assoc in Hlp. cbn [app] in Hlp.
    destruct Htl as [->| ->].
    + exfalso. cbn [rev app] in Hlp.
      destruct (rev x) as [|y ry] eqn:Hrx.
      * cbn [app] in Hlp. injection Hlp as Hlp.
        destruct (rev ident) as [|z rz] eqn:Hri.
        -- cbn [app] in Hlp. discriminate.
        -- cbn [app] in Hlp. injection Hlp as -> _.
           apply (idChars_no "$" ident eq_refl Hid). rewrite Hri. left. reflexivity.
      * cbn [app] in Hlp. injection Hlp as <- _.
        apply (idChars_no "." x eq_refl Hx). rewrite Hrx. left. reflexivity.
    + change (rev (str ".")) with ["."%char] in Hlp. cbn [app] in Hlp.
      injection Hlp as Hlp.
      apply span_unique in Hlp;
        [| apply (idChars_no "." ident eq_refl Hid)
         | apply (idChars_no "." x eq_refl Hx)].
      apply (f_equal (@rev _)) in Hlp. rewrite !rev_involutive in Hlp.
      symmetry. exact Hlp.
  - exfalso.
    pose proof (search_None _ _ _ _ Hs (length pre)) as Hn.
    unfold lp in Hn. rewrite drop_app_length, length_app in Hn.
    specialize (Hn ltac:(lia)).
    unfold r in Hn. cbn [Cat] in Hn. rewrite run_Seq, run_Lit in Hn.
    rewrite PathFacts.startsWith_app, drop_app_length, run_Seq in Hn.
    destruct (IdBranchFacts.group_star_complete 1 idChar ident (str ".") []
                (fun s' c' => run false (Seq (Opt (Char ".")) AssertEnd) s' c' accept)
                ([], [(1, ident)]) Hid eq_refl) as [st Hst].
    pose proof (eq_trans (eq_sym Hst) Hn) as Hc. discriminate Hc.
Qed.

(** X7. Members are offered only for an element whose tag begins on
    the line of its [id] attribute. When the text before the cursor
    ends in [$.], an id and a dot, and the related view holds that id as
    an attribute, written [id=], a quote, the id, a quote, for the first
    time at a place with no [<] before it on its line (the tag stands on
    a line above), [getMethodAndPropertyCompletions] returns nothing. *)
Theorem members_need_the_tag_on_the_id_line
  (E : Env) (pre ident file front after : jsstring) (q1 q2 : ascii) :
  let linePrefix := pre ++ str "$." ++ ident ++ str "." in
  let document : TextDocument :=
    front ++ str "id=" ++ q1 :: ident ++ q2 :: after in
  forallb idChar ident = true ->
  relatedXml E = Some file ->
  files E !! file = Some document ->
  isQuote q1 = true -> isQuote q2 = true ->
  (forall j, j < length front -> idAttrAt ident (skipn j document) = false) ->
  Js.includes (lineStartOf front) (str "<") = false ->
  getMethodAndPropertyCompletions E linePrefix = Returns [].
Proof.
  cbv zeta. intros Hid Hrel Hfile Hq1 Hq2 Hfirst Hline.
  unfold getMethodAndPropertyCompletions.
  destruct (matchOf_reIdDot pre ident Hid) as (m & -> & ->).
  cbv zeta. rewrite Hrel. cbv iota beta. rewrite Hfile.
  rewrite (closestTag_on_line _ ident front q1 q2 after eq_refl Hq1 Hq2 Hfirst).
  rewrite (matchOf_reTag_none _ Hline). reflexivity.
Qed.

Lemma members_need_the_tag_on_the_id_line_witness :
  let view := str "<Button" ++ Samples.lf
              ++ str "  " ++ str "id=" ++ dquote :: str "btn" ++ dquote :: str "/>" in
  getMethodAndPropertyCompletions
    (Samples.project (Some Samples.viewPath) {[ Samples.viewPath := view ]})
    ([] ++ str "$." ++ str "btn" ++ str ".")
  = Returns [].
Proof.
  cbv zeta.
  apply (members_need_the_tag_on_the_id_line
           (Samples.project (Some Samples.viewPath)
              {[ Samples.viewPath :=
                   str "<Button" ++ Samples.lf
                   ++ str "  " ++ str "id=" ++ dquote :: str "btn"
                   ++ dquote :: str "/>" ]})
           [] (str "btn") Samples.viewPath
           (str "<Button" ++ Samples.lf ++ str "  ") (str "/>") dquote dquote).
  - vm_compute. reflexivity.
  - reflexivity.
  - vm_compute. reflexivity.
  - vm_compute. reflexivity.
  - vm_compute. reflexivity.
  - intros j Hj.
    do 10 (destruct j as [|j]; [vm_compute; reflexivity|]).
    vm_compute in Hj. lia.
  - vm_compute. reflexivity.
Defined.



End TagFacts.

(** ** Definitions, hovers and references *)
Module LookupFacts.
Import Re Vs Def Stated Lookup.

Lemma newRange_to_line_start l c : newRange l c l 0 = mkRange l 0 l c.
Proof.
  unfold newRange. rewrite Nat.ltb_irrefl, Nat.eqb_refl. cbn [orb andb].
  destruct c; reflexivity.
Qed.

Lemma map_const {A B : Type} (b : B) (l : list A) :
  map (fun _ => b) l = repeat b (length l).
Proof. induction l as [|a l IH]; simpl; [reflexivity|]. rewrite IH. reflexivity. Qed.

(** The array of a match holds the whole match and one element for each
    group of the pattern. *)
Lemma exec_elements R input matches :
  fst (exec R input) = Some matches ->
  length (elements matches) = S (nGroups (source R)).
Proof.
  unfold exec.
  destruct (length input <? _); [discriminate|].
  destruct (_ (ignoreCase R) (source R) _ _) as [[[i from] [rest caps]]|];
    [|discriminate].
  cbn [fst]. intros [= <-]. cbn [elements groups length].
  rewrite length_map, length_seq. reflexivity.
Qed.

(** X9. What [getReferences] returns for a pattern without the g and y
    flags: the entries of the files in their order, where a file that
    cannot be opened, is empty or does not match has none, and a file
    that matches has as many as the match array has elements, the whole
    match and each group of the pattern, all of them the same: the
    callback's value for the file and the range from the start of the
    line of the first match to the start of that match. *)
Theorem getReferences_repeats_one_entry_per_group {T : Type}
  (opened : gmap jsstring TextDocument) (paths : Files) (pattern : RegExp)
  (callback : jsstring -> Range -> T) :
  global pattern = false -> sticky pattern = false ->
  getReferences opened paths pattern callback
  = Returns
      (flat_map
         (fun file =>
            match opened !! file with
            | Some (c :: text) =>
                match fst (exec pattern (c :: text)) with
                | Some matches =>
                    let pos := positionAt (c :: text) (index matches) in
                    repeat (callback file
                              (mkRange (line pos) 0 (line pos) (character pos)))
                           (S (nGroups (source pattern)))
                | None => []
                end
            | _ => []
            end)
         (asArray paths)).
Proof.
  intros Hg Hy. unfold getReferences.
  rewrite (ReferenceFacts.referencesLoop_stateless opened pattern callback Hg Hy).
  cbn [fst app]. f_equal. apply flat_map_ext. intros file.
  unfold entriesOf.
  destruct (opened !! file) as [[|c text]|]; [reflexivity| |reflexivity].
  cbn [length Nat.ltb Nat.leb].
  destruct (fst (exec pattern (c :: text))) as [matches|] eqn:Hm; [|reflexivity].
  cbv zeta. rewrite map_const, (exec_elements _ _ _ Hm), newRange_to_line_start.
  reflexivity.
Qed.

Lemma getReferences_repeats_one_entry_per_group_witness :
  let pattern := literal (Cat [Lit (str "."); Group 1 (Lit (str "title"))]) in
  getReferences Samples.styles (ManyFiles [Samples.indexTss; Samples.appTss])
    pattern mkLocation
  = Returns [mkLocation Samples.indexTss (mkRange 1 0 1 1);
             mkLocation Samples.indexTss (mkRange 1 0 1 1);
             mkLocation Samples.appTss (mkRange 0 0 0 1);
             mkLocation Samples.appTss (mkRange 0 0 0 1)].
Proof.
  cbv zeta.
  rewrite (getReferences_repeats_one_entry_per_group Samples.styles
             (ManyFiles [Samples.indexTss; Samples.appTss])
             (literal (Cat [Lit (str "."); Group 1 (Lit (str "title"))]))
             mkLocation eq_refl eq_refl).
  vm_compute. reflexivity.
Defined.

(** The loop over the suggestions: the first matching suggestion that
    has a definition pattern, or whose files are not listed, ends it,
    and what was gathered before is given up. *)
Lemma suggestionLoop_spec opened document position linePrefix word value
  startIndex endIndex : forall suggestions results,
  suggestionLoop opened suggestions document position linePrefix word value
    startIndex endIndex results
  = match List.find (endsLoop document word value)
            (matchingSuggestions linePrefix suggestions) with
    | Some suggestion => endOf opened document word value suggestion
    | None =>
        Returns (Links (results
                        ++ flat_map (linksOf document position word value
                                       startIndex endIndex)
                             (matchingSuggestions linePrefix suggestions)))
    end.
Proof.
  induction suggestions as [|suggestion rest IH]; intros results.
  - simpl. rewrite app_nil_r. reflexivity.
  - cbn [suggestionLoop matchingSuggestions List.filter].
    destruct (fst (test (regExp suggestion) linePrefix)); [|apply IH].
    cbn [List.find flat_map].
    assert (He : endsLoop document word value suggestion
                 = match definitionRegExp suggestion,
                         files suggestion document word value with
                   | None, Returns _ => false
                   | _, _ => true
                   end).
    { unfold endsLoop, hasDefinitionPattern, listsFiles.
      destruct (definitionRegExp suggestion);
        destruct (files suggestion document word value); reflexivity. }
    rewrite He. clear He.
    unfold endOf, linksOf at 1, getReferences. cbn [asArray].
    destruct (definitionRegExp suggestion) as [mkPattern|] eqn:Hd;
      destruct (files suggestion document word value) as [l| |] eqn:Hf;
      rewrite ?Hf, ?Hd; try reflexivity.
    rewrite IH. fold (matchingSuggestions linePrefix rest).
    destruct (List.find (endsLoop document word value)
                (matchingSuggestions linePrefix rest)); [reflexivity|].
    rewrite <- app_assoc. reflexivity.
Qed.

(** X10. Among the suggestions whose pattern matches the text before
    the cursor, the first one that has a definition pattern, or whose
    files cannot be listed, decides alone what [provideDefinition] ends
    with, and the links of the matching suggestions before it are given
    up: when listing its files or building its pattern throws, so does
    the provider; otherwise the locations found in its files are
    returned.  Only when there is no such suggestion are links
    returned: one per file of each matching suggestion, in order,
    reaching from the last quote before the cursor (or column 0) to the
    first quote after it (or the cursor). *)
Theorem provideDefinition_first_definition_pattern_wins
  (opened : gmap jsstring TextDocument) (word : option jsstring)
  (document : TextDocument) (position : Position)
  (suggestions : list DefinitionSuggestion) :
  let text := lineAt document position in
  let column := character position in
  let linePrefix := linePrefixAt document (line position) column in
  let startIndex := default 0 (lastQuoteBefore text column) in
  let endIndex := default column (firstQuoteAfter text column) in
  let value := default [] (valueBetween text (startIndex, endIndex)) in
  let matching := matchingSuggestions linePrefix suggestions in
  provideDefinition opened word document position suggestions
  = match List.find (endsLoop document word value) matching with
    | Some suggestion =>
        match files suggestion document word value with
        | Returns suggestionFiles =>
            match definitionRegExp suggestion with
            | Some mkPattern =>
                match mkPattern (orElse word value) with
                | Returns pattern =>
                    Returns (Locations
                               (fst (referencesLoop opened suggestionFiles
                                       pattern mkLocation [])))
                | Throws => Throws
                | Hangs => Hangs
                end
            | None => Returns (Links [])
            end
        | Throws => Throws
        | Hangs => Hangs
        end
    | None =>
        Returns (Links (flat_map (linksOf document position word value
                                    startIndex endIndex) matching))
    end.
Proof.
  cbv zeta. unfold provideDefinition.
  rewrite QuoteFacts.quoteBounds_spec, suggestionLoop_spec. reflexivity.
Qed.

(** The suggestion for [L(] at work.  With no i18n path the provider
    throws where the cursor stands in the name, whatever comes first in
    the list, and returns the links of the other suggestions elsewhere.
    With an i18n path it throws for a name that is no pattern, as [(a]
    in [ L(`(a`)]. *)
Example provideDefinition_throws_without_i18n_path :
  let other :=
    mkSuggestion (literal (Lit (str "L("))) None
      (fun _ _ _ => Returns [str "app/i18n.js"]) in
  let suggestions := [other; i18nSuggestion None (str "en") (fun _ => None)] in
  let refused source :=
    if bool_decide (source = qstr "name=[`'](a[`']>(.*)?</")
    then None else Some Empty in
  provideDefinition ∅ None (qstr " L(`ok`)") (mkPosition 0 5) suggestions
  = Throws
  /\ provideDefinition ∅ None (qstr " L(`ok`)") (mkPosition 0 3) suggestions
     = Returns (Links [mkLink (mkRange 0 0 0 6) (mkRange 0 0 0 0)
                         (str "app/i18n.js")])
  /\ provideDefinition ∅ None (qstr " L(`(a`)") (mkPosition 0 4)
       [i18nSuggestion (Some (str "app/i18n")) (str "en") refused]
     = Throws
  /\ provideDefinition ∅ None (qstr " L(`ok`)") (mkPosition 0 4)
       [i18nSuggestion (Some (str "app/i18n")) (str "en") refused]
     = Returns (Locations []).
Proof. vm_compute. repeat split; reflexivity. Qed.

(** The image branch throws where the [RegExp] constructor or the walk
    does, and nowhere else. *)
Lemma imageString_throws assets value :
  imageString assets value <> Hangs
  /\ (imageString assets value = Throws
      <-> newRegExp assets (fileNameSource assets value) = None
          \/ walkSync assets = None).
Proof.
  unfold imageString.
  destruct (newRegExp assets _) as [r|].
  - destruct (walkSync assets) as [paths|].
    + destruct (List.filter _ paths); (split; [discriminate|]);
        (split; [discriminate | intros [H|H]; discriminate H]).
    + split; [discriminate|]. split; auto.
  - split; [discriminate|]. split; auto.
Qed.

(** X11. [provideHover] never hangs, and a hover it returns belongs to
    a quoted value under the cursor in a text that the image pattern
    matches: the last quote before the cursor is not the first character
    of the line, the hover's range runs on the cursor's line from behind
    that quote to the first quote after the cursor (or to the cursor
    when there is none), and its contents are the image string of
    exactly the text of the line in that range, which is not empty.  It
    throws for such a value, and only then, when the [RegExp]
    constructor refuses the source built from the value or the assets
    directory cannot be walked. *)
Theorem provideHover_spans_the_value
  (assets : Assets) (document : TextDocument) (position : Position) :
  let text := lineAt document position in
  let column := character position in
  let j := default column (firstQuoteAfter text column) in
  provideHover assets document position <> Hangs
  /\ (forall hover,
        provideHover assets document position = Returns (Some hover) ->
        exists i,
          lastQuoteBefore text column = Some (S i)
          /\ hoverRange hover
             = mkRange (line position) (S (S i)) (line position) j
          /\ imageString assets (between text (S i) j)
             = Returns (contents hover)
          /\ between text (S i) j <> []
          /\ S (S i) <= j
          /\ testLit reImage (linePrefixAt document (line position) column)
             = true)
  /\ (provideHover assets document position = Throws
      <-> exists i,
            lastQuoteBefore text column = Some (S i)
            /\ between text (S i) j <> []
            /\ testLit reImage (linePrefixAt document (line position) column)
               = true
            /\ (newRegExp assets
                  (fileNameSource assets (between text (S i) j)) = None
                \/ walkSync assets = None)).
Proof.
  cbv zeta. unfold provideHover.
  rewrite QuoteFacts.quoteBounds_spec.
  destruct (lastQuoteBefore (lineAt document position) (character position))
    as [i|] eqn:Hi.
  2: { cbn. split; [discriminate|]. split; [discriminate|].
       split; [discriminate | intros (i & H & _); discriminate H]. }
  pose proof (QuoteFacts.lastQuoteBefore_lt _ _ _ Hi) as Hlt.
  assert (Hstop : character position
                  <= default (character position)
                       (firstQuoteAfter (lineAt document position)
                          (character position))).
  { destruct (firstQuoteAfter _ _) as [j|] eqn:Hj; simpl; [|lia].
    apply QuoteFacts.firstQuoteAfter_gt in Hj. lia. }
  set (j := default (character position) (firstQuoteAfter _ _)) in *.
  cbn [default from_option]. unfold id, valueBetween.
  destruct i as [|i].
  { cbn. split; [discriminate|]. split; [discriminate|].
    split; [discriminate | intros (i & H & _); discriminate H]. }
  assert ((0 <? j) = true) as -> by (apply Nat.ltb_lt; lia).
  cbn [Nat.ltb Nat.leb andb].
  rewrite QuoteFacts.substring_between by lia.
  destruct (between (lineAt document position) (S i) j) as [|c v] eqn:Hv.
  { split; [discriminate|]. split; [discriminate|].
    split; [discriminate|].
    intros (i' & [= <-] & Hne & _). rewrite Hv in Hne. congruence. }
  destruct (testLit reImage _) eqn:Ht.
  2: { split; [discriminate|]. split; [discriminate|].
       split; [discriminate|]. intros (i' & _ & _ & H & _). discriminate H. }
  destruct (imageString_throws assets (c :: v)) as [Hh Hthrows].
  destruct (imageString assets (c :: v)) as [md| |] eqn:Hmd;
    [| |congruence].
  - split; [discriminate|]. split.
    + intros hover [= <-]. exists i. split; [reflexivity|].
      cbn [hoverRange contents]. unfold newRange.
      assert ((line position <? line position) = false) as ->
        by apply Nat.ltb_irrefl.
      assert ((j <? S (S i)) = false) as -> by (apply Nat.ltb_ge; lia).
      rewrite andb_false_r. cbn [orb]. rewrite Hv, Hmd.
      split; [reflexivity|]. split; [reflexivity|].
      split; [discriminate|]. split; [lia | reflexivity].
    + split; [discriminate|].
      intros (i' & [= <-] & _ & _ & H). rewrite Hv in H.
      apply Hthrows in H. discriminate H.
  - split; [discriminate|]. split; [discriminate|].
    split; [|reflexivity]. intros _. exists i.
    split; [reflexivity|]. rewrite Hv. split; [discriminate|].
    split; [reflexivity|]. apply Hthrows. reflexivity.
Qed.

Lemma provideHover_spans_the_value_witness :
  let document := qstr "image: `/images/logo.png`" in
  let position := mkPosition 0 12 in
  let hover :=
    mkHover (str "![/p/app/assets/images/logo.png](/p/app/assets/images/logo.png|height=100)")
            (mkRange 0 8 0 24) in
  provideHover images document position = Returns (Some hover)
  /\ exists i,
       lastQuoteBefore (lineAt document position) 12 = Some (S i)
       /\ hoverRange hover
          = mkRange 0 (S (S i)) 0
              (default 12 (firstQuoteAfter (lineAt document position) 12)).
Proof.
  cbv zeta.
  assert (H : provideHover images
                (qstr "image: `/images/logo.png`") (mkPosition 0 12)
              = Returns (Some (mkHover
                  (str "![/p/app/assets/images/logo.png](/p/app/assets/images/logo.png|height=100)")
                  (mkRange 0 8 0 24))))
    by (vm_compute; reflexivity).
  split; [exact H|].
  destruct (proj1 (proj2 (provideHover_spans_the_value images
                     (qstr "image: `/images/logo.png`") (mkPosition 0 12)))
              _ H) as (i & Hi & Hr & _).
  exists i. split; [exact Hi | exact Hr].
Defined.

(** The image branch at work: the first file that matches is shown, no
    file is "Image not found", and a value that is no pattern or a
    missing assets directory makes the provider throw. *)
Example provideHover_samples :
  provideHover images (qstr "image: `missing.png`") (mkPosition 0 9)
  = Returns (Some (mkHover (str "Image not found") (mkRange 0 8 0 19)))
  /\ provideHover images (qstr "image: `a(b`") (mkPosition 0 9) = Throws
  /\ provideHover noAssets (qstr "image: `/images/logo.png`") (mkPosition 0 12)
     = Throws
  /\ provideHover noAssets (qstr "title: `/images/logo.png`") (mkPosition 0 12)
     = Returns None.
Proof. vm_compute. repeat split; reflexivity. Qed.

End LookupFacts.

(** ** Appending to a file *)
Module InsFacts.
Import Re Vs Def Ins.

(** A position behind the last line is the end of the text. *)
Lemma offsetAt_beyond d : forall l c,
  lineFeeds d < l -> offsetAt d l c = length d.
Proof.
  unfold lineFeeds.
  induction d as [|x d IH]; intros l c Hl; [reflexivity|].
  destruct l as [|l]; [lia|]. cbn [offsetAt length]. f_equal.
  cbn [List.filter] in Hl. rewrite (Ascii.eqb_sym x).
  destruct (Ascii.eqb (ascii_of_nat 10) x); apply IH; simpl in Hl; lia.
Qed.

Lemma eolSplit_lineFeeds d :
  lineFeeds d < length (eolSplit false d)
  /\ lineFeeds d <= length (eolSplit true d).
Proof.
  unfold lineFeeds.
  induction d as [|x d [IH1 IH2]]; [simpl; lia|].
  cbn [eolSplit List.filter]. rewrite (Ascii.eqb_sym (ascii_of_nat 10) x).
  destruct (Ascii.eqb x (ascii_of_nat 10)); [simpl; lia|].
  destruct (Ascii.eqb x (ascii_of_nat 13)); [simpl; lia|].
  destruct (eolSplit false d) as [|p ps]; simpl in *; lia.
Qed.

Lemma eolSplit_last d : forall b,
  List.nth (length (eolSplit b d) - 1) (eolSplit b d) []
  = List.last (eolSplit b d) [].
Proof.
  intros b. generalize (eolSplit b d) as l.
  induction l as [|p [|q l] IH]; [reflexivity | reflexivity|].
  change (List.last (p :: q :: l) []) with (List.last (q :: l) []).
  rewrite <- IH. cbn [length Nat.sub List.nth]. rewrite Nat.sub_0_r.
  reflexivity.
Qed.

Lemma dropSpaces_nil s : dropSpaces s = [] <-> forallb isSpace s = true.
Proof.
  induction s as [|x s IH]; simpl; [tauto|].
  destruct (isSpace x); simpl; [exact IH|].
  split; discriminate.
Qed.

Lemma dropSpaces_keeps s :
  forallb isSpace s = false ->
  exists x t, dropSpaces s = x :: t /\ isSpace x = false.
Proof.
  induction s as [|x s IH]; simpl; [discriminate|].
  destruct (isSpace x) eqn:Hx; simpl; [exact IH|]. eauto.
Qed.

(** [s.trim()] is empty exactly for a text of white space. *)
Lemma trim_blank s : (0 <? length (trim s)) = negb (forallb isSpace s).
Proof.
  unfold trim. destruct (forallb isSpace s) eqn:Hs.
  - apply dropSpaces_nil in Hs. rewrite Hs. reflexivity.
  - destruct (dropSpaces_keeps s Hs) as (x & t & -> & Hx).
    assert (Hr : forallb isSpace (rev (x :: t)) = false).
    { simpl. rewrite forallb_app. simpl. rewrite Hx, andb_false_r. reflexivity. }
    destruct (dropSpaces_keeps _ Hr) as (y & u & -> & _).
    rewrite length_rev. reflexivity.
Qed.

(** X12. [insert] appends: when the file opens, the text lands at the
    very end of the document, behind a line feed of its own unless the
    last line of the document is empty or holds white space only; what
    was in the document stays in front of it, and no other document
    changes. A file that cannot be opened leaves everything as it is. *)
Theorem insert_appends_at_the_end (W : World) (text filePath : jsstring) :
  match texts W !! filePath with
  | Some document =>
      texts (insert W text filePath) !! filePath
      = Some (document
              ++ (if forallb isSpace (lastLine document)
                  then [] else [ascii_of_nat 10])
              ++ text)
      /\ forall other, other <> filePath ->
           texts (insert W text filePath) !! other = texts W !! other
  | None => insert W text filePath = W
  end.
Proof.
  unfold insert.
  destruct (texts W !! filePath) as [document|]; [|reflexivity].
  cbn [texts line]. rewrite lookup_insert_eq.
  split; [|intros other Ho; rewrite lookup_insert_ne by congruence; reflexivity].
  f_equal. unfold insertAtPosition. cbn [line character].
  rewrite offsetAt_beyond
    by (unfold lineCount; apply (proj1 (eolSplit_lineFeeds document))).
  rewrite firstn_all, skipn_all, app_nil_r. f_equal.
  unfold lineText, lineCount. rewrite eolSplit_last, trim_blank.
  fold (lastLine document).
  destruct (forallb isSpace (lastLine document)); reflexivity.
Qed.

End InsFacts.

(** ** What a failed installation leads to *)
Module FailureFacts.
Import Ext Stated.

Section Failures.
Variable S : Type.
Variable action : Update -> S -> option InstallError * S.
Variable picksSudo : Update -> bool.
Variable appcInstaller : jsstring.

(** A prompt to run with sudo, a sudo command or an error message in
    the log comes from the handling of some update's failure. *)
Lemma installLoop_after_failure updates total incrementProgress e :
  match e with
  | SudoPrompt _ | SudoCommand _ | ErrorMessage _ => True
  | _ => False
  end ->
  forall counter s log,
    In e (fst (fst (fst (installLoop S action picksSudo appcInstaller updates
                           total incrementProgress counter s log)))) ->
    In e log
    \/ exists update s0 s1 metadata,
         In update updates
         /\ action update s0 = (Some (mkError metadata), s1)
         /\ In e (afterFailure picksSudo appcInstaller update metadata).
Proof.
  intros He. induction updates as [|update rest IH]; intros counter s log Hin.
  - left. exact Hin.
  - cbn [installLoop] in Hin.
    assert (Hreports : forall l,
      In e ((log ++ [Installing (labelOf update) counter total; Action update])
            ++ l :: increment incrementProgress total) ->
      match l with
      | Installed _ _ _ | FailedToInstall _ _ _ => True
      | _ => False
      end -> In e log).
    { intros l Hl Hk. rewrite !in_app_iff in Hl.
      destruct Hl as [[Hl|Hl]|Hl]; [exact Hl| |]; exfalso.
      - destruct Hl as [<-|[<-|[]]]; exact He.
      - destruct Hl as [<-|Hl]; [destruct l; tauto|].
        unfold increment in Hl.
        destruct incrementProgress; [destruct Hl as [<-|[]]; exact He|exact Hl]. }
    destruct (action update s) as [[[metadata|]|] s'] eqn:Ha;
      cbn [metadataOf] in Hin.
    + apply IH in Hin as [Hin|(u & s0 & s1 & md & Hu & Hact & Hev)].
      * rewrite in_app_iff in Hin. destruct Hin as [Hin|Hin].
        -- left. apply (Hreports _ Hin I).
        -- right. exists update, s, s', metadata.
           split; [left; reflexivity|]. split; [exact Ha | exact Hin].
      * right. exists u, s0, s1, md. split; [right; exact Hu | auto].
    + left. apply (Hreports _ Hin I).
    + apply IH in Hin as [Hin|(u & s0 & s1 & md & Hu & Hact & Hev)].
      * left. apply (Hreports _ Hin I).
      * right. exists u, s0, s1, md. split; [right; exact Hu | auto].
Qed.

(** X13. [installUpdates] runs a command with sudo only on request: a
    sudo command in its course belongs to one of the given updates whose
    action failed with metadata, whose product is the installer, whose
    error code is [EACCES] and for which the user picked "Install with
    Sudo", and it is [sudo] followed by the command of that metadata.
    An error message is shown only for an update whose action failed
    without metadata; a failure with metadata that is not the
    installer's [EACCES] is reported in the progress only. *)
Theorem installUpdates_sudo_only_on_request
  (updateInfo : list Update) (incrementProgress : bool) (s : S) :
  let log := fst (fst (fst (installUpdates S action picksSudo appcInstaller
                              updateInfo incrementProgress s))) in
  (forall cmd, In (SudoCommand cmd) log ->
     exists update s0 s1 m,
       In update updateInfo
       /\ action update s0 = (Some (mkError (Some m)), s1)
       /\ productName update = appcInstaller
       /\ errorCode m = str "EACCES"
       /\ picksSudo update = true
       /\ cmd = str "sudo " ++ command m)
  /\ (forall l, In (ErrorMessage l) log ->
        exists update s0 s1,
          In update updateInfo
          /\ action update s0 = (Some (mkError None), s1)
          /\ l = labelOf update).
Proof.
  cbv zeta. unfold installUpdates.
  destruct (InstallFacts.sort_ascending updateInfo) as [_ Hperm].
  split.
  - intros cmd Hin.
    apply (installLoop_after_failure _ _ _ (SudoCommand cmd) I) in Hin
      as [[]|(update & s0 & s1 & [m|] & Hu & Ha & Hev)].
    + exists update, s0, s1, m.
      split; [apply (Permutation_in _ (Permutation_sym Hperm) Hu)|].
      split; [exact Ha|].
      unfold afterFailure in Hev.
      destruct (bool_decide (productName update = appcInstaller)) eqn:Hp;
        [|destruct Hev].
      destruct (bool_decide (errorCode m = str "EACCES")) eqn:Hc;
        [|destruct Hev].
      apply bool_decide_eq_true in Hp, Hc. cbn [andb] in Hev.
      destruct Hev as [Hev|Hev]; [discriminate|].
      destruct (picksSudo update); [|destruct Hev].
      destruct Hev as [[= <-]|[]]. auto.
    + unfold afterFailure in Hev.
      destruct Hev as [Hev|[]]. discriminate.
  - intros l Hin.
    apply (installLoop_after_failure _ _ _ (ErrorMessage l) I) in Hin
      as [[]|(update & s0 & s1 & [m|] & Hu & Ha & Hev)].
    + exfalso. unfold afterFailure in Hev.
      destruct (_ && _); [|destruct Hev].
      destruct Hev as [Hev|Hev]; [discriminate|].
      destruct (picksSudo update); [|destruct Hev].
      destruct Hev as [Hev|[]]. discriminate.
    + exists update, s0, s1.
      split; [apply (Permutation_in _ (Permutation_sym Hperm) Hu)|].
      split; [exact Ha|].
      unfold afterFailure in Hev.
      destruct Hev as [[= <-]|[]]. reflexivity.
Qed.

End Failures.

Lemma installUpdates_sudo_only_on_request_witness :
  let installer := mkUpdate None (str "installer") (str "5.0.0") 1 in
  let denied (_ : Update) (_ : unit) :=
    (Some (mkError (Some (mkMetadata (str "EACCES") (str "npm i -g appc")))), tt) in
  In (SudoCommand (str "sudo npm i -g appc"))
     (fst (fst (fst (installUpdates unit denied (fun _ => true)
                       (str "installer") [installer] true tt))))
  /\ exists update s0 s1 m,
       In update [installer]
       /\ denied update s0 = (Some (mkError (Some m)), s1)
       /\ productName update = str "installer"
       /\ errorCode m = str "EACCES"
       /\ str "sudo npm i -g appc" = str "sudo " ++ command m.
Proof.
  cbv zeta.
  assert (H : In (SudoCommand (str "sudo npm i -g appc"))
                (fst (fst (fst (installUpdates unit
                   (fun _ _ => (Some (mkError (Some (mkMetadata (str "EACCES")
                                                      (str "npm i -g appc")))), tt))
                   (fun _ => true) (str "installer")
                   [mkUpdate None (str "installer") (str "5.0.0") 1] true tt))))).
  { vm_compute. do 5 right. left. reflexivity. }
  split; [exact H|].
  destruct (proj1 (installUpdates_sudo_only_on_request unit _ _ _ _ _ _) _ H)
    as (update & s0 & s1 & m & H1 & H2 & H3 & H4 & _ & H6).
  exists update, s0, s1, m. auto.
Defined.

End FailureFacts.

(** ** Which forward the end of a debug session removes *)
Module SessionFacts.
Import Re Session MatchFacts.

(** The emulator pattern at the front of an id. *)
Lemma matchOf_reEmulator digits sep rest :
  digits <> [] -> forallb isDigit digits = true -> isDigit sep = false ->
  option_map matched
    (matchOf reEmulator (str "emulator-" ++ digits ++ sep :: rest))
  = Some (str "emulator-" ++ digits).
Proof.
  intros Hne Hd Hsep. destruct digits as [|d ds]; [congruence|].
  simpl in Hd. apply andb_true_iff in Hd as [Hd Hds].
  set (s := str "emulator-" ++ (d :: ds) ++ sep :: rest).
  assert (Hrun : run false (source reEmulator) s [] accept
                 = Some (sep :: rest, [])).
  { unfold s.
    change (source reEmulator)
      with (Seq (Lit (str "emulator-"))
                (Seq (CharSet isDigit) (Star true (CharSet isDigit)))).
    rewrite run_Seq, run_Lit, PathFacts.startsWith_app, drop_app_length.
    rewrite run_Seq. cbn [app]. rewrite run_class, Hd, PathFacts.run_Star.
    apply PathFacts.star_class_exact;
      [reflexivity | exact Hds | exact Hsep | reflexivity]. }
  unfold matchOf, exec.
  cbn [reEmulator literal global sticky orb ignoreCase lastIndex].
  change (length s <? 0) with false. cbv iota.
  change (skipn 0 s) with s.
  match goal with
  | |- context [search false ?r s 0] => change r with (source reEmulator)
  end.
  assert (Hs : search false (source reEmulator) s 0
               = Some (0, s, (sep :: rest, []))).
  { apply (PathFacts.search_first false (source reEmulator) s 0 0);
      [lia | exact Hrun | intros q Hq; lia]. }
  rewrite Hs. cbn [fst option_map matched]. f_equal.
  unfold s. rewrite app_assoc. apply PathFacts.firstn_front.
Qed.

(** The loop passes the lines that do not hold the port and stops at
    the first one that holds it and starts with an emulator id. *)
Lemma emulatorLoop_first before after digits sep rest tcpPort deviceId :
  Forall (fun l => Js.includes l tcpPort = false) before ->
  Js.includes (str "emulator-" ++ digits ++ sep :: rest) tcpPort = true ->
  digits <> [] -> forallb isDigit digits = true -> isDigit sep = false ->
  emulatorLoop (before ++ (str "emulator-" ++ digits ++ sep :: rest) :: after)
    tcpPort deviceId
  = Some (str "emulator-" ++ digits).
Proof.
  intros Hbefore Hline Hne Hd Hsep.
  induction Hbefore as [|l before Hl _ IH].
  - cbn [app emulatorLoop]. rewrite Hline. cbn [negb].
    pose proof (matchOf_reEmulator digits sep rest Hne Hd Hsep) as Hm.
    destruct (matchOf reEmulator _) as [m|]; [|discriminate].
    exact Hm.
  - cbn [app emulatorLoop]. rewrite Hl. exact IH.
Qed.

(** X14. At the end of an Android emulator session the forward is
    removed from the emulator of the first line of [adb forward --list]
    that holds [tcp:] and the port anywhere, also as the front part of a
    longer port number, whatever device id the request came with. For a
    listing whose lines before that line do not hold [tcp:<port>] and
    whose line begins with [emulator-], digits and a character that is
    no digit, the handler stops the terminal, lists the forwards and
    runs [adb -s emulator-<digits> forward --remove tcp:<port>]. *)
Theorem end_removes_forward_of_first_line_holding_the_port
  (adb stdout : jsstring) (providedArgs : EndArgs)
  (before after : list jsstring) (digits rest : jsstring) (sep : ascii) :
  let tcpPort := str "tcp:" ++ port providedArgs in
  let line := str "emulator-" ++ digits ++ sep :: rest in
  platform providedArgs = str "android" ->
  target providedArgs = str "emulator" ->
  adb <> [] ->
  Js.split (ascii_of_nat 10) stdout = before ++ line :: after ->
  Forall (fun l => Js.includes l tcpPort = false) before ->
  Js.includes line tcpPort = true ->
  digits <> [] -> forallb isDigit digits = true -> isDigit sep = false ->
  onEnd (Some adb) (Some stdout) providedArgs
  = ([StopTerminal;
      RunInBackground adb [str "forward"; str "--list"];
      RunInBackground adb [str "-s"; str "emulator-" ++ digits; str "forward";
                           str "--remove"; tcpPort]],
     Returns tt).
Proof.
  cbv zeta. intros Hp Ht Hadb Hsplit Hbefore Hline Hne Hd Hsep.
  unfold onEnd. rewrite Hp, Ht, Hsplit.
  rewrite !bool_decide_eq_true_2 by reflexivity. cbn [negb].
  destruct adb as [|a adb]; [congruence|]. cbn [given negb default from_option].
  rewrite (emulatorLoop_first before after digits sep rest _ _
             Hbefore Hline Hne Hd Hsep).
  reflexivity.
Qed.

Lemma end_removes_forward_of_first_line_holding_the_port_witness :
  onEnd (Some (str "adb"))
    (Some (str "emulator-5554 tcp:8080 tcp:8080" ++ [ascii_of_nat 10]
           ++ str "emulator-5556 tcp:80 tcp:80"))
    (mkEndArgs (str "android") (str "emulator") (str "80") None)
  = ([StopTerminal;
      RunInBackground (str "adb") [str "forward"; str "--list"];
      RunInBackground (str "adb")
        [str "-s"; str "emulator-" ++ str "5554"; str "forward";
         str "--remove"; str "tcp:" ++ str "80"]],
     Returns tt).
Proof.
  apply (end_removes_forward_of_first_line_holding_the_port
           (str "adb") _
           (mkEndArgs (str "android") (str "emulator") (str "80") None)
           [] [str "emulator-5556 tcp:80 tcp:80"] (str "5554")
           (str "tcp:8080 tcp:8080") " "%char).
  - reflexivity.
  - reflexivity.
  - discriminate.
  - vm_compute. reflexivity.
  - constructor.
  - vm_compute. reflexivity.
  - discriminate.
  - vm_compute. reflexivity.
  - vm_compute. reflexivity.
Defined.

End SessionFacts.

(** ** Patterns of the chain that cannot be reached *)
Module DeadArmFacts.
Import Re Vs Ctl Stated MatchFacts.

(** X15. The collection alternatives of the model arm are dead. The
    pattern of that arm also takes [Alloy.createCollection(] and
    [Alloy.Collections.instance(], but a text before the cursor that
    holds [Collection] never gets that far: [provideCompletionItems]
    ends in one of its first three arms, the Titanium arm matching the
    [tio] of the word, so the files of the models directory are not
    offered for collections. *)
Theorem collections_never_reach_the_model_arm
  (rules : list Rule) (document : TextDocument) (position : Position)
  (pre rest : jsstring) :
  linePrefixOf document position = pre ++ str "Collection" ++ rest ->
  In (classify rules document position)
     [IdBranch; MemberBranch; TitaniumBranch]
  /\ classify rules document position <> ModelBranch.
Proof.
  intros Hlp.
  assert (Ht : testLit reTitanium (linePrefixOf document position) = true).
  { rewrite Hlp.
    change (pre ++ str "Collection" ++ rest)
      with (pre ++ str "Collec" ++ "t"%char :: "i"%char :: "o"%char
                :: "n"%char :: rest).
    rewrite app_assoc.
    apply ShadowFacts.testLit_reTitanium;
      [left; reflexivity | left; reflexivity | reflexivity]. }
  unfold classify, cascade.
  set (lp := linePrefixOf document position) in *.
  destruct (testLit reId lp); [simpl; split; [auto | discriminate]|].
  destruct (testLit reMember lp); [simpl; split; [auto | discriminate]|].
  rewrite Ht. simpl. split; [auto | discriminate].
Qed.

Lemma collections_never_reach_the_model_arm_witness :
  testLit reModel (str "Alloy.createCollection('") = true
  /\ classify [] (str "var c = Alloy.createCollection('") (mkPosition 0 32)
     <> ModelBranch.
Proof.
  split; [vm_compute; reflexivity|].
  apply (collections_never_reach_the_model_arm []
           (str "var c = Alloy.createCollection('") (mkPosition 0 32)
           (str "var c = Alloy.create") (str "('")).
  vm_compute. reflexivity.
Defined.

End DeadArmFacts.

(** ** Inserting several i18n strings *)
Module I18nOrderFacts.
Import Vs Def Stated.

Lemma startsWith_app_true p u z :
  Js.startsWith p u = true -> Js.startsWith p (u ++ z) = true.
Proof.
  intros H. apply JsFacts.startsWith_prefix in H as [r ->].
  apply JsFacts.startsWith_prefix. exists (r ++ z). rewrite app_assoc.
  reflexivity.
Qed.

(** An occurrence of [p] cannot reach into a character [p] does not
    hold. *)
Lemma startsWith_stops p c : forall u z,
  ~ In c p -> Js.startsWith p (u ++ c :: z) = Js.startsWith p u.
Proof.
  induction p as [|a p IH]; intros u z Hc; [reflexivity|].
  destruct u as [|b u]; cbn [app Js.startsWith].
  - destruct (Ascii.eqb a c) eqn:Hac; [|reflexivity].
    apply Ascii.eqb_eq in Hac. subst c. exfalso. apply Hc. left. reflexivity.
  - rewrite IH; [reflexivity|]. intros Hin. apply Hc. right. exact Hin.
Qed.

(** No [</resources>] begins inside the element of a name without [<]. *)
Lemma stringElement_clean text z : forall k,
  ~ In "<"%char text ->
  k < length (stringElement text) ->
  Js.startsWith (str "</resources>") (skipn k (stringElement text ++ z)) = false.
Proof.
  intros k Htext Hk. unfold stringElement in *.
  change ([ascii_of_nat 9] ++ qstr "<string name=`" ++ text
          ++ qstr "`></string>" ++ [ascii_of_nat 10])
    with ((ascii_of_nat 9 :: qstr "<string name=`") ++ text
          ++ qstr "`></string>" ++ [ascii_of_nat 10]) in *.
  rewrite <- !app_assoc.
  set (front := ascii_of_nat 9 :: qstr "<string name=`").
  destruct (Nat.lt_ge_cases k (length front)) as [Hf|Hf].
  - do 15 (destruct k as [|k]; [reflexivity|]).
    vm_compute in Hf. lia.
  - replace k with (length front + (k - length front)) by lia.
    rewrite <- drop_drop, drop_app_length.
    set (k' := k - length front).
    destruct (Nat.lt_ge_cases k' (length text)) as [Ht|Ht].
    + rewrite drop_app_le by lia.
      destruct (skipn k' text) as [|x u] eqn:Hd.
      * apply (f_equal (@length _)) in Hd. rewrite length_drop in Hd.
        simpl in Hd. lia.
      * assert (Hx : In x text).
        { rewrite <- (firstn_skipn k' text), Hd. apply in_or_app. right.
          left. reflexivity. }
        change (str "</resources>") with ("<"%char :: str "/resources>").
        cbn [app Js.startsWith].
        destruct (Ascii.eqb "<" x) eqn:Hlt; [|reflexivity].
        apply Ascii.eqb_eq in Hlt. subst x. contradiction.
    + replace k' with (length text + (k' - length text)) by lia.
      rewrite <- drop_drop, drop_app_length.
      assert (Hb : k' - length text < 12).
      { rewrite !length_app in Hk. unfold k'.
        change (length front) with 15 in *.
        change (length (qstr "`></string>")) with 11 in Hk.
        simpl in Hk. lia. }
      clear -Hb. revert Hb. generalize (k' - length text). intros m Hm.
      do 12 (destruct m as [|m]; [reflexivity|]).
      lia.
Qed.

(** X16. Insertions line up in front of the closing tag when each call
    is made once the one before it has settled, and a name is not
    looked for before it is inserted. When the project has an i18n
    path, strings.xml (or the skeleton of a missing file) holds its
    first [</resources>] behind [pre], the first name holds no [<], and
    the call for the second name is made after the edit of the call for
    the first one has been applied, nothing else touching the file
    meanwhile, then the file reads at the end: [pre], the element of
    the first name, the element of the second name, [</resources>] and
    the rest. This holds for two equal names as well, which then stand
    twice. When instead both documents are opened before either edit is
    applied, both callbacks ask for an insertion at one and the same
    position. *)
Theorem insertI18nString_twice_keeps_the_order
  (W : World) (i18n first second pre post : jsstring) :
  let path := join (join i18n (defaultI18nLanguage W)) (str "strings.xml") in
  let before := default skeleton (texts W !! path) in
  let tag := str "</resources>" in
  i18nPath W = Some i18n ->
  i18n <> [] ->
  before = pre ++ tag ++ post ->
  (forall j, j < length pre -> Js.startsWith tag (skipn j before) = false) ->
  ~ In "<"%char first ->
  texts (settled (settled W first) second) !! path
  = Some (pre ++ stringElement first ++ stringElement second ++ tag ++ post)
  /\ exists W1 position,
       insertI18nString W first = (W1, Some path)
       /\ insertI18nString W1 second = (W1, Some path)
       /\ onOpened W1 path first
          = Some (mkEdit path position (stringElement first))
       /\ onOpened W1 path second
          = Some (mkEdit path position (stringElement second)).
Proof.
  cbv zeta. intros Hp Hne Hb Hfirst Hclean.
  set (path := join (join i18n (defaultI18nLanguage W)) (str "strings.xml")) in *.
  set (tag := str "</resources>") in *.
  assert (Hi : Js.indexOf (default skeleton (texts W !! path)) tag
               = Some (length pre)).
  { apply I18nFacts.indexOf_first.
    - rewrite Hb, length_app. lia.
    - rewrite Hb, drop_app_length. apply PathFacts.startsWith_app.
    - exact Hfirst. }
  split.
  - (* the first insertion *)
    destruct (I18nFacts.settled_texts W first i18n Hp Hne)
      as (H1 & _ & Hp1 & Hl1).
    cbv zeta in H1. unfold startingText in H1. fold path in H1.
    fold tag in H1. rewrite Hi, Hb, take_app_length, drop_app_length in H1.
    (* the second one finds the closing tag behind the new element *)
    rewrite Hp in Hp1.
    destruct (I18nFacts.settled_texts (settled W first) second i18n Hp1 Hne)
      as (H2 & _).
    cbv zeta in H2. unfold startingText in H2. rewrite Hl1 in H2.
    fold path tag in H2. rewrite H1 in H2.
    cbn [default from_option] in H2. unfold id in H2.
    assert (Hi2 : Js.indexOf (pre ++ stringElement first ++ tag ++ post) tag
                  = Some (length (pre ++ stringElement first))).
    { apply I18nFacts.indexOf_first.
      - rewrite !length_app. lia.
      - rewrite app_assoc, drop_app_length. apply PathFacts.startsWith_app.
      - intros j Hj. rewrite length_app in Hj.
        destruct (Nat.lt_ge_cases j (length pre)) as [Hlt|Hge].
        + rewrite drop_app_le by lia.
          change (stringElement first ++ tag ++ post)
            with (ascii_of_nat 9
                  :: (qstr "<string name=`" ++ first ++ qstr "`></string>"
                      ++ [ascii_of_nat 10]) ++ tag ++ post).
          rewrite startsWith_stops
            by (vm_compute; intros H; repeat destruct H as [H|H];
                try discriminate H; exact H).
          destruct (Js.startsWith tag (skipn j pre)) eqn:Hs; [|reflexivity].
          apply (startsWith_app_true _ _ (tag ++ post)) in Hs.
          rewrite <- (Hfirst j Hlt), Hb, drop_app_le by lia.
          symmetry. exact Hs.
        + replace j with (length pre + (j - length pre)) by lia.
          rewrite <- drop_drop, drop_app_length.
          apply stringElement_clean; [exact Hclean | lia]. }
    rewrite Hi2 in H2. rewrite H2. f_equal.
    rewrite (app_assoc pre (stringElement first)).
    rewrite take_app_length, drop_app_length, <- !app_assoc. reflexivity.
  - (* both documents opened before either edit *)
    destruct (I18nFacts.insertI18nString_call W first i18n Hp Hne)
      as (W1 & Hcall & Hfile & _ & Hp1 & Hl1).
    cbv zeta in Hcall, Hfile. unfold startingText in Hfile.
    fold path in Hcall, Hfile.
    exists W1, (positionAt (default skeleton (texts W !! path)) (length pre)).
    split; [exact Hcall|]. split.
    + unfold insertI18nString. rewrite Hp1, Hp, Hl1.
      destruct i18n as [|c p]; [congruence|].
      fold path. rewrite Hfile. reflexivity.
    + unfold onOpened. rewrite Hfile. fold tag. rewrite Hi.
      split; reflexivity.
Qed.

Lemma insertI18nString_twice_keeps_the_order_witness :
  let W := mkWorld (Some (str "app/i18n")) (str "en") ∅ ∅ in
  str "app/i18n" <> []
  /\ texts (settled (settled W (str "hello")) (str "hello"))
       !! str "app/i18n/en/strings.xml"
     = Some ((qstr "<?xml version=`1.0` encoding=`UTF-8`?>" ++ Samples.lf
              ++ str "<resources>" ++ Samples.lf)
             ++ stringElement (str "hello") ++ stringElement (str "hello")
             ++ str "</resources>" ++ []).
Proof.
  cbv zeta.
  assert (Hne : str "app/i18n" <> []) by discriminate.
  split; [exact Hne|].
  apply (insertI18nString_twice_keeps_the_order
           (mkWorld (Some (str "app/i18n")) (str "en") ∅ ∅)
           (str "app/i18n") (str "hello") (str "hello")
           (qstr "<?xml version=`1.0` encoding=`UTF-8`?>" ++ Samples.lf
            ++ str "<resources>" ++ Samples.lf) []).
  - reflexivity.
  - exact Hne.
  - vm_compute. reflexivity.
  - intros j Hj.
    do 51 (destruct j as [|j]; [vm_compute; reflexivity|]).
    vm_compute in Hj. lia.
  - vm_compute. intros H. repeat destruct H as [H|H]; try discriminate H.
    exact H.
Defined.

End I18nOrderFacts.

(** ** Ids in single quotes *)
Module IdQuoteFacts.
Import Re Vs Ctl Stated.

Lemma idAt_starts s found :
  idAt s = Some found ->
  Js.startsWith (str "id=" ++ [dquote]) s = true.
Proof.
  unfold idAt.
  destruct s as [|i [|d [|e [|q [|c s]]]]]; try discriminate.
  destruct (Ascii.eqb i "i") eqn:Hi; [|discriminate].
  destruct (Ascii.eqb d "d") eqn:Hd; [|discriminate].
  destruct (Ascii.eqb e "=") eqn:He; [|discriminate].
  destruct (Ascii.eqb q dquote) eqn:Hq; [|discriminate].
  intros _. apply Ascii.eqb_eq in Hi, Hd, He, Hq. subst. reflexivity.
Qed.

Lemma nextId_none s :
  (forall j, Js.startsWith (str "id=" ++ [dquote]) (skipn j s) = false) ->
  nextId s = None.
Proof.
  induction s as [|x s IH]; intros H.
  - reflexivity.
  - cbn [nextId]. destruct (idAt (x :: s)) as [found|] eqn:Hat.
    + apply idAt_starts in Hat. pose proof (H 0) as H0.
      change (skipn 0 (x :: s)) with (x :: s) in H0. congruence.
    + apply IH. intros j. apply (H (S j)).
Qed.

(** X17. Ids are offered only when they are written in double quotes:
    for a related view whose text holds no [id=] followed by a double
    quote, [getIdCompletions] returns nothing, although the member
    handler looks the same ids up in single quotes as well. *)
Theorem getIdCompletions_passes_over_single_quotes
  (E : Env) (file : jsstring) (text : TextDocument) :
  relatedXml E = Some file ->
  files E !! file = Some text ->
  Js.includes text (str "id=" ++ [dquote]) = false ->
  getIdCompletions E = Returns [].
Proof.
  intros Hrel Hfile Hnone. unfold getIdCompletions.
  rewrite Hrel. cbv iota beta.
  match goal with
  | |- match ?t with Some _ => _ | None => _ end = _ =>
      replace t with (Some text) by (symmetry; exact Hfile)
  end.
  change reIdAttr with (setLastIndex reIdAttr 0).
  rewrite (IdFacts.idLoop_spec text _ (S (length text)) 0 [] [] (length text))
    by lia.
  change (skipn 0 text) with text. fold (idValues text).
  rewrite IdFacts.idValues_unfold, nextId_none; [reflexivity|].
  unfold Js.includes in Hnone.
  destruct (Js.indexOf text (str "id=" ++ [dquote])) eqn:Hi; [discriminate|].
  apply (JsFacts.indexOf_None _ _ Hi).
Qed.

Lemma getIdCompletions_passes_over_single_quotes_witness :
  let view : TextDocument := str "<Button id='btn' title='OK'/>" in
  let E := Samples.project (Some Samples.viewPath)
             {[ Samples.viewPath := view ]} in
  getIdCompletions E = Returns []
  /\ getMethodAndPropertyCompletions E (str "$.btn.")
     = Returns (Views.memberSnippets Samples.buttonType).
Proof.
  cbv zeta. split; [|vm_compute; reflexivity].
  apply (getIdCompletions_passes_over_single_quotes _ Samples.viewPath
           (str "<Button id='btn' title='OK'/>")).
  - reflexivity.
  - vm_compute. reflexivity.
  - vm_compute. reflexivity.
Defined.

End IdQuoteFacts.

(** ** Answers to the start of a debug session *)
Module BuildFacts.
Import Re Build MatchFacts.

Lemma startsWith_app_split p : forall q s,
  Js.startsWith (p ++ q) s
  = Js.startsWith p s && Js.startsWith q (skipn (length p) s).
Proof.
  induction p as [|a p IH]; intros q s; [reflexivity|].
  destruct s as [|b s]; cbn [app Js.startsWith length skipn].
  - reflexivity.
  - rewrite IH, andb_assoc. reflexivity.
Qed.

Lemma includes_true s sub :
  Js.includes s sub = true
  <-> exists p, p <= length s /\ Js.startsWith sub (skipn p s) = true.
Proof.
  unfold Js.includes. split.
  - destruct (Js.indexOf s sub) as [i|] eqn:Hi; [|discriminate].
    intros _. exists i. split; [eapply I18nFacts.indexOf_le; exact Hi|].
    apply (JsFacts.indexOf_Some _ _ _ Hi).
  - intros (p & _ & Hp).
    destruct (Js.indexOf s sub) eqn:Hi; [reflexivity|].
    rewrite (JsFacts.indexOf_None _ _ Hi p) in Hp. discriminate.
Qed.

(** A pattern of literal characters tests like [includes]. *)
Lemma testLit_Lit t s : testLit (literal (Lit t)) s = Js.includes s t.
Proof.
  apply eq_true_iff_eq. rewrite testLit_literal, includes_true.
  split; intros (p & H).
  - destruct H as (st & Hp & Hr). exists p. split; [exact Hp|].
    rewrite run_Lit in Hr.
    destruct (Js.startsWith t (skipn p s)); [reflexivity | discriminate].
  - destruct H as [Hp Hs]. exists p. eexists. split; [exact Hp|].
    rewrite run_Lit, Hs. reflexivity.
Qed.

(** The pattern of the iOS build tests for either of its two lines. *)
Lemma testLit_reStartLog s :
  testLit reStartLog s
  = Js.includes s (str "Start application log")
    || Js.includes s (str "Start simulator log").
Proof.
  apply eq_true_iff_eq.
  change reStartLog
    with (literal (Seq (Lit (str "Start "))
                     (Seq (Alt (Lit (str "application")) (Lit (str "simulator")))
                          (Lit (str " log"))))).
  rewrite testLit_literal, orb_true_iff, !includes_true.
  assert (Hrun : forall x,
    (exists st,
       run false (Seq (Lit (str "Start "))
                  (Seq (Alt (Lit (str "application")) (Lit (str "simulator")))
                       (Lit (str " log")))) x [] accept = Some st)
    <-> Js.startsWith (str "Start application log") x = true
        \/ Js.startsWith (str "Start simulator log") x = true).
  { intros x.
    change (str "Start application log")
      with (str "Start " ++ str "application" ++ str " log").
    change (str "Start simulator log")
      with (str "Start " ++ str "simulator" ++ str " log").
    rewrite !startsWith_app_split.
    rewrite run_Seq, run_Lit.
    destruct (Js.startsWith (str "Start ") x); cbn [andb];
      [|split; [intros [st H]; discriminate | intros [H|H]; discriminate]].
    rewrite run_Seq, ShadowFacts.run_Alt, !run_Lit.
    destruct (Js.startsWith (str "application") _); cbn [andb].
    - destruct (Js.startsWith (str " log") _); cbn [andb].
      + split; [auto | intros _; eexists; reflexivity].
      + destruct (Js.startsWith (str "simulator") _); cbn [andb].
        * destruct (Js.startsWith (str " log") _).
          -- split; [auto | intros _; eexists; reflexivity].
          -- split; [intros [st H]; discriminate | intros [H|H]; discriminate].
        * split; [intros [st H]; discriminate | intros [H|H]; discriminate].
    - destruct (Js.startsWith (str "simulator") _); cbn [andb].
      + destruct (Js.startsWith (str " log") _).
        * split; [auto | intros _; eexists; reflexivity].
        * split; [intros [st H]; discriminate | intros [H|H]; discriminate].
      + split; [intros [st H]; discriminate | intros [H|H]; discriminate]. }
  split.
  - intros (p & st & Hp & Hr).
    destruct (proj1 (Hrun _) (ex_intro _ st Hr)) as [H|H]; eauto.
  - intros [(p & Hp & H)|(p & Hp & H)].
    + destruct (proj2 (Hrun (skipn p s)) (or_introl H)) as [st Hst]. eauto.
    + destruct (proj2 (Hrun (skipn p s)) (or_intror H)) as [st Hst]. eauto.
Qed.

(** What one event adds to the responses, and what it leaves in the
    shared response. *)
Lemma listen_answered platform r e :
  let r' := if failedExit e
            then mkResponse (requestId r) (mkResult true (Some failureMessage))
            else r in
  responses (fst (listen platform r e))
  = (if answered platform e then [r'] else [])
  /\ snd (listen platform r e) = r'.
Proof.
  cbv zeta. destruct e as [data|data|code]; cbn [listen failedExit answered].
  - rewrite testLit_reStartLog.
    destruct (bool_decide _ && _); split; reflexivity.
  - unfold reDevTools. rewrite testLit_Lit.
    destruct (bool_decide _ && _); split; reflexivity.
  - destruct (failed code); split; reflexivity.
Qed.

Lemma responses_app a b : responses (a ++ b) = responses a ++ responses b.
Proof. unfold responses. apply flat_map_app. Qed.

(** As long as no exit fails, the response stays as it is. *)
Lemma listenAll_steady platform r events :
  forallb (fun e => negb (failedExit e)) events = true ->
  responses (listenAll platform r events)
  = repeat r (length (List.filter (answered platform) events)).
Proof.
  induction events as [|e events IH]; intros Hok; [reflexivity|].
  simpl in Hok. apply andb_true_iff in Hok as [He Hok].
  apply negb_true_iff in He.
  cbn [listenAll List.filter].
  destruct (listen_answered platform r e) as [H1 H2]. cbv zeta in H1, H2.
  rewrite He in H1, H2.
  destruct (listen platform r e) as [done r']. cbn [fst snd] in H1, H2.
  subst r'. rewrite responses_app, H1, (IH Hok).
  destruct (answered platform e); reflexivity.
Qed.

(** Once an exit has failed, every answer is the failure. *)
Lemma listenAll_failed platform request events :
  let failure := mkResponse request (mkResult true (Some failureMessage)) in
  responses (listenAll platform failure events)
  = repeat failure (length (List.filter (answered platform) events)).
Proof.
  cbv zeta. induction events as [|e events IH]; [reflexivity|].
  cbn [listenAll List.filter].
  destruct (listen_answered platform
              (mkResponse request (mkResult true (Some failureMessage))) e)
    as [H1 H2]. cbv zeta in H1, H2. cbn [requestId] in H1, H2.
  replace (if failedExit e
           then mkResponse request (mkResult true (Some failureMessage))
           else mkResponse request (mkResult true (Some failureMessage)))
    with (mkResponse request (mkResult true (Some failureMessage))) in H1, H2
    by (destruct (failedExit e); reflexivity).
  destruct (listen platform _ e) as [done r']. cbn [fst snd] in H1, H2.
  subst r'. rewrite responses_app, H1, IH.
  destruct (answered platform e); reflexivity.
Qed.

Lemma listenAll_past_steady platform r before rest :
  forallb (fun e => negb (failedExit e)) before = true ->
  listenAll platform r (before ++ rest)
  = listenAll platform r before ++ listenAll platform r rest.
Proof.
  induction before as [|b before IH]; intros Hok; [reflexivity|].
  simpl in Hok. apply andb_true_iff in Hok as [Hb Hok].
  apply negb_true_iff in Hb. cbn [app listenAll].
  destruct (listen_answered platform r b) as [_ H2]. cbv zeta in H2.
  rewrite Hb in H2.
  destruct (listen platform r b) as [done r']. cbn [snd] in H2. subst r'.
  rewrite (IH Hok), app_assoc. reflexivity.
Qed.

(** X18. What the session is told about the start of a build. One
    response is sent for each piece of output that alone holds the line
    the platform's build announces itself with ([Start application log]
    or [Start simulator log] on the output of an iOS build, [To connect
    Chrome DevTools] on the error output of an Android build) and for
    each failed exit; a line that is split over two pieces is passed
    over. As long as no exit has failed, each response reports success;
    from the first failed exit on each response reports the failure,
    also for output that arrives later. *)
Theorem build_answers_success_until_an_exit_fails
  (platform request : jsstring) (events : list ProcessEvent) :
  let success := mkResponse request (mkResult false None) in
  let failure := mkResponse request (mkResult true (Some failureMessage)) in
  let sent := responses (onBuild platform request (Some events)) in
  length sent = length (List.filter (answered platform) events)
  /\ (forallb (fun e => negb (failedExit e)) events = true ->
      sent = repeat success (length sent))
  /\ (forall before e after,
        events = before ++ e :: after ->
        forallb (fun e => negb (failedExit e)) before = true ->
        failedExit e = true ->
        sent
        = repeat success (length (List.filter (answered platform) before))
          ++ repeat failure
               (length (List.filter (answered platform) (e :: after)))).
Proof.
  cbv zeta. cbn [onBuild].
  set (success := mkResponse request (mkResult false None)).
  set (failure := mkResponse request (mkResult true (Some failureMessage))).
  assert (Hsplit : forall before e after,
    forallb (fun e => negb (failedExit e)) before = true ->
    failedExit e = true ->
    responses (listenAll platform success (before ++ e :: after))
    = repeat success (length (List.filter (answered platform) before))
      ++ repeat failure
           (length (List.filter (answered platform) (e :: after)))).
  { intros before e after Hok He.
    rewrite (listenAll_past_steady _ _ _ _ Hok), responses_app.
    rewrite (listenAll_steady _ _ _ Hok). f_equal.
    cbn [listenAll List.filter].
    destruct (listen_answered platform success e) as [H1 H2].
    cbv zeta in H1, H2. rewrite He in H1, H2.
    assert (Ha : answered platform e = true).
    { destruct e; try discriminate He. exact He. }
    rewrite Ha in H1 |- *.
    destruct (listen platform success e) as [done r']. cbn [fst snd] in H1, H2.
    subst r'. rewrite responses_app, H1.
    change (mkResponse (requestId success) (mkResult true (Some failureMessage)))
      with failure.
    pose proof (listenAll_failed platform request after) as Hf.
    cbv zeta in Hf. fold failure in Hf. rewrite Hf. reflexivity. }
  assert (Hsteady : forallb (fun e => negb (failedExit e)) events = true ->
    responses (listenAll platform success events)
    = repeat success (length (List.filter (answered platform) events))).
  { apply listenAll_steady. }
  assert (Hcases : forallb (fun e => negb (failedExit e)) events = true
                   \/ exists before e after,
                        events = before ++ e :: after
                        /\ forallb (fun e => negb (failedExit e)) before = true
                        /\ failedExit e = true).
  { clear. induction events as [|e events IH]; [left; reflexivity|].
    destruct (failedExit e) eqn:He.
    - right. exists [], e, events. auto.
    - destruct IH as [IH|(before & x & after & -> & Hb & Hx)].
      + left. simpl. rewrite He, IH. reflexivity.
      + right. exists (e :: before), x, after. simpl. rewrite He, Hb. auto. }
  split; [|split].
  - destruct Hcases as [Hok|(before & e & after & -> & Hok & He)].
    + rewrite (Hsteady Hok), repeat_length. reflexivity.
    + rewrite (Hsplit _ _ _ Hok He), length_app, !repeat_length.
      rewrite List.filter_app, length_app. reflexivity.
  - intros Hok. rewrite (Hsteady Hok), repeat_length. reflexivity.
  - intros before e after -> Hok He. apply (Hsplit _ _ _ Hok He).
Qed.

Lemma build_answers_success_until_an_exit_fails_witness :
  let events := [Stdout (str "[INFO] Start appli");
                 Stdout (str "cation log");
                 Stdout (str "[INFO] Start simulator log");
                 Exit (Some 1%Z);
                 Stdout (str "[INFO] Start application log")] in
  responses (onBuild (str "ios") (str "7") (Some events))
  = repeat (mkResponse (str "7") (mkResult false None))
      (length (List.filter (answered (str "ios"))
                 [Stdout (str "[INFO] Start appli");
                  Stdout (str "cation log");
                  Stdout (str "[INFO] Start simulator log")]))
    ++ repeat (mkResponse (str "7") (mkResult true (Some failureMessage)))
         (length (List.filter (answered (str "ios"))
                    [Exit (Some 1%Z);
                     Stdout (str "[INFO] Start application log")])).
Proof.
  cbv zeta.
  apply (proj2 (proj2 (build_answers_success_until_an_exit_fails
                         (str "ios") (str "7") _))
           [Stdout (str "[INFO] Start appli");
            Stdout (str "cation log");
            Stdout (str "[INFO] Start simulator log")]
           (Exit (Some 1%Z))
           [Stdout (str "[INFO] Start application log")]).
  - reflexivity.
  - vm_compute. reflexivity.
  - vm_compute. reflexivity.
Defined.

End BuildFacts.

(** ** What the install commands report *)
Module CmdFacts.
Import Ext Cmd.

Section Reports.
Variable S : Type.
Variable action : Update -> S -> option InstallError * S.
Variable picksSudo : Update -> bool.
Variable appcInstaller : jsstring.

Lemma installedReports_app a b :
  installedReports (a ++ b) = installedReports a + installedReports b.
Proof. unfold installedReports. rewrite List.filter_app, length_app. reflexivity. Qed.

Lemma failedReports_app a b :
  failedReports (a ++ b) = failedReports a + failedReports b.
Proof. unfold failedReports. rewrite List.filter_app, length_app. reflexivity. Qed.

(** The handling of a failure and the advance of the progress bar are
    no reports of an installation. *)
Lemma afterFailure_reports update metadata :
  installedReports (map Progress (afterFailure picksSudo appcInstaller update metadata)) = 0
  /\ failedReports (map Progress (afterFailure picksSudo appcInstaller update metadata)) = 0.
Proof.
  unfold afterFailure. destruct metadata as [m|]; [|auto].
  destruct (_ && _); [|auto]. destruct (picksSudo update); auto.
Qed.

Lemma increment_reports incrementProgress total :
  installedReports (map Progress (increment incrementProgress total)) = 0
  /\ failedReports (map Progress (increment incrementProgress total)) = 0.
Proof. destruct incrementProgress; auto. Qed.

(** As long as no action rejects with [undefined] or [null], the loop
    comes to its end and each update adds one report, of its
    installation or of its failure; where every action fails, none is
    reported installed. *)
Lemma installLoop_reports updates total incrementProgress :
  Runs.rejectsWithValues action updates ->
  forall counter s log,
    let r := installLoop S action picksSudo appcInstaller updates
               total incrementProgress counter s log in
    let log' := fst (fst (fst r)) in
    snd r = Returns tt
    /\ installedReports (map Progress log') + failedReports (map Progress log')
       = installedReports (map Progress log) + failedReports (map Progress log)
         + length updates
    /\ ((forall u s0, fst (action u s0) <> None) ->
        installedReports (map Progress log')
        = installedReports (map Progress log)).
Proof.
  induction updates as [|update rest IH]; intros Hv counter s log; cbv zeta.
  - simpl. split; [reflexivity|]. split; [lia | reflexivity].
  - assert (Hrest : Runs.rejectsWithValues action rest)
      by (intros u s0 Hu; apply Hv; right; exact Hu).
    specialize (IH Hrest).
    pose proof (Hv update s (or_introl eq_refl)) as Hu.
    cbn [installLoop length].
    destruct (action update s) as [[[metadata|]|] s'] eqn:Ha;
      cbn [fst metadataOf] in *; [| congruence |].
    + match goal with
      | |- context [installLoop _ _ _ _ rest _ _ ?c s' ?l] =>
          specialize (IH c s' l)
      end.
      cbv zeta in IH. destruct IH as (IH0 & IH1 & IH2).
      destruct (afterFailure_reports update metadata) as [F1 F2].
      destruct (increment_reports incrementProgress total) as [I1 I2].
      rewrite !map_app in IH1, IH2.
      rewrite !installedReports_app in IH1, IH2.
      rewrite !failedReports_app in IH1.
      rewrite F1, I1 in IH1, IH2. rewrite F2, I2 in IH1.
      cbn [map installedReports failedReports List.filter length] in IH1, IH2.
      split; [exact IH0|]. split.
      * rewrite IH1. unfold installedReports, failedReports. simpl. lia.
      * intros Hall. rewrite (IH2 Hall).
        unfold installedReports. simpl. lia.
    + match goal with
      | |- context [installLoop _ _ _ _ rest _ _ ?c s' ?l] =>
          specialize (IH c s' l)
      end.
      cbv zeta in IH. destruct IH as (IH0 & IH1 & IH2).
      destruct (increment_reports incrementProgress total) as [I1 I2].
      rewrite !map_app in IH1, IH2.
      rewrite !installedReports_app in IH1, IH2.
      rewrite !failedReports_app in IH1.
      rewrite I1 in IH1, IH2. rewrite I2 in IH1.
      split; [exact IH0|]. split.
      * rewrite IH1. unfold installedReports, failedReports. simpl. lia.
      * intros Hall. exfalso. apply (Hall update s). rewrite Ha. reflexivity.
Qed.

(** X19. As long as no action rejects with [undefined] or [null], the
    command that installs all updates ends the same way whatever
    became of the installations: it reports each update once, as
    installed or as failed, then clears the [HasUpdates] flag,
    refreshes the explorers and tells the user [Installed n updates]
    with the number of the updates it was given; when every action
    fails, none is reported installed, and the message still counts
    them all.  When [installUpdates] throws instead, the command does
    nothing but the progress reports made until then: the flag is not
    cleared and no closing message is shown. *)
Theorem installAllUpdates_counts_failures_as_installed
  (updateInfo : option (list Update)) (explorerUpdates : list Update) (s : S) :
  let given := default explorerUpdates updateInfo in
  let r := installAllUpdates S action picksSudo appcInstaller
             updateInfo explorerUpdates s in
  let steps := fst (fst r) in
  (Runs.rejectsWithValues action given ->
   snd r = Returns tt
   /\ installedReports steps + failedReports steps = length given
   /\ (exists reports,
         steps = reports
                 ++ [SetHasUpdates false; RefreshUpdates; RefreshExplorer;
                     InformationMessage (installedMessage (length given))])
   /\ ((forall u s0, fst (action u s0) <> None) ->
       installedReports steps = 0 /\ failedReports steps = length given))
  /\ (snd r <> Returns tt ->
      snd r = Throws
      /\ forall step, In step steps -> exists event, step = Progress event).
Proof.
  cbv zeta. unfold installAllUpdates, installUpdates.
  set (given := default explorerUpdates updateInfo).
  pose proof (installLoop_reports (sort given) (length given) true) as H.
  destruct (InstallFacts.sort_ascending given) as [_ Hperm].
  rewrite <- (Permutation_length Hperm) in H.
  split.
  - intros Hv.
    assert (Hv' : Runs.rejectsWithValues action (sort given)).
    { intros u s0 Hu. apply Hv.
      apply (Permutation_in _ (Permutation_sym Hperm)). exact Hu. }
    specialize (H Hv' 1 s []). cbv zeta in H.
    destruct (installLoop S action picksSudo appcInstaller (sort given)
                (length given) true 1 s []) as [[[log s'] counter] result].
    cbn [fst snd] in H. destruct H as (H0 & H1 & H2). subst result.
    cbn [fst snd].
    change (installedReports (map Progress [])) with 0 in H1, H2.
    change (failedReports (map Progress [])) with 0 in H1.
    rewrite installedReports_app, failedReports_app.
    change (installedReports [SetHasUpdates false; RefreshUpdates;
              RefreshExplorer;
              InformationMessage (installedMessage (length given))]) with 0.
    change (failedReports [SetHasUpdates false; RefreshUpdates;
              RefreshExplorer;
              InformationMessage (installedMessage (length given))]) with 0.
    split; [reflexivity|]. split; [lia|]. split; [eexists; reflexivity|].
    intros Hall. specialize (H2 Hall). lia.
  - clear H.
    destruct (installLoop S action picksSudo appcInstaller (sort given)
                (length given) true 1 s []) as [[[log s'] counter] result].
    destruct result as [[]| |]; cbn [fst snd]; intros Hr;
      [congruence| |]; (split; [reflexivity|]);
      intros step Hstep; apply in_map_iff in Hstep as (event & <- & _);
      exists event; reflexivity.
Qed.

End Reports.

Lemma installAllUpdates_counts_failures_as_installed_witness :
  let broken (_ : Update) (_ : unit) := (Some (mkError None), tt) in
  let given := [mkUpdate None (str "sdk") (str "9.0.0") 2;
                mkUpdate None (str "cli") (str "7.1.0") 1] in
  let r := installAllUpdates unit broken (fun _ => false) (str "installer")
             (Some given) [] tt in
  let steps := fst (fst r) in
  Runs.rejectsWithValues broken given
  /\ snd r = Returns tt
  /\ installedReports steps = 0
  /\ failedReports steps = 2
  /\ List.last steps RefreshUpdates = InformationMessage (str "Installed 2 updates").
Proof.
  cbv zeta.
  assert (Hv : Runs.rejectsWithValues
                 (fun (_ : Update) (_ : unit) => (Some (mkError None), tt))
                 [mkUpdate None (str "sdk") (str "9.0.0") 2;
                  mkUpdate None (str "cli") (str "7.1.0") 1])
    by (intros u s0 _; discriminate).
  split; [exact Hv|].
  destruct (proj1 (installAllUpdates_counts_failures_as_installed unit
              (fun _ _ => (Some (mkError None), tt)) (fun _ => false)
              (str "installer")
              (Some [mkUpdate None (str "sdk") (str "9.0.0") 2;
                     mkUpdate None (str "cli") (str "7.1.0") 1]) [] tt) Hv)
    as (H0 & _ & _ & H).
  destruct H as [H1 H2]; [intros u s0; discriminate|].
  split; [exact H0|].
  split; [exact H1|]. split; [exact H2|]. vm_compute. reflexivity.
Defined.

(** With the installer's action rejecting with [undefined], the
    command stops at the installer's failure: the sdk is not reached,
    the flag stays set and nothing is said at the end. *)
Example installAllUpdates_stops_at_undefined_rejection :
  installAllUpdates (list jsstring) Runs.called (fun _ => false)
    (str "appc-installer") None [Runs.sdk; Runs.installer] []
  = (map Progress
       [Installing (str "installer: 1.0") 1 2; Action Runs.installer;
        FailedToInstall (str "installer: 1.0") 1 2; Increment 2],
     [str "installer"], Throws).
Proof. vm_compute. reflexivity. Qed.

End CmdFacts.

(** ** What the Titanium handler offers behind a path *)
Module TitaniumFacts.
Import Re Vs Ctl Stated Paths Offer MatchFacts.

Lemma completionsFor_parts E apiName fragment :
  completionsFor E apiName fragment
  = (match fragment with
     | None => classesUnder (titaniumTypes (completions E)) apiName
     | Some _ => []
     end)
    ++ membersOf E (titaniumTypes (completions E)) apiName fragment.
Proof. reflexivity. Qed.

(** A segment is taken whole where no word character follows it. *)
Lemma ti_segment_whole seg rest c k st :
  tiSegment seg = true ->
  stopsAt isWord rest ->
  k rest c = Some st ->
  run false (Any [Seq (CharSet isUpper) (Star true (CharSet isWord));
                  Lit (str "iOS"); Lit (str "iPad")])
    (seg ++ rest) c k = Some st.
Proof.
  intros Hseg Hstop Hk. cbn [Any]. rewrite ShadowFacts.run_Alt.
  unfold tiSegment in Hseg.
  destruct (upperWord seg) eqn:Hu.
  - assert (Hrun : run false (Seq (CharSet isUpper)
                                  (Star true (CharSet isWord)))
                     (seg ++ rest) c k = Some st).
    { destruct seg as [|u ws]; [discriminate|].
      simpl in Hu. apply andb_true_iff in Hu as [Hu Hws].
      rewrite run_Seq. cbn [app].
      rewrite run_class, Hu, PathFacts.run_Star.
      apply PathFacts.star_class_exact;
        [reflexivity | exact Hws | exact Hstop | exact Hk]. }
    rewrite Hrun. reflexivity.
  - cbn [orb] in Hseg. apply orb_true_iff in Hseg as [H|H];
      apply bool_decide_eq_true in H; subst seg.
    + change (run false (Seq (CharSet isUpper) (Star true (CharSet isWord)))
                (str "iOS" ++ rest) c k) with (@None state).
      rewrite ShadowFacts.run_Alt, run_Lit, PathFacts.startsWith_app,
        drop_app_length, Hk.
      reflexivity.
    + change (run false (Seq (CharSet isUpper) (Star true (CharSet isWord)))
                (str "iPad" ++ rest) c k) with (@None state).
      rewrite ShadowFacts.run_Alt.
      change (run false (Lit (str "iOS")) (str "iPad" ++ rest) c k)
        with (@None state).
      rewrite run_Lit, PathFacts.startsWith_app, drop_app_length, Hk.
      reflexivity.
Qed.

(** A segment is not empty and does not end in a dot. *)
Lemma tiSegment_end seg :
  tiSegment seg = true ->
  exists w x, seg = w ++ [x] /\ Ascii.eqb x "." = false.
Proof.
  intros Hseg.
  assert (Hall : forallb (fun c => isUpper c || isWord c) seg = true
                 /\ seg <> []).
  { unfold tiSegment in Hseg. destruct (upperWord seg) eqn:Hu.
    - destruct seg as [|u ws]; [discriminate|]. split; [|discriminate].
      simpl in Hu. apply andb_true_iff in Hu as [Hu Hws].
      cbn [forallb]. rewrite Hu. cbn [orb andb].
      rewrite forallb_forall in Hws |- *. intros x Hx.
      rewrite (Hws x Hx). apply orb_true_r.
    - cbn [orb] in Hseg. apply orb_true_iff in Hseg as [H|H];
        apply bool_decide_eq_true in H; subst seg;
        (split; [vm_compute; reflexivity | discriminate]). }
  destruct Hall as [Hall Hne].
  destruct (exists_last Hne) as (w & x & ->).
  exists w, x. split; [reflexivity|].
  rewrite forallb_app in Hall. apply andb_true_iff in Hall as [_ Hx].
  cbn [forallb] in Hx. rewrite andb_true_r in Hx.
  destruct (Ascii.eqb x ".") eqn:He; [|reflexivity].
  apply Ascii.eqb_eq in He. subst x. vm_compute in Hx. discriminate Hx.
Qed.

(** The star of group 1 walks the segments up to a last one that has
    no dot behind it, at the end of the text. *)
Lemma star_segments_open k last : forall segs n c st,
  Forall (fun seg => tiSegment seg = true) segs ->
  tiSegment last = true ->
  length (concat (map (fun seg => seg ++ str ".") segs) ++ last) <= n ->
  k [] c = Some st ->
  starLoop (run false (Seq (Any [Seq (CharSet isUpper)
                                   (Star true (CharSet isWord));
                                 Lit (str "iOS"); Lit (str "iPad")])
                           (Opt (Char "."))))
    [] true k n (concat (map (fun seg => seg ++ str ".") segs) ++ last) c
  = Some st.
Proof.
  induction segs as [|seg segs IH]; intros n c st Hsegs Hlast Hn Hk.
  - cbn [map concat app] in Hn |- *.
    destruct (tiSegment_end last Hlast) as (w & x & Hw & _).
    destruct n as [|n].
    { rewrite Hw, length_app in Hn. simpl in Hn. lia. }
    cbn [starLoop]. rewrite clearGroups_nil, run_Seq.
    rewrite <- (app_nil_r last) at 1.
    rewrite (ti_segment_whole last [] c _ st Hlast I); [reflexivity|].
    unfold Opt. rewrite ShadowFacts.run_Alt.
    change (run false (Char ".") [] c _) with (@None state). cbv iota.
    cbn [run].
    assert ((length (@nil ascii) <? length last) = true) as ->.
    { apply Nat.ltb_lt. rewrite Hw, length_app. simpl. lia. }
    rewrite PathFacts.starLoop_refused; [exact Hk|].
    intros c' k'. reflexivity.
  - inversion Hsegs as [|? ? Hseg Hsegs']; subst.
    cbn [map concat] in Hn |- *. rewrite <- !app_assoc in Hn |- *.
    destruct n as [|n].
    { rewrite !length_app in Hn. simpl in Hn. lia. }
    cbn [starLoop]. rewrite clearGroups_nil, run_Seq.
    set (rest := concat (map (fun seg0 => seg0 ++ str ".") segs) ++ last) in *.
    change (str "." ++ rest) with ("."%char :: rest).
    rewrite (PathFacts.ti_segment seg rest c _ st Hseg); [reflexivity|].
    unfold Opt in IH |- *. rewrite ShadowFacts.run_Alt, ShadowFacts.run_Char.
    cbv iota.
    unfold charMatches. rewrite Ascii.eqb_refl.
    assert ((length rest <? length (seg ++ "."%char :: rest)) = true) as ->
      by (apply Nat.ltb_lt; rewrite length_app; simpl; lia).
    assert (Hlen : length rest <= n).
    { rewrite !length_app in Hn. simpl in Hn. lia. }
    subst rest.
    rewrite (IH n c st Hsegs' Hlast Hlen Hk). reflexivity.
Qed.

(** The pattern at the front of a path whose last segment has no dot
    behind it: group 1 holds the whole path, and there is no group 2. *)
Lemma run_open_path segs last :
  Forall (fun seg => tiSegment seg = true) segs ->
  tiSegment last = true ->
  let path := (str "Ti" ++ str ".")
              ++ concat (map (fun seg => seg ++ str ".") segs) ++ last in
  run false (pathPattern (str "Ti" ++ str ".")
               (Any [Seq (CharSet isUpper) (Star true (CharSet isWord));
                     Lit (str "iOS"); Lit (str "iPad")]))
    path [] accept
  = Some ([], [(1, path)]).
Proof.
  intros Hsegs Hlast. cbv zeta.
  unfold pathPattern. cbn [Cat].
  rewrite run_Seq, PathFacts.run_Group, run_Seq, run_Lit.
  rewrite PathFacts.startsWith_app, drop_app_length.
  rewrite PathFacts.run_Star.
  change (groupsOf (Seq (Any [Seq (CharSet isUpper) (Star true (CharSet isWord));
                              Lit (str "iOS"); Lit (str "iPad")])
                        (Opt (Char "."))))
    with (@nil nat).
  apply star_segments_open; [exact Hsegs | exact Hlast | lia |].
  rewrite Nat.sub_0_r, firstn_all.
  reflexivity.
Qed.

(** What the handler reads off such a path: the API name is the path,
    and there is no attribute. *)
Lemma pathParts_open_path pre segs last :
  let path := dotted (str "Ti") (segs ++ [last]) in
  Forall (fun seg => tiSegment seg = true) segs ->
  tiSegment last = true ->
  (forall j, j < length pre ->
     Js.startsWith (str "Ti.") (skipn j (pre ++ path)) = false) ->
  pathParts reTiPath (pre ++ path) = (Some path, None).
Proof.
  cbv zeta. intros Hsegs Hlast Hfirst.
  set (alt := Any [Seq (CharSet isUpper) (Star true (CharSet isWord));
                   Lit (str "iOS"); Lit (str "iPad")]).
  change reTiPath with (literal (pathPattern (str "Ti" ++ str ".") alt)).
  assert (Hpath : dotted (str "Ti") (segs ++ [last])
                  = (str "Ti" ++ str ".")
                    ++ concat (map (fun seg => seg ++ str ".") segs) ++ last).
  { unfold dotted. rewrite map_app, concat_app. cbn [map concat].
    rewrite app_nil_r.
    change ("."%char :: last) with (str "." ++ last).
    rewrite !app_assoc. f_equal. rewrite <- app_assoc.
    apply (PathFacts.dotted_shift (str "Ti") segs). }
  set (path := dotted (str "Ti") (segs ++ [last])) in *.
  pose proof (run_open_path segs last Hsegs Hlast) as Hrun.
  cbv zeta in Hrun. fold alt in Hrun. rewrite <- Hpath in Hrun.
  assert (Hs : search false (pathPattern (str "Ti" ++ str ".") alt)
                 (pre ++ path) 0
               = Some (0 + length pre, skipn (length pre) (pre ++ path),
                       ([], [(1, path)]))).
  { apply PathFacts.search_first.
    - rewrite length_app. lia.
    - rewrite drop_app_length. exact Hrun.
    - intros q Hq. apply PathFacts.run_pathPattern_start. apply Hfirst.
      exact Hq. }
  unfold pathParts, matchOf, exec.
  cbn [literal global sticky orb ignoreCase source lastIndex].
  change (skipn 0 (pre ++ path)) with (pre ++ path). rewrite Hs.
  assert (Hn : nGroups (pathPattern (str "Ti" ++ str ".") alt) = 2)
    by reflexivity.
  rewrite Hn. change (length (pre ++ path) <? 0) with false. cbv iota.
  cbn [fst elements groups length seq map Nat.eqb].
  unfold group1, nth_group. cbn [groups List.nth].
  cbn [capture Nat.eqb default from_option]. unfold id.
  destruct (tiSegment_end last Hlast) as (w & x & Hw & Hx).
  assert (Hend : Js.endsWithChar "." path = false).
  { rewrite Hpath, Hw, !app_assoc. unfold Js.endsWithChar.
    rewrite rev_app_distr. cbn [rev app]. exact Hx. }
  rewrite Hend. reflexivity.
Qed.




End TitaniumFacts.
